(** * Graph indexer: outbox consumer, event transformers, retry state machine

    A shallow embedding of [src/index.js] (the worker that drains
    [outbox_graph_events] from Postgres into Neo4j) together with the
    properties the specification states about it.

    Conventions of the model:
    - a JavaScript string is represented by its UTF-8 byte content, as a Rocq
      [string] (one [ascii] per byte); this is what [crypto]'s [update]
      hashes;
    - a payload is a JSON document: [null], or an object whose fields are
      scalars (a document of another kind, a string or an array say, reads
      like an object without fields); reading a field that is not there
      gives [JUndef], as destructuring does;
    - a number is an integer that JavaScript represents exactly, up to
      [Number.MAX_SAFE_INTEGER] in absolute value;
    - the wall clock ([new Date().toISOString()]) is an explicit argument;
    - the outbox table is a list of rows in storage order; [id] is its
      primary key;
    - the Neo4j store is a pair of finite maps, nodes keyed by label and [id]
      property (the key every [MERGE] of this program uses) and
      relationships keyed by type, end points and identifying properties;
    - one worker runs: no row is locked by another transaction, and a
      statement sent to Postgres fails only for a value that is out of the
      range of its type ([LIMIT] is a [bigint], [attempts] an [INT]).

    Not modelled: payload fields that are arrays, objects or fractions, and
    what the graph driver answers once it has been closed. *)

From Stdlib Require Import ZArith Ascii String List Lia Bool.
From stdpp Require Import base option list sorting strings gmap fin_maps countable.

Local Open Scope string_scope.
Local Open Scope Z_scope.

(* ===================================================================== *)
(** * JavaScript values *)
(* ===================================================================== *)

Module Js.

(** The scalar JSON values a payload field can hold, and [undefined] for a
    field that is absent. Numbers are the integers. *)
Inductive jsval : Type :=
  | JUndef
  | JNull
  | JBool (b : bool)
  | JNum (n : Z)
  | JStr (s : string).

#[global] Instance jsval_eq_dec : EqDecision jsval.
Proof. solve_decision. Defined.

#[global] Instance jsval_countable : Countable jsval.
Proof.
  refine (inj_countable'
    (fun v => match v with
              | JUndef => inl (inl false)
              | JNull => inl (inl true)
              | JBool b => inl (inr b)
              | JNum n => inr (inl n)
              | JStr s => inr (inr s)
              end)
    (fun e => match e with
              | inl (inl false) => JUndef
              | inl (inl true) => JNull
              | inl (inr b) => JBool b
              | inr (inl n) => JNum n
              | inr (inr s) => JStr s
              end) _).
  by intros [].
Defined.

(** ToBoolean: [undefined], [null], [false], [0] and [""] are falsy. *)
Definition truthy (v : jsval) : bool :=
  match v with
  | JUndef | JNull => false
  | JBool b => b
  | JNum n => negb (n =? 0)
  | JStr s => negb (String.eqb s "")
  end.

(** [a || b] *)
Definition or_else (a b : jsval) : jsval := if truthy a then a else b.

(** Decimal digits of a non-negative integer, most significant first. *)
Fixpoint digits_fuel (fuel : nat) (n : Z) (acc : string) : string :=
  match fuel with
  | O => acc
  | S fuel' =>
      let d := ascii_of_nat (48 + Z.to_nat (n mod 10)) in
      if n <? 10 then String d acc
      else digits_fuel fuel' (n / 10) (String d acc)
  end.

Definition digits (n : Z) : string :=
  digits_fuel (S (Z.to_nat (Z.log2 n))) n "".

(** ToString, as [String(v)] and template literals apply it. For a number
    this is the text JavaScript gives an integer up to
    [Number.MAX_SAFE_INTEGER] in absolute value; beyond, JavaScript writes
    the shortest digits that read back as the same double, and an exponent
    from [1e21]. *)
Definition to_string (v : jsval) : string :=
  match v with
  | JUndef => "undefined"
  | JNull => "null"
  | JBool true => "true"
  | JBool false => "false"
  | JNum n => if n <? 0 then "-" ++ digits (- n) else digits n
  | JStr s => s
  end.

(** A thrown value: an [Error]-like object with a [name] and a [message]. *)
Record exn : Type := mkExn { exn_name : string; exn_message : string }.

(** [new Error(msg)] *)
Definition Error (msg : string) : exn := mkExn "Error" msg.

(** [Error.prototype.toString] *)
Definition exn_to_string (e : exn) : string :=
  if String.eqb (exn_name e) "" then exn_message e
  else if String.eqb (exn_message e) "" then exn_name e
  else exn_name e ++ ": " ++ exn_message e.

End Js.
Export Js.

(* ===================================================================== *)
(** * SHA-256 (FIPS 180-4), as [crypto.createHash("sha256")] computes it *)
(* ===================================================================== *)

Module Sha256.

Definition w32 (x : Z) : Z := x mod 2 ^ 32.
Definition add32 (x y : Z) : Z := w32 (x + y).
Definition rotr (n x : Z) : Z :=
  Z.lor (Z.shiftr x n) (w32 (Z.shiftl x (32 - n))).
Definition shr (n x : Z) : Z := Z.shiftr x n.
Definition not32 (x : Z) : Z := 2 ^ 32 - 1 - x.

Definition Ch (x y z : Z) : Z := Z.lxor (Z.land x y) (Z.land (not32 x) z).
Definition Maj (x y z : Z) : Z :=
  Z.lxor (Z.lxor (Z.land x y) (Z.land x z)) (Z.land y z).
Definition bsig0 (x : Z) : Z := Z.lxor (Z.lxor (rotr 2 x) (rotr 13 x)) (rotr 22 x).
Definition bsig1 (x : Z) : Z := Z.lxor (Z.lxor (rotr 6 x) (rotr 11 x)) (rotr 25 x).
Definition ssig0 (x : Z) : Z := Z.lxor (Z.lxor (rotr 7 x) (rotr 18 x)) (shr 3 x).
Definition ssig1 (x : Z) : Z := Z.lxor (Z.lxor (rotr 17 x) (rotr 19 x)) (shr 10 x).

(** The round constants are the first 32 bits of the fractional parts of the
    cube roots of the first 64 primes, the initial hash value those of the
    square roots of the first 8. *)
Definition first_primes : list Z :=
  [2; 3; 5; 7; 11; 13; 17; 19; 23; 29; 31; 37; 41; 43; 47; 53;
   59; 61; 67; 71; 73; 79; 83; 89; 97; 101; 103; 107; 109; 113; 127; 131;
   137; 139; 149; 151; 157; 163; 167; 173; 179; 181; 191; 193; 197; 199; 211; 223;
   227; 229; 233; 239; 241; 251; 257; 263; 269; 271; 277; 281; 283; 293; 307; 311].

(** Largest [r] in [[lo, hi)] with [r ^ k <= n], by bisection. *)
Fixpoint iroot_bisect (fuel : nat) (k n lo hi : Z) : Z :=
  match fuel with
  | O => lo
  | S fuel' =>
      if hi - lo <=? 1 then lo
      else
        let mid := (lo + hi) / 2 in
        if mid ^ k <=? n then iroot_bisect fuel' k n mid hi
        else iroot_bisect fuel' k n lo mid
  end.

Definition frac_root_bits (k p : Z) : Z :=
  w32 (iroot_bisect 64 k (Z.shiftl p (32 * k)) 0 (2 ^ 36)).

Definition K : list Z := Eval vm_compute in map (frac_root_bits 3) first_primes.
Definition H0 : list Z := Eval vm_compute in map (frac_root_bits 2) (take 8 first_primes).

(** The eight working variables, also the running hash value. *)
Record state : Type := mkState
  { sa : Z; sb : Z; sc : Z; sd : Z; se : Z; sf : Z; sg : Z; sh : Z }.

Definition state_of_list (l : list Z) : state :=
  mkState (nth 0 l 0) (nth 1 l 0) (nth 2 l 0) (nth 3 l 0)
          (nth 4 l 0) (nth 5 l 0) (nth 6 l 0) (nth 7 l 0).

Definition initial : state := Eval vm_compute in state_of_list H0.

(** One round: [win] holds the schedule words [W_t .. W_(t+15)]. *)
Definition round (st : state * list Z) (k : Z) : state * list Z :=
  let '(s, win) := st in
  let wt := nth 0 win 0 in
  let t1 := add32 (add32 (add32 (add32 (sh s) (bsig1 (se s))) (Ch (se s) (sf s) (sg s))) k) wt in
  let t2 := add32 (bsig0 (sa s)) (Maj (sa s) (sb s) (sc s)) in
  let wnext :=
    add32 (add32 (add32 (ssig1 (nth 14 win 0)) (nth 9 win 0)) (ssig0 (nth 1 win 0))) wt in
  (mkState (add32 t1 t2) (sa s) (sb s) (sc s) (add32 (sd s) t1) (se s) (sf s) (sg s),
   (tl win ++ [wnext])%list).

(** Process one block of sixteen 32-bit words. *)
Definition compress (h : state) (block : list Z) : state :=
  let s := fst (fold_left round K (h, block)) in
  mkState (add32 (sa h) (sa s)) (add32 (sb h) (sb s)) (add32 (sc h) (sc s))
          (add32 (sd h) (sd s)) (add32 (se h) (se s)) (add32 (sf h) (sf s))
          (add32 (sg h) (sg s)) (add32 (sh h) (sh s)).

Definition bytes_of_string (s : string) : list Z :=
  map (fun a => Z.of_nat (nat_of_ascii a)) (list_ascii_of_string s).

(** Big-endian bytes of [n], [k] of them. *)
Fixpoint be_bytes (k : nat) (n : Z) : list Z :=
  match k with
  | O => []
  | S k' => Z.shiftr n (8 * Z.of_nat k') mod 256 :: be_bytes k' n
  end.

(** Padding: a 1 bit, zeros up to 56 mod 64, then the bit length on 64 bits. *)
Definition pad (msg : list Z) : list Z :=
  let len := Z.of_nat (length msg) in
  let zeros := Z.to_nat ((55 - len) mod 64) in
  (msg ++ [128] ++ repeat 0 zeros ++ be_bytes 8 (8 * len))%list.

Fixpoint words_of_bytes (fuel : nat) (bs : list Z) : list Z :=
  match fuel, bs with
  | S fuel', b0 :: b1 :: b2 :: b3 :: rest =>
      (((b0 * 256 + b1) * 256 + b2) * 256 + b3) :: words_of_bytes fuel' rest
  | _, _ => []
  end.

Fixpoint blocks (fuel : nat) (h : state) (ws : list Z) : state :=
  match fuel, ws with
  | S fuel', _ :: _ => blocks fuel' (compress h (take 16 ws)) (drop 16 ws)
  | _, _ => h
  end.

Definition digest (msg : list Z) : state :=
  let bs := pad msg in
  let ws := words_of_bytes (length bs) bs in
  blocks (length ws) initial ws.

Definition hex_digit (n : Z) : ascii :=
  match Z.land n 15 with
  | 0 => "0" | 1 => "1" | 2 => "2" | 3 => "3" | 4 => "4" | 5 => "5"
  | 6 => "6" | 7 => "7" | 8 => "8" | 9 => "9" | 10 => "a" | 11 => "b"
  | 12 => "c" | 13 => "d" | 14 => "e" | _ => "f"
  end%char.

Definition hex8 (x : Z) (rest : string) : string :=
  String (hex_digit (Z.shiftr x 28)) (String (hex_digit (Z.shiftr x 24))
  (String (hex_digit (Z.shiftr x 20)) (String (hex_digit (Z.shiftr x 16))
  (String (hex_digit (Z.shiftr x 12)) (String (hex_digit (Z.shiftr x 8))
  (String (hex_digit (Z.shiftr x 4)) (String (hex_digit x) rest))))))).

(** [.digest("hex")] *)
Definition hex_of_state (s : state) : string :=
  hex8 (sa s) (hex8 (sb s) (hex8 (sc s) (hex8 (sd s)
  (hex8 (se s) (hex8 (sf s) (hex8 (sg s) (hex8 (sh s) ""))))))).

Definition hexdigest (s : string) : string := hex_of_state (digest (bytes_of_string s)).

End Sha256.

(** [function sha256(str)]:
    [crypto.createHash("sha256").update(String(str)).digest("hex")] *)
Definition sha256 (str : jsval) : string := Sha256.hexdigest (to_string str).

(* ===================================================================== *)
(** * The graph store and the Cypher queries the worker sends *)
(* ===================================================================== *)

Module Graph.

(** Property maps, of nodes, of relationships and of query parameters. *)
Abbreviation props := (gmap string jsval).

(** A node is found by its label and its [id] property. *)
Definition node_key : Type := string * jsval.

(** A relationship is found by its type, its end points and the
    properties written inside its [MERGE] pattern. *)
Definition rel_key : Type := string * node_key * node_key * list (string * jsval).

Record graph : Type := mkGraph
  { nodes : gmap node_key props;
    rels : gmap rel_key props }.

Definition empty : graph := mkGraph ∅ ∅.

(** A [SET] list: property name, parameter name. *)
Abbreviation assignments := (list (string * string)).

(** The clauses the worker's three queries are made of.
    [MergeNode v l k c m] is
    [MERGE (v:l {id: $k}) ON CREATE SET c ON MATCH SET m];
    [MergeRel a t i b c m] is
    [MERGE (a)-[:t {i}]->(b) ON CREATE SET c ON MATCH SET m].
    The [RETURN] clause writes nothing and is left out. *)
Inductive clause : Type :=
  | MergeNode (var label key_param : string) (on_create on_match : assignments)
  | MergeRel (src type : string) (ident : assignments) (dst : string)
             (on_create on_match : assignments).

(** A step of a query either fails with an exception or goes on. *)
#[global] Instance exn_bind : MBind (sum exn) :=
  λ A B f m, match m with inl e => inl e | inr a => f a end.

Definition null (v : jsval) : bool :=
  match v with JUndef | JNull => true | _ => false end.

(** [$name]; a parameter the call did not pass is an error. *)
Definition param (ps : props) (name : string) : exn + jsval :=
  match ps !! name with
  | Some v => inr v
  | None => inl (mkExn "Neo4jError" ("Expected parameter(s): " ++ name))
  end.

(** [SET x.p = $q, ...], left to right; assigning [null] removes [p]. *)
Fixpoint set_all (ps : props) (l : assignments) (target : props) : exn + props :=
  match l with
  | [] => inr target
  | (p, q) :: l' =>
      v ← param ps q;
      set_all ps l' (if null v then delete p target else <[p := v]> target)
  end.

(** The property values inside a relationship pattern; [null] cannot be
    merged on. *)
Fixpoint pattern_values (ps : props) (l : assignments) : exn + list (string * jsval) :=
  match l with
  | [] => inr []
  | (p, q) :: l' =>
      v ← param ps q;
      if null v then
        inl (mkExn "Neo4jError" ("Cannot merge using null property value for " ++ p))
      else
        vs ← pattern_values ps l';
        inr ((p, v) :: vs)
  end.

(** Variables bound so far in the query. *)
Abbreviation bindings := (gmap string node_key).

Definition bound (bs : bindings) (v : string) : exn + node_key :=
  match bs !! v with
  | Some k => inr k
  | None => inl (mkExn "Neo4jError" ("Variable not defined: " ++ v))
  end.

(** The node a [MERGE (v:l {id: $k})] looks for; [null] cannot be merged
    on. *)
Definition merge_node_key (ps : props) (label key_param : string) : exn + node_key :=
  v ← param ps key_param;
  if null v then inl (mkExn "Neo4jError" "Cannot merge using null property value for id")
  else inr (label, v).

(** The relationship a [MERGE (a)-[:t {i}]->(b)] looks for. *)
Definition merge_rel_key (ps : props) (bs : bindings)
    (src type : string) (ident : assignments) (dst : string) : exn + rel_key :=
  a ← bound bs src;
  b ← bound bs dst;
  vs ← pattern_values ps ident;
  inr (type, a, b, vs).

(** One [MERGE]: a match gets the [ON MATCH] assignments; otherwise the
    pattern is created, with the properties written in it, and gets the
    [ON CREATE] assignments. *)
Definition exec_clause (ps : props) (c : clause) (st : bindings * graph)
  : exn + (bindings * graph) :=
  let '(bs, g) := st in
  match c with
  | MergeNode var label key_param on_create on_match =>
      k ← merge_node_key ps label key_param;
      p ← match nodes g !! k with
          | Some p => set_all ps on_match p
          | None => set_all ps on_create {[ "id" := k.2 ]}
          end;
      inr (<[var := k]> bs, mkGraph (<[k := p]> (nodes g)) (rels g))
  | MergeRel src type ident dst on_create on_match =>
      k ← merge_rel_key ps bs src type ident dst;
      p ← match rels g !! k with
          | Some p => set_all ps on_match p
          | None => set_all ps on_create (list_to_map k.2)
          end;
      inr (bs, mkGraph (nodes g) (<[k := p]> (rels g)))
  end.

(** The clauses of a query, in order; the first failure ends it. *)
Fixpoint exec (ps : props) (q : list clause) (st : bindings * graph)
  : exn + (bindings * graph) :=
  match q with
  | [] => inr st
  | c :: q' => st' ← exec_clause ps c st; exec ps q' st'
  end.

(** What the worker holds of the graph store: the graph, and the log of the
    [session.run] calls made so far (latest first). *)
Record session : Type := mkSession
  { store : graph;
    calls : list (list clause * props) }.

(** The outcome of an [await]ed call that may throw. *)
Inductive result : Type :=
  | Ok (s : session)
  | Throw (e : exn) (s : session).

Definition session_of (r : result) : session :=
  match r with Ok s | Throw _ s => s end.

(** [await session.run(cypher, params)]. The query runs in a transaction of
    its own: when it fails nothing of it is written. [fault] is what the
    store does to this call when it cannot execute it (it is unreachable,
    say) and [None] when it is healthy. *)
Definition run (fault : option exn) (q : list clause) (ps : props) (s : session) : result :=
  let s' := mkSession (store s) ((q, ps) :: calls s) in
  match fault with
  | Some e => Throw e s'
  | None =>
      match exec ps q (∅, store s) with
      | inl e => Throw e s'
      | inr (_, g) => Ok (mkSession g ((q, ps) :: calls s))
      end
  end.

End Graph.
Export Graph.

(* ===================================================================== *)
(** * Event transformers *)
(* ===================================================================== *)

Module Transform.

(** What an invocation reads from outside its arguments: the wall clock
    ([new Date().toISOString()], a non-empty string) and the health of the
    graph store during the call. *)
Record world : Type := mkWorld
  { clock : string;
    store_fault : option exn }.

(** The JSON document in a [payload] column: an object, or [null]. A
    document of another kind has none of the fields the worker reads and
    is represented by the object without fields. *)
Inductive document : Type :=
  | Null
  | Obj (fields : props).

(** An object is a document. *)
#[warnings="-uniform-inheritance"]
Coercion Obj : gmap >-> document.

#[global] Instance document_empty : Empty document := Obj ∅.

(** The fields of a document; [null] has none. *)
Definition fields_of (d : document) : props :=
  match d with
  | Obj fields => fields
  | Null => ∅
  end.

(** What [const { first, ... } = ev.payload] throws when the payload is
    [null]. *)
Definition destructuring_null (first : string) : exn :=
  mkExn "TypeError"
        ("Cannot destructure property '" ++ first ++ "' of 'ev.payload' as it is null.").

(** [const { f } = ev.payload]: an absent field reads as [undefined]. *)
Definition field (payload : props) (f : string) : jsval :=
  default JUndef (payload !! f).

Definition cypher_triple : list clause :=
  [ MergeNode "s" "Entity" "sid" [("name", "subject"); ("created_at", "now")] [];
    MergeNode "o" "Entity" "oid" [("name", "object"); ("created_at", "now")] [];
    MergeRel "s" "ASSERTS" [("predicate", "predicate")] "o"
             [("created_at", "now")] [("updated_at", "now")] ].

(** The parameter object [processTriple] passes to [session.run]. *)
Definition triple_params (w : world) (payload : props) : props :=
  let subject := field payload "subject" in
  let predicate := field payload "predicate" in
  let object := field payload "object" in
  let created_at := field payload "created_at" in
  let sid := sha256 subject in
  let oid := sha256 object in
  let now := or_else created_at (JStr (clock w)) in
  list_to_map
    [ ("sid", JStr sid); ("oid", JStr oid); ("subject", subject);
      ("object", object); ("predicate", predicate); ("now", now) ].

(** [async function processTriple(session, ev)] *)
Definition processTriple (w : world) (payload : document) (s : session) : result :=
  match payload with
  | Null => Throw (destructuring_null "subject") s
  | Obj payload =>
      let subject := field payload "subject" in
      let predicate := field payload "predicate" in
      let object := field payload "object" in
      if negb (truthy subject) || negb (truthy predicate) || negb (truthy object) then
        Throw (Error "Missing required triple fields") s
      else run (store_fault w) cypher_triple (triple_params w payload) s
  end.

Definition cypher_factlet : list clause :=
  [ MergeNode "f" "Factlet" "factletId"
      [("fact_id", "croutonId"); ("claim", "text"); ("created_at", "now")] [];
    MergeNode "w" "WebPage" "pageId" [("url", "sourceUrl"); ("created_at", "now")] [];
    MergeRel "f" "FROM_PAGE" [] "w" [] [] ].

(** The parameter object [processFactlet] passes to [session.run]. *)
Definition factlet_params (w : world) (payload : props) : props :=
  let crouton_id := field payload "crouton_id" in
  let source_url := field payload "source_url" in
  let text := field payload "text" in
  let created_at := field payload "created_at" in
  let factletId := sha256 crouton_id in
  let pageId := sha256 source_url in
  let now := or_else created_at (JStr (clock w)) in
  list_to_map
    [ ("factletId", JStr factletId); ("croutonId", crouton_id);
      ("text", or_else text (JStr "")); ("pageId", JStr pageId);
      ("sourceUrl", source_url); ("now", now) ].

(** [async function processFactlet(session, ev)] *)
Definition processFactlet (w : world) (payload : document) (s : session) : result :=
  match payload with
  | Null => Throw (destructuring_null "crouton_id") s
  | Obj payload =>
      let crouton_id := field payload "crouton_id" in
      let source_url := field payload "source_url" in
      if negb (truthy crouton_id) || negb (truthy source_url) then
        Throw (Error "Missing required factlet fields") s
      else run (store_fault w) cypher_factlet (factlet_params w payload) s
  end.

Definition cypher_participation : list clause :=
  [ MergeNode "sd" "SourceDomain" "domainId"
      [("name", "sourceDomain"); ("created_at", "now")] [];
    MergeNode "c" "Crouton" "croutonId" [("created_at", "now")] [];
    MergeNode "sp" "SourceParticipation" "participationId"
      [ ("ai_readable_source", "aiReadableSource");
        ("markdown_discovered", "markdownDiscovered");
        ("discovery_method", "discoveryMethod");
        ("first_observed", "firstObserved");
        ("last_verified", "lastVerified");
        ("created_at", "now") ]
      [ ("last_verified", "lastVerified"); ("updated_at", "now") ];
    MergeRel "sd" "HAS_PARTICIPATION" [] "sp" [] [];
    MergeRel "sp" "TRACKS_CROUTON" [] "c" [] [] ].

(** The parameter object [processSourceParticipation] passes to
    [session.run]. *)
Definition participation_params (w : world) (payload : props) : props :=
  let crouton_id := field payload "crouton_id" in
  let source_domain := field payload "source_domain" in
  let source_url := field payload "source_url" in
  let ai_readable_source := field payload "ai_readable_source" in
  let markdown_discovered := field payload "markdown_discovered" in
  let discovery_method := field payload "discovery_method" in
  let first_observed := field payload "first_observed" in
  let last_verified := field payload "last_verified" in
  let participationId :=
    sha256 (JStr (to_string crouton_id ++ ":" ++ to_string source_url)) in
  let domainId := sha256 source_domain in
  let now := or_else first_observed (JStr (clock w)) in
  list_to_map
    [ ("participationId", JStr participationId); ("domainId", JStr domainId);
      ("croutonId", crouton_id); ("sourceDomain", source_domain);
      ("aiReadableSource", or_else ai_readable_source (JBool false));
      ("markdownDiscovered", or_else markdown_discovered (JBool false));
      ("discoveryMethod", or_else discovery_method (JStr "unknown"));
      ("firstObserved", or_else first_observed now);
      ("lastVerified", or_else last_verified now);
      ("now", now) ].

(** [async function processSourceParticipation(session, ev)] *)
Definition processSourceParticipation (w : world) (payload : document) (s : session)
  : result :=
  match payload with
  | Null => Throw (destructuring_null "crouton_id") s
  | Obj payload =>
      let crouton_id := field payload "crouton_id" in
      let source_domain := field payload "source_domain" in
      let source_url := field payload "source_url" in
      if negb (truthy crouton_id) || negb (truthy source_domain) || negb (truthy source_url)
      then Throw (Error "Missing required source participation fields") s
      else run (store_fault w) cypher_participation (participation_params w payload) s
  end.

(** The dispatch on [ev.event_type] in the worker's loop; an unknown type is
    only logged. *)
Definition dispatch (event_type : string) (w : world) (payload : document) (s : session)
  : result :=
  if String.eqb event_type "triple.insert" then processTriple w payload s
  else if String.eqb event_type "factlet.insert" then processFactlet w payload s
  else if String.eqb event_type "source_participation.insert"
       then processSourceParticipation w payload s
  else Ok s.

End Transform.
Export Transform.

(* ===================================================================== *)
(** * The outbox table and the claim query *)
(* ===================================================================== *)

Module Outbox.

(** The [status] column: pending|processing|done|failed. *)
Inductive status_t : Type := Pending | Processing | Done | Failed.

#[global] Instance status_eq_dec : EqDecision status_t.
Proof. solve_decision. Defined.

(** The values of an [INT] column, and the largest [bigint]. *)
Definition int_min : Z := -2147483648.
Definition int_max : Z := 2147483647.
Definition bigint_max : Z := 9223372036854775807.

(** What Postgres answers to a parameter that does not fit its type (the
    message also quotes the value; the worker only logs it), and to
    arithmetic that leaves the range of an [INT]. *)
Definition out_of_range (type : string) : exn :=
  mkExn "error" ("value is out of range for type " ++ type).

Definition integer_out_of_range : exn := mkExn "error" "integer out of range".

(** A row of [outbox_graph_events]. [occurred_at] is a point in time, as a
    number; [attempts] is an [INT]; [error] is nullable. *)
Record row : Type := mkRow
  { id : Z;
    event_type : string;
    payload : document;
    occurred_at : Z;
    attempts : Z;
    status : status_t;
    error : option string }.

(** The table, in storage order. *)
Abbreviation table := (list row).

Definition set_status (st : status_t) (r : row) : row :=
  mkRow (id r) (event_type r) (payload r) (occurred_at r) (attempts r) st (error r).

Definition is_pending (r : row) : bool := bool_decide (status r = Pending).

(** [ORDER BY occurred_at ASC]: insertion into a list already in order,
    before the first row that is not earlier (rows of equal [occurred_at]
    keep the order of the table; SQL leaves their order open). *)
Fixpoint insert_by_occurred (r : row) (l : list row) : list row :=
  match l with
  | [] => [r]
  | x :: l' =>
      if occurred_at r <=? occurred_at x then r :: x :: l'
      else x :: insert_by_occurred r l'
  end.

Definition order_by_occurred (l : list row) : list row :=
  foldr insert_by_occurred [] l.

(** The inner query,
    [SELECT id FROM outbox_graph_events WHERE status='pending'
     ORDER BY occurred_at ASC LIMIT $1 FOR UPDATE SKIP LOCKED];
    no row is locked by another transaction. *)
Definition claim_subquery (limit : Z) (tbl : table) : list Z :=
  id <$> take (Z.to_nat limit) (order_by_occurred (filter (λ r, is_pending r = true) tbl)).

(** [UPDATE outbox_graph_events SET status='processing' WHERE id IN (...)
    RETURNING *]: every row of the table whose [id] the inner query
    selected is updated, and returned as updated. The inner [ORDER BY]
    decides which ids [LIMIT] keeps; [IN] only tests membership, and
    [RETURNING] has no [ORDER BY] of its own: the rows come back as the
    update reaches them, here in the order of the table. *)
Definition update_returning (ids : list Z) (tbl : table) : list row * table :=
  let tbl' := (λ r, if bool_decide (id r ∈ ids) then set_status Processing r else r) <$> tbl in
  (filter (λ r, id r ∈ ids) tbl', tbl').

(** [async function claimBatch(client, limit)]: the rows returned, and the
    table afterwards. [LIMIT] takes a [bigint] that is not negative: for
    another value the query throws and changes nothing. *)
Definition claimBatch (limit : Z) (tbl : table) : exn + (list row * table) :=
  if limit <? 0 then inl (mkExn "error" "LIMIT must not be negative")
  else if bigint_max <? limit then inl (out_of_range "bigint")
  else inr (update_returning (claim_subquery limit tbl) tbl).

(** [UPDATE ... SET status='done', attempts=attempts+1 WHERE id=$1]: the
    statement throws, and changes nothing, when [attempts + 1] does not fit
    the column for a row it reaches. *)
Definition mark_done (i : Z) (tbl : table) : exn + table :=
  if existsb (λ r, bool_decide (id r = i) && (int_max <? attempts r + 1)) tbl
  then inl integer_out_of_range
  else inr ((λ r, if bool_decide (id r = i)
                  then mkRow (id r) (event_type r) (payload r) (occurred_at r)
                             (attempts r + 1) Done (error r)
                  else r) <$> tbl).

(** [UPDATE ... SET attempts=$1, status=$2, error=$3 WHERE id=$4]: the
    statement throws, and changes nothing, when [$1] is not an [INT]. *)
Definition mark_outcome (newAttempts : Z) (newStatus : status_t) (errorMsg : string)
    (i : Z) (tbl : table) : exn + table :=
  if (newAttempts <? int_min) || (int_max <? newAttempts)
  then inl (out_of_range "integer")
  else inr ((λ r, if bool_decide (id r = i)
                  then mkRow (id r) (event_type r) (payload r) (occurred_at r)
                             newAttempts newStatus (Some errorMsg)
                  else r) <$> tbl).

(** The row with primary key [i]. *)
Definition find (i : Z) (tbl : table) : option row :=
  head (filter (λ r, id r = i) tbl).

End Outbox.
Export Outbox.

(* ===================================================================== *)
(** * Configuration and the worker loop *)
(* ===================================================================== *)

Module Worker.

(** [process.env] *)
Abbreviation environ := (gmap string string).

Definition getenv (env : environ) (name : string) : jsval :=
  match env !! name with
  | Some v => JStr v
  | None => JUndef
  end.

Definition is_space (a : ascii) : bool :=
  let n := nat_of_ascii a in
  (n =? 32)%nat || ((9 <=? n)%nat && (n <=? 13)%nat).

Definition digit_of (a : ascii) : option Z :=
  let n := nat_of_ascii a in
  if (48 <=? n)%nat && (n <=? 57)%nat then Some (Z.of_nat n - 48) else None.

(** One white space character at the head of the string, and what follows
    it. Beside the ASCII ones [parseInt] skips U+00A0, U+1680, U+2000 to
    U+200A, U+2028, U+2029, U+202F, U+205F, U+3000 and U+FEFF, here in
    UTF-8. *)
Definition white_space (s : string) : option string :=
  match s with
  | EmptyString => None
  | String a s1 =>
      let n := nat_of_ascii a in
      if is_space a then Some s1
      else if (n <? 128)%nat then None
      else
        match s1 with
        | EmptyString => None
        | String b s2 =>
            let m := nat_of_ascii b in
            if (n =? 194)%nat && (m =? 160)%nat then Some s2
            else
              match s2 with
              | EmptyString => None
              | String c s3 =>
                  let k := nat_of_ascii c in
                  if ((n =? 225)%nat && (m =? 154)%nat && (k =? 128)%nat)
                     || ((n =? 226)%nat && (m =? 128)%nat
                         && (((128 <=? k)%nat && (k <=? 138)%nat)
                             || (k =? 168)%nat || (k =? 169)%nat || (k =? 175)%nat))
                     || ((n =? 226)%nat && (m =? 129)%nat && (k =? 159)%nat)
                     || ((n =? 227)%nat && (m =? 128)%nat && (k =? 128)%nat)
                     || ((n =? 239)%nat && (m =? 187)%nat && (k =? 191)%nat)
                  then Some s3 else None
              end
        end
  end.

Fixpoint skip_spaces_fuel (fuel : nat) (s : string) : string :=
  match fuel with
  | O => s
  | S fuel' =>
      match white_space s with
      | Some s' => skip_spaces_fuel fuel' s'
      | None => s
      end
  end.

Definition skip_spaces (s : string) : string := skip_spaces_fuel (String.length s) s.

(** The double nearest to an integer that is not negative, ties to the even
    mantissa; [None] when that is [Infinity]. A double has 53 bits of
    mantissa and is finite below [2^1024]. *)
Definition nearest_double (n : Z) : option Z :=
  let e := Z.log2 n - 52 in
  if e <=? 0 then Some n
  else
    let q := Z.shiftr n e in
    let r := n - Z.shiftl q e in
    let half := Z.shiftl 1 (e - 1) in
    let q' := if (half <? r) || ((r =? half) && Z.odd q) then q + 1 else q in
    let v := Z.shiftl q' e in
    if 2 ^ 1024 <=? v then None else Some v.

(** The longest prefix of decimal digits, as a number; [None] without one. *)
Fixpoint leading_digits (s : string) (acc : option Z) : option Z :=
  match s with
  | String a s' =>
      match digit_of a with
      | Some d => leading_digits s' (Some (10 * default 0 acc + d))
      | None => acc
      end
  | EmptyString => acc
  end.

(** [parseInt(s, 10)]: the number the leading digits write, as a double.
    [None] is a result that is not a finite number: [NaN] without digits,
    [Infinity] beyond the doubles. *)
Definition parseInt (s : string) : option Z :=
  match skip_spaces s with
  | String "-" s' => Z.opp <$> (leading_digits s' None ≫= nearest_double)
  | String "+" s' => leading_digits s' None ≫= nearest_double
  | s' => leading_digits s' None ≫= nearest_double
  end.

(** [const BATCH_SIZE = parseInt(process.env.BATCH_SIZE || "500", 10)] *)
Definition BATCH_SIZE (env : environ) : option Z :=
  parseInt (to_string (or_else (getenv env "BATCH_SIZE") (JStr "500"))).

(** [const POLL_INTERVAL_MS = parseInt(process.env.POLL_INTERVAL_MS || "2000", 10)] *)
Definition POLL_INTERVAL_MS (env : environ) : option Z :=
  parseInt (to_string (or_else (getenv env "POLL_INTERVAL_MS") (JStr "2000"))).

(** [String(e?.message || e)] *)
Definition error_message (e : exn) : string :=
  if String.eqb (exn_message e) "" then exn_to_string e else exn_message e.

(** The status the [catch] branch writes: [newAttempts >= 5 ? "failed" : "pending"]. *)
Definition retry_status (newAttempts : Z) : status_t :=
  if newAttempts >=? 5 then Failed else Pending.

(** The two stores as the worker sees them. *)
Record stores : Type := mkStores
  { outbox : table;
    graph_session : session }.

(** The [catch] branch of the loop's body: the outcome [UPDATE] of a
    failure with [e], of the record [ev] as [claimBatch] returned it. *)
Definition write_failure (ev : row) (e : exn) (tbl : table) : exn + table :=
  let errorMsg := error_message e in
  let newAttempts := attempts ev + 1 in
  let newStatus := retry_status newAttempts in
  mark_outcome newAttempts newStatus errorMsg (id ev) tbl.

(** The outcome write-back of a record whose transformer ended with [r]:
    the [UPDATE] to done is inside the [try], so that when it throws the
    [catch] branch runs as it does for a transformer that throws; what the
    [UPDATE] of the [catch] branch throws leaves the loop's body. *)
Definition write_back (ev : row) (r : result) (tbl : table) : exn + table :=
  match r with
  | Ok _ =>
      match mark_done (id ev) tbl with
      | inr tbl' => inr tbl'
      | inl e => write_failure ev e tbl
      end
  | Throw e _ => write_failure ev e tbl
  end.

(** How the body of the loop ends for a record: with the record settled,
    or with an exception that leaves the [for] loop. *)
Inductive progress : Type :=
  | Settled (st : stores)
  | Escaped (e : exn) (st : stores).

Definition stores_of (p : progress) : stores :=
  match p with Settled st | Escaped _ st => st end.

(** The body of [for (const ev of batch)]: dispatch, then the outcome
    write-back. [ev] is the row as [claimBatch] returned it. *)
Definition process_event (w : world) (ev : row) (st : stores) : progress :=
  let r := dispatch (event_type ev) w (payload ev) (graph_session st) in
  match write_back ev r (outbox st) with
  | inr tbl' => Settled (mkStores tbl' (session_of r))
  | inl e => Escaped e (mkStores (outbox st) (session_of r))
  end.

(** The [for] loop over a claimed batch, in the order of the batch; [ws]
    gives each record the world its processing sees. An exception that
    leaves the body leaves the loop: the records after it are not
    processed. *)
Fixpoint process_batch (ws : row → world) (batch : list row) (st : stores) : progress :=
  match batch with
  | [] => Settled st
  | ev :: batch' =>
      match process_event (ws ev) ev st with
      | Settled st' => process_batch ws batch' st'
      | Escaped e st' => Escaped e st'
      end
  end.

(** One turn of [while (true)]: claim, then process. A failing or empty
    claim leaves both stores as they are, and an exception that leaves the
    [for] loop is caught by the turn: either way the loop sleeps and goes
    on. *)
Definition cycle (env : environ) (ws : row → world) (st : stores) : stores :=
  match BATCH_SIZE env with
  | None => st
  | Some limit =>
      match claimBatch limit (outbox st) with
      | inl _ => st
      | inr (batch, tbl') =>
          stores_of (process_batch ws batch (mkStores tbl' (graph_session st)))
      end
  end.

End Worker.
Export Worker.

(* ===================================================================== *)
(** * Termination signals *)
(* ===================================================================== *)

Module Shutdown.

(** Where the worker's loop is suspended. Between [claimBatch] returning a
    record and that record's outcome [UPDATE], the record is in flight. *)
Inductive phase : Type :=
  | Claiming
  | Transforming (ev : row) (rest : list row)
  | WritingBack (ev : row) (r : result) (rest : list row).

(** How far the [SIGINT]/[SIGTERM] handler has run: not at all; up to
    [await driver.close()]; up to [await pool.end()]; to [process.exit(0)]. *)
Inductive handler_pc : Type :=
  | NotSignalled
  | DriverClosed
  | PoolEnding
  | Exited.

(** The process: both stores, the position of the worker's loop, the
    position of the signal handler, and which connections it has closed
    ([pool_open] is false from the call of [pool.end()]: the pool hands out
    no client any more). *)
Record process : Type := mkProcess
  { data : stores;
    pc : phase;
    handler : handler_pc;
    driver_open : bool;
    pool_open : bool }.

Definition in_flight (p : process) : option row :=
  match pc p with
  | Claiming => None
  | Transforming ev _ | WritingBack ev _ _ => Some ev
  end.

Definition next (rest : list row) : phase :=
  match rest with
  | [] => Claiming
  | ev :: rest' => Transforming ev rest'
  end.

(** The worker has given back the client it took from the pool. It does so
    in the [finally] after [while (true)], and nothing leaves that loop:
    its body is a [try] whose [catch] logs and sleeps. *)
Definition client_released (p : process) : bool := false.

(** [process.on("SIGINT", async () => { await driver.close();
    await pool.end(); process.exit(0); })], one statement at a time. The
    handler reads nothing of the worker's loop. [pool.end()] resolves once
    every client has been released; until then the handler waits, and the
    client the worker holds goes on working. *)
Definition handler_step (p : process) : process :=
  match handler p with
  | NotSignalled => mkProcess (data p) (pc p) DriverClosed false (pool_open p)
  | DriverClosed => mkProcess (data p) (pc p) PoolEnding (driver_open p) false
  | PoolEnding =>
      if client_released p
      then mkProcess (data p) (pc p) Exited (driver_open p) (pool_open p)
      else p
  | Exited => p
  end.

(** One resumption of the worker's loop: the claim; the graph write of a
    record; the outcome write-back of a record, after which the loop goes
    on with the next record, or, when the write-back throws, starts over
    with a claim. *)
Definition worker_step (env : environ) (ws : row → world) (p : process) : process :=
  match pc p with
  | Claiming =>
      match BATCH_SIZE env with
      | None => p
      | Some limit =>
          match claimBatch limit (outbox (data p)) with
          | inl _ => p
          | inr (batch, tbl') =>
              mkProcess (mkStores tbl' (graph_session (data p))) (next batch)
                        (handler p) (driver_open p) (pool_open p)
          end
      end
  | Transforming ev rest =>
      let r := dispatch (event_type ev) (ws ev) (payload ev) (graph_session (data p)) in
      mkProcess (mkStores (outbox (data p)) (session_of r)) (WritingBack ev r rest)
                (handler p) (driver_open p) (pool_open p)
  | WritingBack ev r rest =>
      match write_back ev r (outbox (data p)) with
      | inr tbl' =>
          mkProcess (mkStores tbl' (graph_session (data p))) (next rest)
                    (handler p) (driver_open p) (pool_open p)
      | inl _ =>
          mkProcess (data p) Claiming (handler p) (driver_open p) (pool_open p)
      end
  end.

(** The event loop interleaves the two at their [await]s; a signal can be
    delivered whenever the worker is suspended, and nothing runs after
    [process.exit]. What the graph driver answers once it is closed is the
    library's matter: [ws] says what the store answers to each record. *)
Inductive step (env : environ) (ws : row → world) : process → process → Prop :=
  | step_worker p :
      handler p ≠ Exited → step env ws p (worker_step env ws p)
  | step_handler p :
      handler p ≠ Exited → step env ws p (handler_step p).

Inductive reachable (env : environ) (ws : row → world) (p0 : process) : process → Prop :=
  | reach_start : reachable env ws p0 p0
  | reach_step p q : reachable env ws p0 p → step env ws p q → reachable env ws p0 q.

Definition start (st : stores) : process := mkProcess st Claiming NotSignalled true true.

End Shutdown.
Export Shutdown.

(* ===================================================================== *)
(** * The backfill script *)
(* ===================================================================== *)

Module Backfill.

(** A row of [triples], with the columns the script reads. [t_id] is
    [t.id::text]; a column that goes into the payload holds the JSON value
    [jsonb_build_object] gives it, [JNull] for an SQL [NULL]. [created_at]
    is not [NULL] ([occurred_at] is [NOT NULL]). *)
Record triple_row : Type := mkTripleRow
  { t_id : string;
    t_subject : jsval;
    t_predicate : jsval;
    t_object : jsval;
    t_evidence_crouton_id : jsval;
    t_created_at : Z }.

(** A row of [croutons]. *)
Record crouton_row : Type := mkCroutonRow
  { c_id : string;
    c_crouton_id : jsval;
    c_source_url : jsval;
    c_text : jsval;
    c_corpus_id : jsval;
    c_created_at : Z }.

(** What the script reads and writes: the outbox with the sequence behind
    its [BIGSERIAL] id, and the two source tables. *)
Record database : Type := mkDatabase
  { events : table;
    next_id : Z;
    triples : list triple_row;
    croutons : list crouton_row }.

(** [payload->>'id']: the text of a JSON scalar, [NULL] for JSON null and
    for a key that is not there. *)
Definition json_text (v : jsval) : option string :=
  match v with
  | JUndef | JNull => None
  | _ => Some (to_string v)
  end.

(** The lateral subquery finds a row:
    [SELECT 1 FROM outbox_graph_events e WHERE e.event_type=kind
     AND e.payload->>'id' = id_text LIMIT 1]. *)
Definition has_event (kind id_text : string) (tbl : table) : bool :=
  existsb (λ e, String.eqb (event_type e) kind
                && bool_decide (json_text (field (fields_of (payload e)) "id")
                                = Some id_text)) tbl.

(** [INSERT INTO outbox_graph_events(event_type, payload, occurred_at)]:
    [id] comes from the sequence; [attempts], [status] and [error] get the
    defaults of the table, [0], ['pending'] and [NULL]. *)
Fixpoint insert_events (kind : string) (new : list (props * Z)) (next : Z) : list row :=
  match new with
  | [] => []
  | (p, at_) :: new' => mkRow next kind p at_ 0 Pending None :: insert_events kind new' (next + 1)
  end.

Section Script.

(** How [jsonb_build_object] renders a [timestamptz]. *)
Variable timestamptz_json : Z → string.

(** The [SELECT] list of the first statement. *)
Definition triple_event (t : triple_row) : props * Z :=
  (list_to_map
     [ ("id", JStr (t_id t)); ("subject", t_subject t); ("predicate", t_predicate t);
       ("object", t_object t); ("evidence_crouton_id", t_evidence_crouton_id t);
       ("created_at", JStr (timestamptz_json (t_created_at t))) ],
   t_created_at t).

(** The [SELECT] list of the second statement. *)
Definition factlet_event (c : crouton_row) : props * Z :=
  (list_to_map
     [ ("id", JStr (c_id c)); ("crouton_id", c_crouton_id c);
       ("source_url", c_source_url c); ("text", c_text c);
       ("corpus_id", c_corpus_id c);
       ("created_at", JStr (timestamptz_json (c_created_at c))) ],
   c_created_at c).

(** The first statement: an event for every triple that has none. The
    anti-join reads the outbox as it is before the statement. The result
    is [rowCount] and the database afterwards. *)
Definition backfill_triples (db : database) : nat * database :=
  let missing :=
    filter (λ t, has_event "triple.insert" (t_id t) (events db) = false) (triples db) in
  let rows := insert_events "triple.insert" (triple_event <$> missing) (next_id db) in
  (length rows,
   mkDatabase (events db ++ rows) (next_id db + Z.of_nat (length rows))
              (triples db) (croutons db)).

(** The second statement: the same for croutons. *)
Definition backfill_factlets (db : database) : nat * database :=
  let missing :=
    filter (λ c, has_event "factlet.insert" (c_id c) (events db) = false) (croutons db) in
  let rows := insert_events "factlet.insert" (factlet_event <$> missing) (next_id db) in
  (length rows,
   mkDatabase (events db ++ rows) (next_id db + Z.of_nat (length rows))
              (triples db) (croutons db)).

(** The script: both statements; the counts it logs, and the database. *)
Definition backfill (db : database) : nat * nat * database :=
  let '(n1, db1) := backfill_triples db in
  let '(n2, db2) := backfill_factlets db1 in
  (n1, n2, db2).

End Script.

End Backfill.
Export Backfill.

(* ===================================================================== *)
(** * The vocabulary of the properties *)
(* ===================================================================== *)

Module Vocabulary.

Implicit Types (ps payload : props) (q : list clause) (c : clause) (bs : bindings)
  (g : graph) (tbl : table) (r ev : row) (st : stores) (w : world) (s : session)
  (et : string).

(** ** Fingerprints *)

(** A lower-case hexadecimal digit. *)
Definition is_hex (a : ascii) : Prop :=
  In a (list_ascii_of_string "0123456789abcdef").

(** Inputs with the SHA-256 digest of their text, as the standard and
    [sha256sum] give it: the test vectors of the standard (the empty
    message, one block, two blocks), messages of 55, 56, 64 and 119 bytes,
    where the padding fills a block or takes one more, a composite key, a
    text that is not ASCII, and a value of every other kind, which is
    hashed as the text [String] makes of it. *)
Definition known_answers : list (jsval * string) :=
  [ (JStr "", "e3b0c44298fc1c149afbf4c8996fb92427ae41e4649b934ca495991b7852b855");
    (JStr "abc", "ba7816bf8f01cfea414140de5dae2223b00361a396177a9cb410ff61f20015ad");
    (JStr "abd", "a52d159f262b2c6ddb724a61840befc36eb30c88877a4030b65cbe86298449c9");
    (JStr "abcdbcdecdefdefgefghfghighijhijkijkljklmklmnlmnomnopnopq",
     "248d6a61d20638b8e5c026930c3e6039a33ce45964ff2167f6ecedd419db06c1");
    (JStr "aaaaaaaaaaaaaaaaaaaaaaaaaaaaaaaaaaaaaaaaaaaaaaaaaaaaaaa",
     "9f4390f8d30c2dd92ec9f095b65e2b9ae9b0a925a5258e241c9f1e910f734318");
    (JStr "aaaaaaaaaaaaaaaaaaaaaaaaaaaaaaaaaaaaaaaaaaaaaaaaaaaaaaaa",
     "b35439a4ac6f0948b6d6f9e3c6af0f5f590ce20f1bde7090ef7970686ec6738a");
    (JStr "aaaaaaaaaaaaaaaaaaaaaaaaaaaaaaaaaaaaaaaaaaaaaaaaaaaaaaaaaaaaaaaa",
     "ffe054fe7ae0cb6dc65c3af9b61d5209f439851db43d0ba5997337df154668eb");
    (JStr ("bbbbbbbbbbbbbbbbbbbbbbbbbbbbbbbbbbbbbbbbbbbbbbbbbbbbbbbbbbbb"
           ++ "bbbbbbbbbbbbbbbbbbbbbbbbbbbbbbbbbbbbbbbbbbbbbbbbbbbbbbbbbbb"),
     "68297a9eb141ce16bbc0847da1c0c48e2858704feaa13993bde29f87a198a6e1");
    (JStr "c1:https://example.com/a",
     "eedcee89b55ed2b35ed6c9a6c3ba50c1e470164a6c14d46ab8473631691a965c");
    (JStr "héllo wörld",
     "a1003f7d04a4115711d0b48a2eaf1359ce565d2d2a6fd65098dfcffadeeef59f");
    (JNum 12, "6b51d431df5d7f141cbececcf79edf3dd861c3b4069f0b11661a3eefacbba918");
    (JNum (-7), "a770d3270c9dcdedf12ed9fd70444f7c8a95c26cae3cae9bd867499090a2f14b");
    (JBool true, "b5bea41b6c623f7c09f1bf24dcae58ebab3c0cdd90ad966bc43a45b44867e12b");
    (JNull, "74234e98afe7498fb5daf1f36ac2d78acc339464f950703b8c019892f982b90b");
    (JUndef, "eb045d78d273107348b0300c01d29b7552d622abbc6faf81b3ec55359aa9950c") ].

(** ** The outbox *)

(** [r1] is not later than [r2]. *)
Definition by_occurred (r1 r2 : row) : Prop := occurred_at r1 ≤ occurred_at r2.

(** The primary key constraint on [id]. *)
Definition unique_ids (tbl : table) : Prop := NoDup (id <$> tbl).

(** The [occurred_at] of the rows a claim returns, in the order returned. *)
Definition claimed_order (limit : Z) (tbl : table) : list Z :=
  match claimBatch limit tbl with
  | inr (batch, _) => occurred_at <$> batch
  | inl _ => []
  end.

(** ** Outcomes of processing *)

(** The table after an [UPDATE ... WHERE id = i] that makes [f r] of the
    row [r]. *)
Definition updated (f : row → row) (i : Z) (tbl : table) : table :=
  (λ r, if bool_decide (id r = i) then f r else r) <$> tbl.

(** The row an outcome [UPDATE] leaves for a success. *)
Definition done_row (r : row) : row :=
  mkRow (id r) (event_type r) (payload r) (occurred_at r) (attempts r + 1) Done (error r).

(** The row an outcome [UPDATE] leaves for a failure with [e], of a record
    claimed with [n] attempts. *)
Definition failed_row (n : Z) (e : exn) (r : row) : row :=
  mkRow (id r) (event_type r) (payload r) (occurred_at r)
        (n + 1) (retry_status (n + 1)) (Some (error_message e)).

(** A required field that is missing from the document, or empty; a
    document that is [null] has no field. *)
Definition absent_or_empty (payload : document) (f : string) : Prop :=
  fields_of payload !! f = None ∨ fields_of payload !! f = Some (JStr "").

(** The message of the error a transformer's validation throws. *)
Definition validation_message (event_type : string) : string :=
  if String.eqb event_type "triple.insert" then "Missing required triple fields"
  else if String.eqb event_type "factlet.insert" then "Missing required factlet fields"
  else "Missing required source participation fields".

(** The first field each transformer takes from the payload. *)
Definition first_field (event_type : string) : string :=
  if String.eqb event_type "triple.insert" then "subject" else "crouton_id".

(** What a transformer throws for a payload it cannot use: a [TypeError]
    when it is [null], the error of its validation otherwise. *)
Definition rejection (event_type : string) (payload : document) : exn :=
  match payload with
  | Null => destructuring_null (first_field event_type)
  | Obj _ => Error (validation_message event_type)
  end.

(** Several turns of the worker's loop, each with its own worlds. *)
Definition cycles (env : environ) (wss : list (row → world)) (st : stores) : stores :=
  foldl (λ acc ws, cycle env ws acc) st wss.

(** ** Graph queries *)

(** [p] without the properties in [names]. *)
Definition strip (names : list string) (p : props) : props :=
  foldr delete p names.

(** The graph without the properties [nv] names for the nodes of a label and
    [rv] for the relationships of a type. *)
Definition forget (nv rv : string → list string) (g : graph) : graph :=
  mkGraph (map_imap (λ (k : node_key) p, Some (strip (nv k.1) p)) (nodes g))
          (map_imap (λ (k : rel_key) p, Some (strip (rv k.1.1.1) p)) (rels g)).

(** Every node and relationship of [g] is in [g']. *)
Definition grows (g g' : graph) : Prop :=
  (∀ k, is_Some (nodes g !! k) → is_Some (nodes g' !! k))
  ∧ (∀ k, is_Some (rels g !! k) → is_Some (rels g' !! k)).

(** Every [MERGE] of [q] finds its pattern in [g]. *)
Fixpoint matched ps q bs g : Prop :=
  match q with
  | [] => True
  | MergeNode var label kp _ _ :: q' =>
      ∃ k, merge_node_key ps label kp = inr k
           ∧ is_Some (nodes g !! k) ∧ matched ps q' (<[var := k]> bs) g
  | MergeRel src type ident dst _ _ :: q' =>
      ∃ k, merge_rel_key ps bs src type ident dst = inr k
           ∧ is_Some (rels g !! k) ∧ matched ps q' bs g
  end.

(** The parameters [l] reads are passed. *)
Definition passed ps (l : assignments) : Prop :=
  Forall (λ a, is_Some (ps !! a.2)) l.

(** The parameters [l] reads are passed and not null. *)
Definition passed_not_null ps (l : assignments) : Prop :=
  Forall (λ a, ∃ v, ps !! a.2 = Some v ∧ null v = false) l.

(** [q] can run: its parameters are passed, those of its patterns are not
    null, and its relationships join variables bound before. *)
Fixpoint runnable ps q (vars : list string) : Prop :=
  match q with
  | [] => True
  | MergeNode var label kp oc om :: q' =>
      passed_not_null ps [("id", kp)] ∧ passed ps oc ∧ passed ps om
      ∧ runnable ps q' (var :: vars)
  | MergeRel src type ident dst oc om :: q' =>
      src ∈ vars ∧ dst ∈ vars
      ∧ passed_not_null ps ident ∧ passed ps oc ∧ passed ps om
      ∧ runnable ps q' vars
  end.

(** [ON MATCH] writes only properties that [nv] and [rv] name. *)
Definition respects (nv rv : string → list string) (c : clause) : Prop :=
  match c with
  | MergeNode _ label _ _ om => Forall (λ a, a.1 ∈ nv label) om
  | MergeRel _ type _ _ _ om => Forall (λ a, a.1 ∈ rv type) om
  end.

(** The parameters the patterns of [q] read. *)
Definition key_params (c : clause) : list string :=
  match c with
  | MergeNode _ _ kp _ _ => [kp]
  | MergeRel _ _ ident _ _ _ => ident.*2
  end.

(** The nodes and the relationships that [q] writes to when all its
    patterns are found: the patterns with [ON MATCH] assignments. *)
Fixpoint rewritten ps q bs : list node_key * list rel_key :=
  match q with
  | [] => ([], [])
  | MergeNode var label kp _ om :: q' =>
      match merge_node_key ps label kp with
      | inr k =>
          let '(ns, rs) := rewritten ps q' (<[var := k]> bs) in
          (match om with [] => ns | _ => k :: ns end, rs)
      | inl _ => ([], [])
      end
  | MergeRel src type ident dst _ om :: q' =>
      match merge_rel_key ps bs src type ident dst with
      | inr k =>
          let '(ns, rs) := rewritten ps q' bs in
          (ns, match om with [] => rs | _ => k :: rs end)
      | inl _ => ([], [])
      end
  end.

(** ** Transformers *)

(** The kinds the worker's dispatch knows. *)
Definition recognized (event_type : string) : bool :=
  String.eqb event_type "triple.insert"
  || String.eqb event_type "factlet.insert"
  || String.eqb event_type "source_participation.insert".

(** The fields the first test of each transformer reads: the required
    fields of the kind. *)
Definition required_fields (event_type : string) : list string :=
  if String.eqb event_type "triple.insert" then ["subject"; "predicate"; "object"]
  else if String.eqb event_type "factlet.insert" then ["crouton_id"; "source_url"]
  else if String.eqb event_type "source_participation.insert"
       then ["crouton_id"; "source_domain"; "source_url"]
  else [].

(** The query of a kind, and the parameters it is run with. *)
Definition query_of (event_type : string) : list clause :=
  if String.eqb event_type "triple.insert" then cypher_triple
  else if String.eqb event_type "factlet.insert" then cypher_factlet
  else if String.eqb event_type "source_participation.insert" then cypher_participation
  else [].

Definition params_of (event_type : string) (w : world) (payload : props) : props :=
  if String.eqb event_type "triple.insert" then triple_params w payload
  else if String.eqb event_type "factlet.insert" then factlet_params w payload
  else if String.eqb event_type "source_participation.insert"
       then participation_params w payload
  else ∅.

(** The payload passes the validation of its kind. *)
Definition valid (et : string) (payload : props) : bool :=
  forallb (λ f, truthy (field payload f)) (required_fields et).

(** The "last observed" properties of each kind: what a repeat observation
    writes. *)
Definition volatile_nodes (et label : string) : list string :=
  if String.eqb et "source_participation.insert"
     && String.eqb label "SourceParticipation"
  then ["last_verified"; "updated_at"] else [].

Definition volatile_rels (et type : string) : list string :=
  if String.eqb et "triple.insert" && String.eqb type "ASSERTS"
  then ["updated_at"] else [].

(** Applying the transformer of a kind to one payload, once per world. *)
Definition apply_all (et : string) (payload : props) (ws : list world) (s : session)
  : session :=
  foldl (λ acc w, session_of (dispatch et w payload acc)) s ws.

(** The participation node a payload is about. *)
Definition participation_key (payload : props) : node_key :=
  ("SourceParticipation",
   JStr (sha256 (JStr (to_string (field payload "crouton_id") ++ ":"
                       ++ to_string (field payload "source_url"))))).

(** The relationship a triple.insert payload is about. *)
Definition triple_relationship (payload : props) : rel_key :=
  ("ASSERTS",
   ("Entity", JStr (sha256 (field payload "subject"))),
   ("Entity", JStr (sha256 (field payload "object"))),
   [("predicate", field payload "predicate")]).

(** What a repeat observation of a payload is written on: the ASSERTS
    relationship of a triple, the participation node of a participation,
    nothing for a factlet. *)
Definition observed (et : string) (payload : props) : list node_key * list rel_key :=
  if String.eqb et "triple.insert" then ([], [triple_relationship payload])
  else if String.eqb et "factlet.insert" then ([], [])
  else if String.eqb et "source_participation.insert"
       then ([participation_key payload], [])
  else ([], []).

(** The timestamp the event falls back on. *)
Definition base_timestamp (w : world) (payload : props) : jsval :=
  or_else (field payload "first_observed") (JStr (clock w)).

(** The subjects of the graph writes a session has seen, oldest first. *)
Definition written_subjects (s : session) : list (option jsval) :=
  (λ c : list clause * props, c.2 !! "subject") <$> reverse (calls s).

(** ** Shutdown *)

(** What the specification asks of a shutdown: no connection is closed, and
    the process does not exit, while a record is in flight. *)
Definition graceful (p : process) : Prop :=
  (driver_open p = false ∨ pool_open p = false ∨ handler p = Exited) →
  in_flight p = None.

(** ** Configuration *)

(** The batch size is one the claim runs with and returns rows for. *)
Definition claims_rows (env : environ) : bool :=
  match BATCH_SIZE env with
  | Some limit => (0 <? limit) && (limit <=? bigint_max)
  | None => false
  end.

(** A pending record whose payload has no field: its processing throws. *)
Definition poison (n : Z) : row := mkRow 1 "triple.insert" ∅ 0 n Pending None.

(** Under [env], a lone record whose processing fails is dead-lettered
    exactly when that makes [cap] attempts or more. *)
Definition dead_letters_at (env : environ) (cap : Z) : Prop :=
  ∀ (ws : row → world) (n : Z) (s : session),
    0 ≤ n < int_max →
    (status <$> head (outbox (cycle env ws (mkStores [poison n] s)))) = Some Failed
    ↔ n + 1 >= cap.

(** ** Sample data *)

Definition sample_world : world := mkWorld "2025-11-02T10:00:00.000Z" None.

Definition fresh_session : session := mkSession Graph.empty [].

Definition triple_payload (s p o : string) : props :=
  list_to_map [("subject", JStr s); ("predicate", JStr p); ("object", JStr o)].

(** A record that failed once (the store was unreachable) and is claimed
    again. *)
Definition retried_row : row :=
  mkRow 1 "triple.insert" (triple_payload "A" "knows" "B") 100 1 Processing
        (Some "connect ECONNREFUSED").

Definition exhausted_row : row :=
  mkRow 9 "triple.insert" (triple_payload "" "knows" "B") 100 4 Processing None.

Definition malformed_row : row :=
  mkRow 3 "triple.insert" (triple_payload "" "knows" "B") 100 0 Processing None.

(** Claimed records whose [attempts] is the largest [INT]: a malformed one,
    and one that is well formed. *)
Definition malformed_row_at_int_max : row :=
  mkRow 5 "triple.insert" (triple_payload "" "knows" "B") 100 2147483647 Processing None.

Definition row_at_int_max : row :=
  mkRow 6 "triple.insert" (triple_payload "A" "knows" "B") 100 2147483647 Processing None.

Definition bare_participation : props :=
  list_to_map [ ("crouton_id", JStr "c1"); ("source_domain", JStr "example.com");
                ("source_url", JStr "https://example.com/a") ].

(** Two pending records; the one stored first occurred later (a live event,
    then a backfilled one, whose [occurred_at] is the creation time of an
    old row). *)
Definition backlog : table :=
  [ mkRow 1 "triple.insert" (triple_payload "A" "knows" "B") 20 0 Pending None;
    mkRow 2 "triple.insert" (triple_payload "C" "knows" "D") 10 0 Pending None ].

End Vocabulary.
Export Vocabulary.

(* ===================================================================== *)
(** * More vocabulary *)
(* ===================================================================== *)

Module Terms.

(** ** The outbox, turn by turn *)

(** The rows a claim can take. *)
Definition pending_rows (tbl : table) : list row := filter (λ r, is_pending r = true) tbl.

(** [r'] is the row of the claimed record [ev] after its outcome
    write-back: one more attempt, done or (with an error message) the
    status of a retry, everything else as it was. *)
Definition settled (ev r' : row) : Prop :=
  id r' = id ev ∧ event_type r' = event_type ev ∧ payload r' = payload ev
  ∧ occurred_at r' = occurred_at ev ∧ attempts r' = attempts ev + 1
  ∧ (status r' = Done ∨ (status r' = retry_status (attempts ev + 1) ∧ is_Some (error r'))).

(** [r'] is the row [r] has become: the same event, with [more] attempts at
    most added, and unchanged if it was not pending. *)
Definition same_event (more : Z) (r r' : row) : Prop :=
  id r' = id r ∧ event_type r' = event_type r ∧ payload r' = payload r
  ∧ occurred_at r' = occurred_at r
  ∧ attempts r ≤ attempts r' ≤ attempts r + more
  ∧ (status r ≠ Pending → r' = r).

(** The record gets as far as the graph store: recognized kind, a payload
    that is an object and passes validation. *)
Definition reaches_store (ev : row) : bool :=
  recognized (event_type ev)
  && match payload ev with
     | Null => false
     | Obj fields => valid (event_type ev) fields
     end.

(** The calls to the graph store a batch makes when it is processed to its
    end, in the order made. *)
Definition graph_calls (ws : row → world) (batch : list row) : list (list clause * props) :=
  (λ ev, (query_of (event_type ev),
          params_of (event_type ev) (ws ev) (fields_of (payload ev))))
    <$> filter (λ ev, reaches_store ev = true) batch.

(** The [attempts] of the row can take one more: [attempts + 1] is an
    [INT]. *)
Definition countable_attempts (r : row) : Prop := int_min ≤ attempts r + 1 ≤ int_max.

(** The records of a batch the [for] loop gets to: all of them, unless an
    outcome write-back throws out of the loop. *)
Fixpoint reached (ws : row → world) (batch : list row) (st : stores) : list row :=
  match batch with
  | [] => []
  | ev :: batch' =>
      ev :: match process_event (ws ev) ev st with
            | Settled st' => reached ws batch' st'
            | Escaped _ _ => []
            end
  end.

(** ** Queries *)

(** The nodes and the relationships the patterns of [q] name. *)
Fixpoint patterns (ps : props) (q : list clause) (bs : bindings)
  : list node_key * list rel_key :=
  match q with
  | [] => ([], [])
  | MergeNode var label kp _ _ :: q' =>
      match merge_node_key ps label kp with
      | inr k => let '(ns, rs) := patterns ps q' (<[var := k]> bs) in (k :: ns, rs)
      | inl _ => ([], [])
      end
  | MergeRel src type ident dst _ _ :: q' =>
      match merge_rel_key ps bs src type ident dst with
      | inr k => let '(ns, rs) := patterns ps q' bs in (ns, k :: rs)
      | inl _ => ([], [])
      end
  end.

(** The nodes and relationships an event is about: those its query names,
    when it gets as far as the query. *)
Definition touched (et : string) (w : world) (payload : props)
  : list node_key * list rel_key :=
  if recognized et && valid et payload
  then patterns (params_of et w payload) (query_of et) ∅ else ([], []).

(** ** What the events are about *)

(** The timestamp a triple or factlet event carries: its [created_at], or
    the clock's reading when it has none. *)
Definition event_timestamp (w : world) (payload : props) : jsval :=
  or_else (field payload "created_at") (JStr (clock w)).

(** The Entity node of a name, and the properties it is created with. *)
Definition entity (name : jsval) : node_key := ("Entity", JStr (sha256 name)).

Definition new_entity (name now : jsval) : props :=
  <["created_at" := now]> (<["name" := name]> {[ "id" := JStr (sha256 name) ]}).

(** The Factlet node of a crouton and the WebPage node of a URL. *)
Definition factlet (crouton_id : jsval) : node_key := ("Factlet", JStr (sha256 crouton_id)).

Definition webpage (source_url : jsval) : node_key := ("WebPage", JStr (sha256 source_url)).

Definition from_page (payload : props) : rel_key :=
  ("FROM_PAGE", factlet (field payload "crouton_id"), webpage (field payload "source_url"), []).

(** The SourceDomain node of a domain and the Crouton node of a crouton;
    the latter is keyed by the crouton id as it is, not by its hash. *)
Definition source_domain (domain : jsval) : node_key :=
  ("SourceDomain", JStr (sha256 domain)).

Definition crouton (crouton_id : jsval) : node_key := ("Crouton", crouton_id).

Definition has_participation (payload : props) : rel_key :=
  ("HAS_PARTICIPATION", source_domain (field payload "source_domain"),
   participation_key payload, []).

Definition tracks_crouton (payload : props) : rel_key :=
  ("TRACKS_CROUTON", participation_key payload, crouton (field payload "crouton_id"), []).

(** The properties a participation node is created with. *)
Definition new_participation (w : world) (payload : props) : props :=
  let now := base_timestamp w payload in
  <["created_at" := now]>
    (<["last_verified" := or_else (field payload "last_verified") now]>
       (<["first_observed" := or_else (field payload "first_observed") now]>
          (<["discovery_method" := or_else (field payload "discovery_method") (JStr "unknown")]>
             (<["markdown_discovered" := or_else (field payload "markdown_discovered")
                                                 (JBool false)]>
                (<["ai_readable_source" := or_else (field payload "ai_readable_source")
                                                   (JBool false)]>
                   {[ "id" := (participation_key payload).2 ]}))))).

(** What a repeat observation writes on a participation node. *)
Definition seen_again (w : world) (payload : props) (p : props) : props :=
  let now := base_timestamp w payload in
  <["updated_at" := now]> (<["last_verified" := or_else (field payload "last_verified") now]> p).

(** ** Configuration *)

(** [Number.MAX_SAFE_INTEGER]: up to it, the numbers of JavaScript are the
    integers, and [String] writes all their digits. *)
Definition max_safe_integer : Z := 9007199254740991.

(** A value of the model that stands for a value of JavaScript: a number
    is an integer JavaScript represents exactly. *)
Definition exact (v : jsval) : Prop :=
  match v with
  | JNum n => Z.abs n ≤ max_safe_integer
  | _ => True
  end.

(** The text begins with a decimal digit. *)
Definition starts_with_digit (s : string) : bool :=
  match s with
  | String a _ => match digit_of a with Some _ => true | None => false end
  | EmptyString => false
  end.

(** ** Resumptions of the loop *)




(** ** The backfill script *)

(** Every id in the outbox was drawn from the sequence. *)
Definition sequence_ahead (db : database) : Prop :=
  ∀ r, r ∈ events db → id r < next_id db.

(** A row as [INSERT] leaves it: the defaults of the table. *)
Definition fresh_event (kind : string) (ev : props * Z) (r : row) : Prop :=
  event_type r = kind ∧ payload r = ev.1 ∧ occurred_at r = ev.2
  ∧ attempts r = 0 ∧ status r = Pending ∧ error r = None.

(** A rendering of timestamps, for the examples. *)
Definition sample_rendering (z : Z) : string := "2024-05-01T00:00:0" ++ digits (z mod 10) ++ "Z".

(** A database with one live event in the outbox and two triples, the
    first of which is the one the live event is about. *)
Definition sample_database : database :=
  mkDatabase
    [ mkRow 1 "triple.insert"
            (list_to_map [("id", JStr "t1"); ("subject", JStr "A");
                          ("predicate", JStr "knows"); ("object", JStr "B")] : props)
            20 0 Pending None ]
    2
    [ mkTripleRow "t1" (JStr "A") (JStr "knows") (JStr "B") JNull 5;
      mkTripleRow "t2" (JStr "C") (JStr "knows") (JStr "D") JNull 7 ]
    [].

End Terms.
Export Terms.

(* ===================================================================== *)
(** * Properties: the fingerprint function *)
(* ===================================================================== *)

Section Fingerprint.

Lemma hex_digit_is_hex (n : Z) : is_hex (Sha256.hex_digit n).
Proof.
  unfold Sha256.hex_digit, is_hex.
  destruct (Z.land n 15) as [|p|p]; simpl; auto 20.
  do 4 (try destruct p as [p|p|]); simpl; auto 20.
Qed.

Lemma hex8_length (x : Z) (rest : string) :
  String.length (Sha256.hex8 x rest) = (8 + String.length rest)%nat.
Proof. reflexivity. Qed.

Lemma hex8_is_hex (x : Z) (rest : string) :
  Forall is_hex (list_ascii_of_string rest) →
  Forall is_hex (list_ascii_of_string (Sha256.hex8 x rest)).
Proof.
  intros Hrest. unfold Sha256.hex8. simpl.
  repeat (apply List.Forall_cons; [apply hex_digit_is_hex|]). exact Hrest.
Qed.

Lemma hex_of_state_length (s : Sha256.state) :
  String.length (Sha256.hex_of_state s) = 64%nat.
Proof. reflexivity. Qed.

Lemma hex_of_state_is_hex (s : Sha256.state) :
  Forall is_hex (list_ascii_of_string (Sha256.hex_of_state s)).
Proof.
  unfold Sha256.hex_of_state.
  repeat apply hex8_is_hex. constructor.
Qed.

End Fingerprint.

(** The test vectors of the standard, and the fingerprint of a composite
    key. *)
Example sha256_empty :
  sha256 (JStr "") = "e3b0c44298fc1c149afbf4c8996fb92427ae41e4649b934ca495991b7852b855".
Proof. vm_compute. reflexivity. Qed.

Example sha256_abc :
  sha256 (JStr "abc") = "ba7816bf8f01cfea414140de5dae2223b00361a396177a9cb410ff61f20015ad".
Proof. vm_compute. reflexivity. Qed.

Example sha256_two_blocks :
  sha256 (JStr "aaaaaaaaaaaaaaaaaaaaaaaaaaaaaaaaaaaaaaaaaaaaaaaaaaaaaaaa")
  = "b35439a4ac6f0948b6d6f9e3c6af0f5f590ce20f1bde7090ef7970686ec6738a".
Proof. vm_compute. reflexivity. Qed.

Example sha256_composite_key :
  sha256 (JStr ("c1" ++ ":" ++ "https://example.com/a"))
  = "eedcee89b55ed2b35ed6c9a6c3ba50c1e470164a6c14d46ab8473631691a965c".
Proof. vm_compute. reflexivity. Qed.

Example sha256_number : sha256 (JNum 12) = sha256 (JStr "12").
Proof. reflexivity. Qed.

(** C9. [sha256] is a function of the content of its input alone: it takes
    no other argument, and two inputs with the same string content have the
    same fingerprint. The fingerprint is always 64 lower-case hexadecimal
    characters, that is 256 bits, and it is the SHA-256 digest of the
    content: on the test vectors of the standard, on messages at the
    lengths where the padding changes, on a composite key, on a text that
    is not ASCII and on a value of every kind it returns the digest the
    standard gives, and these digests of distinct contents are distinct. *)
Theorem sha256_hex_digest_of_content (x : jsval) :
  exact x →
  String.length (sha256 x) = 64%nat
  ∧ Forall is_hex (list_ascii_of_string (sha256 x))
  ∧ (∀ y : jsval, exact y → to_string y = to_string x → sha256 y = sha256 x)
  ∧ Forall exact known_answers.*1
  ∧ sha256 <$> known_answers.*1 = known_answers.*2
  ∧ NoDup known_answers.*2.
Proof.
  intros _.
  split; [apply hex_of_state_length|].
  split; [apply hex_of_state_is_hex|].
  split; [intros y _ Hy; unfold sha256; by rewrite Hy|].
  split; [repeat constructor; by vm_compute|].
  split; [by vm_compute|].
  apply (bool_decide_unpack _). by vm_compute.
Qed.

Lemma sha256_hex_digest_of_content_witness :
  String.length (sha256 (JStr "12")) = 64%nat ∧ sha256 (JNum 12) = sha256 (JStr "12").
Proof.
  destruct (sha256_hex_digest_of_content (JStr "12")) as (Hlen & _ & Hsame & _).
  - exact I.
  - split; [exact Hlen|]. apply Hsame; [by vm_compute | reflexivity].
Defined.

(* ===================================================================== *)
(** * Properties: the claim query *)
(* ===================================================================== *)

Section ClaimBatch.

Implicit Types (tbl : table) (r : row) (l : list row).

Lemma unique_ids_eq tbl r1 r2 :
  unique_ids tbl → r1 ∈ tbl → r2 ∈ tbl → id r1 = id r2 → r1 = r2.
Proof.
  unfold unique_ids. induction tbl as [|x tbl IH]; intros Hnd H1 H2 Hid.
  - by apply elem_of_nil in H1.
  - rewrite fmap_cons in Hnd.
    pose proof (NoDup_cons_1_1 _ _ Hnd) as Hx. apply NoDup_cons_1_2 in Hnd.
    apply elem_of_cons in H1 as [->|H1]; apply elem_of_cons in H2 as [->|H2]; auto.
    + exfalso. apply Hx. rewrite Hid. by apply list_elem_of_fmap_2.
    + exfalso. apply Hx. rewrite <- Hid. by apply list_elem_of_fmap_2.
Qed.

Lemma insert_by_occurred_perm r l : insert_by_occurred r l ≡ₚ r :: l.
Proof.
  induction l as [|x l IH]; simpl; [done|].
  destruct (occurred_at r <=? occurred_at x); [done|].
  rewrite IH. apply Permutation_swap.
Qed.

Lemma order_by_occurred_perm l : order_by_occurred l ≡ₚ l.
Proof.
  induction l as [|x l IH]; simpl; [done|].
  unfold order_by_occurred in *. simpl.
  by rewrite insert_by_occurred_perm, IH.
Qed.

Lemma insert_by_occurred_sorted r l :
  StronglySorted by_occurred l → StronglySorted by_occurred (insert_by_occurred r l).
Proof.
  induction 1 as [|x l Hs IH Hx]; simpl.
  - repeat constructor.
  - destruct (Z.leb_spec (occurred_at r) (occurred_at x)) as [Hle|Hgt].
    + constructor; [by constructor|].
      constructor; [done|].
      eapply List.Forall_impl; [|exact Hx]. unfold by_occurred. intros; simpl in *; lia.
    + constructor; [done|].
      rewrite (insert_by_occurred_perm r l).
      constructor; [unfold by_occurred; lia | done].
Qed.

Lemma order_by_occurred_sorted l : StronglySorted by_occurred (order_by_occurred l).
Proof.
  induction l as [|x l IH]; [constructor|].
  apply insert_by_occurred_sorted, IH.
Qed.

(** The inner query selects ids of pending rows only. *)
Lemma claim_subquery_pending limit tbl i :
  i ∈ claim_subquery limit tbl → ∃ r, r ∈ tbl ∧ id r = i ∧ status r = Pending.
Proof.
  unfold claim_subquery. intros Hi.
  apply list_elem_of_fmap in Hi as (r & -> & Hr).
  assert (Hr' : r ∈ order_by_occurred (filter (λ r, is_pending r = true) tbl))
    by (eapply elem_of_sublist; [exact Hr | apply sublist_take]).
  clear Hr. rewrite order_by_occurred_perm in Hr'.
  apply list_elem_of_filter in Hr' as [Hp Hr'].
  exists r. repeat split; [done|]. unfold is_pending in Hp.
  by apply bool_decide_eq_true in Hp.
Qed.

(** [LIMIT $1] *)
Lemma claim_subquery_length limit tbl :
  (length (claim_subquery limit tbl) ≤ Z.to_nat limit)%nat.
Proof. unfold claim_subquery. rewrite length_fmap, length_take. lia. Qed.

(** With fewer pending rows than the limit, all of them are selected. *)
Lemma claim_subquery_all limit tbl r :
  (length (filter (λ r, is_pending r = true) tbl) ≤ Z.to_nat limit)%nat →
  r ∈ tbl → status r = Pending → id r ∈ claim_subquery limit tbl.
Proof.
  intros Hlen Hr Hp. unfold claim_subquery.
  apply list_elem_of_fmap_2. rewrite take_ge.
  - rewrite order_by_occurred_perm. apply list_elem_of_filter. split; [|done].
    unfold is_pending. by apply bool_decide_eq_true.
  - by rewrite order_by_occurred_perm.
Qed.

(** [ORDER BY occurred_at ASC LIMIT $1]: a pending row that is left out is
    not earlier than any row that is selected. *)
Lemma claim_subquery_oldest limit tbl r r' :
  unique_ids tbl →
  r ∈ tbl → status r = Pending → id r ∉ claim_subquery limit tbl →
  r' ∈ tbl → id r' ∈ claim_subquery limit tbl →
  occurred_at r' ≤ occurred_at r.
Proof.
  unfold claim_subquery. intros Hnd Hr Hp Hout Hr' Hin.
  set (sorted := order_by_occurred (filter (λ r, is_pending r = true) tbl)) in *.
  assert (Hsorted : StronglySorted by_occurred sorted) by apply order_by_occurred_sorted.
  assert (Hmem : ∀ x, x ∈ sorted → x ∈ tbl).
  { intros x Hx. unfold sorted in Hx. rewrite order_by_occurred_perm in Hx.
    by apply list_elem_of_filter in Hx as [_ ?]. }
  rewrite <- (take_drop (Z.to_nat limit) sorted) in Hsorted.
  apply list_elem_of_fmap in Hin as (x & Hid & Hx).
  assert (x = r') as ->.
  { apply (unique_ids_eq tbl); auto.
    apply Hmem. eapply elem_of_sublist; [exact Hx | apply sublist_take]. }
  assert (Hrs : r ∈ sorted).
  { unfold sorted. rewrite order_by_occurred_perm. apply list_elem_of_filter.
    split; [|done]. unfold is_pending. by apply bool_decide_eq_true. }
  rewrite <- (take_drop (Z.to_nat limit) sorted) in Hrs.
  apply elem_of_app in Hrs as [Hrs|Hrs].
  - exfalso. apply Hout. by apply list_elem_of_fmap_2.
  - by apply (StronglySorted_app_1_elem_of _ _ _ _ _ Hsorted Hx Hrs).
Qed.

(** What [UPDATE ... RETURNING *] returns: the rows of the table whose id
    was selected, with [status='processing']. *)
Lemma update_returning_spec ids tbl r :
  r ∈ (update_returning ids tbl).1 ↔
  ∃ r0, r0 ∈ tbl ∧ id r0 ∈ ids ∧ r = set_status Processing r0.
Proof.
  unfold update_returning. simpl. rewrite list_elem_of_filter, list_elem_of_fmap. split.
  - intros (Hid & r0 & -> & Hr0). exists r0. case_bool_decide as Hd.
    + done.
    + done.
  - intros (r0 & Hr0 & Hid & ->). split; [done|].
    exists r0. split; [|done]. by rewrite bool_decide_eq_true_2.
Qed.

Lemma update_returning_table ids tbl :
  (update_returning ids tbl).2
  = (λ r, if bool_decide (id r ∈ ids) then set_status Processing r else r) <$> tbl.
Proof. reflexivity. Qed.

Lemma update_returning_ids ids tbl : id <$> (update_returning ids tbl).2 = id <$> tbl.
Proof.
  rewrite update_returning_table, <- list_fmap_compose.
  apply list_fmap_ext. intros _ r _. simpl. by case_bool_decide.
Qed.

Lemma update_returning_length ids tbl :
  unique_ids tbl → (length (update_returning ids tbl).1 ≤ length ids)%nat.
Proof.
  intros Hnd. unfold unique_ids in Hnd.
  rewrite <- (length_fmap id (update_returning ids tbl).1).
  apply submseteq_length, NoDup_submseteq.
  - rewrite <- (update_returning_ids ids tbl) in Hnd.
    apply (sublist_NoDup _ (id <$> (update_returning ids tbl).2)); [exact Hnd|].
    unfold update_returning. simpl. apply fmap_sublist, sublist_filter.
  - intros i Hi. apply list_elem_of_fmap in Hi as (r & -> & Hr).
    apply update_returning_spec in Hr as (r0 & _ & Hid & ->). done.
Qed.

End ClaimBatch.

(* ===================================================================== *)
(** * Properties: claiming and the outcome write-back *)
(* ===================================================================== *)

Section WriteBack.

Implicit Types (tbl : table) (r ev : row) (st : stores).

Lemma find_fmap (f : row → row) (i : Z) tbl :
  (∀ r, id (f r) = id r) → find i (f <$> tbl) = f <$> find i tbl.
Proof.
  intros Hf. unfold find. induction tbl as [|x tbl IH]; [done|].
  rewrite fmap_cons, !filter_cons, Hf.
  destruct (decide (id x = i)); simpl; [done | exact IH].
Qed.

Lemma find_elem_of i tbl r : find i tbl = Some r → r ∈ tbl ∧ id r = i.
Proof.
  unfold find. intros H. apply head_Some_elem_of in H.
  apply list_elem_of_filter in H. tauto.
Qed.

Lemma find_unique tbl r : unique_ids tbl → r ∈ tbl → find (id r) tbl = Some r.
Proof.
  intros Hnd Hr. unfold find.
  destruct (filter (λ x, id x = id r) tbl) as [|x l] eqn:Hf.
  - assert (r ∈ filter (λ x, id x = id r) tbl) as Hin
      by (by apply list_elem_of_filter).
    rewrite Hf in Hin. by apply elem_of_nil in Hin.
  - simpl. f_equal.
    assert (x ∈ filter (λ x, id x = id r) tbl) as Hin by (rewrite Hf; left).
    apply list_elem_of_filter in Hin as [Hid Hx].
    by apply (unique_ids_eq tbl).
Qed.

(** ** Tables after an [UPDATE] on one id *)

Lemma find_updated f i j tbl :
  (∀ r, id (f r) = id r) →
  find j (updated f i tbl)
  = (λ r, if bool_decide (id r = i) then f r else r) <$> find j tbl.
Proof. intros Hf. unfold updated. apply find_fmap. intros r. by case_bool_decide. Qed.

Lemma find_updated_own f i tbl r :
  (∀ r, id (f r) = id r) → find i tbl = Some r →
  find i (updated f i tbl) = Some (f r).
Proof.
  intros Hf Hr. rewrite (find_updated f i i tbl Hf), Hr. simpl.
  apply find_elem_of in Hr as [_ Hid]. by rewrite bool_decide_eq_true_2.
Qed.

Lemma updated_ids f i tbl :
  (∀ r, id (f r) = id r) → id <$> updated f i tbl = id <$> tbl.
Proof.
  intros Hf. unfold updated. rewrite <- list_fmap_compose.
  apply list_fmap_ext. intros _ r _. simpl. by case_bool_decide.
Qed.

(** A row with another id is out of reach of an outcome [UPDATE]. *)
Lemma updated_other f i tbl r : r ∈ tbl → id r ≠ i → r ∈ updated f i tbl.
Proof.
  intros Hr Hi. unfold updated. apply list_elem_of_fmap. exists r.
  by rewrite bool_decide_eq_false_2.
Qed.

Lemma done_row_id r : id (done_row r) = id r.
Proof. done. Qed.

Lemma failed_row_id n e r : id (failed_row n e r) = id r.
Proof. done. Qed.

(** ** The outcome statements *)

(** The [UPDATE] of a success goes through when no row it sets has its
    [attempts] at the top of [INT], and fails otherwise. *)
Lemma mark_done_fits i tbl :
  (∀ r, r ∈ tbl → id r = i → attempts r + 1 ≤ int_max) →
  mark_done i tbl = inr (updated done_row i tbl).
Proof.
  intros Hfit. unfold mark_done.
  destruct (existsb _ tbl) eqn:He; [|done].
  apply existsb_exists in He as (r & Hr & Hb).
  apply andb_true_iff in Hb as [Hi Ho].
  apply bool_decide_eq_true in Hi. apply Z.ltb_lt in Ho.
  apply list_elem_of_In in Hr. specialize (Hfit r Hr Hi). lia.
Qed.

Lemma mark_done_overflow i tbl r :
  r ∈ tbl → id r = i → int_max < attempts r + 1 →
  mark_done i tbl = inl integer_out_of_range.
Proof.
  intros Hr Hi Ho. unfold mark_done.
  destruct (existsb _ tbl) eqn:He; [done|]. exfalso.
  apply not_true_iff_false in He. apply He.
  apply existsb_exists. exists r. split; [by apply list_elem_of_In|].
  apply andb_true_iff. split; [by apply bool_decide_eq_true | by apply Z.ltb_lt].
Qed.

Lemma mark_done_inr i tbl tbl' :
  mark_done i tbl = inr tbl' → tbl' = updated done_row i tbl.
Proof. unfold mark_done. destruct (existsb _ tbl); [done|]. by intros [= <-]. Qed.

(** The [UPDATE] of a failure goes through when the new [attempts] is an
    [INT], and fails otherwise. *)
Lemma mark_outcome_fits n s msg i tbl :
  int_min ≤ n ≤ int_max →
  mark_outcome n s msg i tbl
  = inr (updated (λ r, mkRow (id r) (event_type r) (payload r) (occurred_at r)
                             n s (Some msg)) i tbl).
Proof.
  intros Hn. unfold mark_outcome.
  destruct (Z.ltb_spec n int_min); [lia|].
  destruct (Z.ltb_spec int_max n); [lia|]. done.
Qed.

Lemma mark_outcome_overflow n s msg i tbl :
  ¬ (int_min ≤ n ≤ int_max) →
  mark_outcome n s msg i tbl = inl (out_of_range "integer").
Proof.
  intros Hn. unfold mark_outcome.
  destruct (Z.ltb_spec n int_min); [done|].
  destruct (Z.ltb_spec int_max n); [done|]. lia.
Qed.

Lemma write_failure_fits ev e tbl :
  countable_attempts ev →
  write_failure ev e tbl = inr (updated (failed_row (attempts ev) e) (id ev) tbl).
Proof. intros Hc. unfold write_failure. by rewrite mark_outcome_fits. Qed.

Lemma write_failure_overflow ev e tbl :
  ¬ countable_attempts ev → write_failure ev e tbl = inl (out_of_range "integer").
Proof. intros Hc. unfold write_failure. by rewrite mark_outcome_overflow. Qed.

Lemma countable_attempts_dec ev : countable_attempts ev ∨ ¬ countable_attempts ev.
Proof. unfold countable_attempts. lia. Qed.

(** The write-back of an outcome, when it goes through, is an [UPDATE] on
    the id of the record. *)
Lemma write_back_inr ev res tbl tbl' :
  write_back ev res tbl = inr tbl' →
  ∃ f, (∀ r, id (f r) = id r) ∧ tbl' = updated f (id ev) tbl.
Proof.
  assert (Hfail : ∀ e, write_failure ev e tbl = inr tbl' →
            ∃ f, (∀ r, id (f r) = id r) ∧ tbl' = updated f (id ev) tbl).
  { intros e He. destruct (countable_attempts_dec ev) as [Hc|Hc].
    - rewrite (write_failure_fits _ _ _ Hc) in He. injection He as <-.
      by exists (failed_row (attempts ev) e).
    - by rewrite (write_failure_overflow _ _ _ Hc) in He. }
  unfold write_back. destruct res as [s|e s]; [|apply Hfail].
  destruct (mark_done (id ev) tbl) as [e|tbl1] eqn:Hd; [apply Hfail|].
  intros [= <-]. apply mark_done_inr in Hd. by exists done_row.
Qed.

(** It throws only when one more attempt is not an [INT]: then the
    [UPDATE] in the [catch] clause fails. *)
Lemma write_back_inl ev res tbl e :
  write_back ev res tbl = inl e →
  ¬ countable_attempts ev ∧ e = out_of_range "integer".
Proof.
  assert (Hfail : ∀ e0, write_failure ev e0 tbl = inl e →
            ¬ countable_attempts ev ∧ e = out_of_range "integer").
  { intros e0 He. destruct (countable_attempts_dec ev) as [Hc|Hc].
    - by rewrite (write_failure_fits _ _ _ Hc) in He.
    - rewrite (write_failure_overflow _ _ _ Hc) in He. by injection He as <-. }
  unfold write_back. destruct res as [s|e0 s]; [|apply Hfail].
  destruct (mark_done (id ev) tbl) as [e1|tbl1] eqn:Hd; [apply Hfail | done].
Qed.

Lemma write_back_cases ev res tbl tbl' :
  write_back ev res tbl = inr tbl' →
  tbl' = updated done_row (id ev) tbl
  ∨ ∃ e, tbl' = updated (failed_row (attempts ev) e) (id ev) tbl.
Proof.
  assert (Hfail : ∀ e, write_failure ev e tbl = inr tbl' →
            ∃ e, tbl' = updated (failed_row (attempts ev) e) (id ev) tbl).
  { intros e He. destruct (countable_attempts_dec ev) as [Hc|Hc].
    - rewrite (write_failure_fits _ _ _ Hc) in He. injection He as <-. by exists e.
    - by rewrite (write_failure_overflow _ _ _ Hc) in He. }
  unfold write_back. destruct res as [s|e s]; [|right; by apply (Hfail e)].
  destruct (mark_done (id ev) tbl) as [e|tbl1] eqn:Hd; [right; by apply (Hfail e)|].
  intros [= <-]. apply mark_done_inr in Hd. by left.
Qed.

Lemma write_back_ok ev s tbl :
  (∀ r, r ∈ tbl → id r = id ev → attempts r + 1 ≤ int_max) →
  write_back ev (Ok s) tbl = inr (updated done_row (id ev) tbl).
Proof. intros Hfit. unfold write_back. by rewrite mark_done_fits. Qed.

Lemma write_back_throw ev e s tbl :
  countable_attempts ev →
  write_back ev (Throw e s) tbl
  = inr (updated (failed_row (attempts ev) e) (id ev) tbl).
Proof. intros Hc. unfold write_back. by apply write_failure_fits. Qed.

(** At the top of [INT] both statements fail, whatever the outcome. *)
Lemma write_back_overflow ev res tbl :
  ev ∈ tbl → int_max < attempts ev + 1 →
  write_back ev res tbl = inl (out_of_range "integer").
Proof.
  intros Hev Ho.
  assert (Hc : ¬ countable_attempts ev) by (unfold countable_attempts; lia).
  unfold write_back. destruct res as [s|e s].
  - rewrite (mark_done_overflow (id ev) tbl ev Hev eq_refl Ho).
    by apply write_failure_overflow.
  - by apply write_failure_overflow.
Qed.

(** With the primary key, the row of the record is the only one an outcome
    [UPDATE] sets. *)
Lemma only_row_fits tbl ev :
  unique_ids tbl → ev ∈ tbl → attempts ev + 1 ≤ int_max →
  ∀ r, r ∈ tbl → id r = id ev → attempts r + 1 ≤ int_max.
Proof.
  intros Hnd Hev Hfit r Hr Hid.
  by rewrite (unique_ids_eq tbl r ev Hnd Hr Hev Hid).
Qed.

Lemma found_row_fits tbl i r :
  unique_ids tbl → find i tbl = Some r → attempts r + 1 ≤ int_max →
  ∀ x, x ∈ tbl → id x = i → attempts x + 1 ≤ int_max.
Proof.
  intros Hnd Hr Hfit x Hx Hid. apply find_elem_of in Hr as [Hr Hi].
  by rewrite (unique_ids_eq tbl x r Hnd Hx Hr) by congruence.
Qed.

(** ** Processing a record, and a batch *)

Lemma process_event_ids w ev st :
  id <$> outbox (stores_of (process_event w ev st)) = id <$> outbox st.
Proof.
  unfold process_event.
  destruct (write_back _ _ _) as [e|tbl'] eqn:Hw; simpl; [done|].
  apply write_back_inr in Hw as (f & Hf & ->). by apply updated_ids.
Qed.

Lemma process_event_other w ev st r :
  r ∈ outbox st → id r ≠ id ev → r ∈ outbox (stores_of (process_event w ev st)).
Proof.
  intros Hr Hi. unfold process_event.
  destruct (write_back _ _ _) as [e|tbl'] eqn:Hw; simpl; [done|].
  apply write_back_inr in Hw as (f & Hf & ->). by apply updated_other.
Qed.

Lemma process_batch_other ws batch st r :
  r ∈ outbox st → (∀ ev, ev ∈ batch → id r ≠ id ev) →
  r ∈ outbox (stores_of (process_batch ws batch st)).
Proof.
  revert st.
  induction batch as [|ev batch IH]; intros st Hr Hids; simpl; [done|].
  pose proof (process_event_other (ws ev) ev st r Hr (Hids ev ltac:(left))) as Hr'.
  destruct (process_event (ws ev) ev st) as [st'|e st']; simpl in *; [|done].
  apply IH; [done|]. intros ev' Hev'. apply Hids. by right.
Qed.

Lemma process_batch_ids ws batch st :
  id <$> outbox (stores_of (process_batch ws batch st)) = id <$> outbox st.
Proof.
  revert st.
  induction batch as [|ev batch IH]; intros st; simpl; [done|].
  pose proof (process_event_ids (ws ev) ev st) as Hids.
  destruct (process_event (ws ev) ev st) as [st'|e st']; simpl in *; [|done].
  by rewrite IH.
Qed.

(** The [for] loop is left early only by a record whose [attempts] cannot
    take one more. *)
Lemma process_event_escapes w ev st e st' :
  process_event w ev st = Escaped e st' →
  ¬ countable_attempts ev ∧ e = out_of_range "integer" ∧ outbox st' = outbox st.
Proof.
  unfold process_event.
  destruct (write_back _ _ _) as [e0|tbl'] eqn:Hw; [|done].
  intros [= <- <-]. apply write_back_inl in Hw as [Hc ->]. done.
Qed.

Lemma process_event_completes w ev st :
  countable_attempts ev → ∃ st', process_event w ev st = Settled st'.
Proof.
  intros Hc. destruct (process_event w ev st) as [st'|e st'] eqn:Hp; [by exists st'|].
  by apply process_event_escapes in Hp as [Hn _].
Qed.

Lemma process_batch_completes ws batch st :
  (∀ ev, ev ∈ batch → countable_attempts ev) →
  ∃ st', process_batch ws batch st = Settled st'.
Proof.
  revert st. induction batch as [|ev batch IH]; intros st Hc; simpl; [by exists st|].
  destruct (process_event_completes (ws ev) ev st) as [st1 ->]; [apply Hc; left|].
  apply IH. intros ev' Hev'. apply Hc. by right.
Qed.

(** What a claim returns and leaves behind. *)
Lemma claimBatch_inr limit tbl batch tbl' :
  claimBatch limit tbl = inr (batch, tbl') →
  0 ≤ limit ≤ bigint_max
  ∧ update_returning (claim_subquery limit tbl) tbl = (batch, tbl').
Proof.
  unfold claimBatch.
  destruct (Z.ltb_spec limit 0); [done|].
  destruct (Z.ltb_spec bigint_max limit); [done|].
  intros [= <- <-]. split; [lia | done].
Qed.

Lemma claimBatch_fits limit tbl :
  0 ≤ limit ≤ bigint_max →
  claimBatch limit tbl = inr (update_returning (claim_subquery limit tbl) tbl).
Proof.
  intros Hl. unfold claimBatch.
  destruct (Z.ltb_spec limit 0); [lia|].
  destruct (Z.ltb_spec bigint_max limit); [lia|]. done.
Qed.

Lemma claimBatch_spec limit tbl batch tbl' :
  unique_ids tbl → claimBatch limit tbl = inr (batch, tbl') →
  unique_ids tbl'
  ∧ (length batch ≤ Z.to_nat limit)%nat
  ∧ (∀ r, r ∈ batch →
       r ∈ tbl' ∧ status r = Processing
       ∧ ∃ r0, r0 ∈ tbl ∧ status r0 = Pending ∧ r = set_status Processing r0)
  ∧ (∀ r, r ∈ tbl → (∀ ev, ev ∈ batch → id r ≠ id ev) → r ∈ tbl').
Proof.
  intros Hnd Hc. apply claimBatch_inr in Hc as [_ Hu].
  set (ids := claim_subquery limit tbl) in *.
  assert (batch = (update_returning ids tbl).1) as -> by (by rewrite Hu).
  assert (tbl' = (update_returning ids tbl).2) as -> by (by rewrite Hu).
  clear Hu. split; [|split; [|split]].
  - unfold unique_ids. by rewrite update_returning_ids.
  - etrans; [by apply update_returning_length|]. apply claim_subquery_length.
  - intros r Hr. pose proof Hr as Hr'.
    apply update_returning_spec in Hr' as (r0 & Hr0 & Hid & ->).
    split; [|split; [done|]].
    + unfold update_returning in *. simpl in *.
      by apply list_elem_of_filter in Hr as [_ ?].
    + exists r0. split; [done|]. split; [|done].
      apply claim_subquery_pending in Hid as (r1 & Hr1 & Hid1 & Hp).
      by rewrite <- (unique_ids_eq tbl r1 r0).
  - intros r Hr Hids. rewrite update_returning_table.
    apply list_elem_of_fmap. exists r. split; [|done].
    case_bool_decide as Hd; [|done]. exfalso.
    apply (Hids (set_status Processing r)); [|done].
    apply update_returning_spec. by exists r.
Qed.

(** A row that is not pending is not claimed, and a claim leaves it alone. *)
Lemma claimBatch_skips limit tbl batch tbl' r :
  unique_ids tbl → claimBatch limit tbl = inr (batch, tbl') →
  r ∈ tbl → status r ≠ Pending →
  r ∈ tbl' ∧ ∀ ev, ev ∈ batch → id r ≠ id ev.
Proof.
  intros Hnd Hc Hr Hs.
  destruct (claimBatch_spec _ _ _ _ Hnd Hc) as (_ & _ & Hb & Hrest).
  assert (Hids : ∀ ev, ev ∈ batch → id r ≠ id ev).
  { intros ev Hev Hid. destruct (Hb ev Hev) as (_ & _ & r0 & Hr0 & Hp & ->).
    simpl in Hid. apply Hs. by rewrite (unique_ids_eq tbl r r0). }
  split; [by apply Hrest | done].
Qed.

End WriteBack.

Section Outcomes.

Implicit Types (tbl : table) (r ev : row) (st : stores) (w : world).

Lemma absent_or_empty_falsy (payload : document) f :
  absent_or_empty payload f → truthy (field (fields_of payload) f) = false.
Proof. unfold field. by intros [-> | ->]. Qed.

(** Validation comes first: a falsy required field makes the transformer
    throw, with the session as it was. *)
Lemma dispatch_invalid et w (payload : props) s f :
  f ∈ required_fields et → truthy (field payload f) = false →
  dispatch et w payload s = Throw (Error (validation_message et)) s.
Proof.
  unfold required_fields, dispatch, validation_message.
  destruct (String.eqb et "triple.insert");
    [|destruct (String.eqb et "factlet.insert");
      [|destruct (String.eqb et "source_participation.insert")]];
    intros Hf Hfalsy.
  - unfold processTriple.
    repeat (apply elem_of_cons in Hf as [->|Hf]); [| | |by apply elem_of_nil in Hf];
      rewrite Hfalsy; simpl; by rewrite ?orb_true_r.
  - unfold processFactlet.
    repeat (apply elem_of_cons in Hf as [->|Hf]); [| |by apply elem_of_nil in Hf];
      rewrite Hfalsy; simpl; by rewrite ?orb_true_r.
  - unfold processSourceParticipation.
    repeat (apply elem_of_cons in Hf as [->|Hf]); [| | |by apply elem_of_nil in Hf];
      rewrite Hfalsy; simpl; by rewrite ?orb_true_r.
  - by apply elem_of_nil in Hf.
Qed.

(** A payload that is [null] cannot be taken apart: the transformer throws
    at its first line. *)
Lemma dispatch_null et w s :
  recognized et = true → dispatch et w Null s = Throw (rejection et Null) s.
Proof.
  unfold recognized, dispatch, rejection, first_field.
  destruct (String.eqb et "triple.insert"); [done|].
  destruct (String.eqb et "factlet.insert"); [done|].
  destruct (String.eqb et "source_participation.insert"); [done|done].
Qed.

Lemma required_fields_recognized et f : f ∈ required_fields et → recognized et = true.
Proof.
  unfold required_fields, recognized.
  destruct (String.eqb et "triple.insert"); [done|].
  destruct (String.eqb et "factlet.insert"); [done|].
  destruct (String.eqb et "source_participation.insert"); [done|].
  intros Hf. by apply elem_of_nil in Hf.
Qed.

(** Either way the store is not called. *)
Lemma dispatch_rejects et w (payload : document) s f :
  f ∈ required_fields et → absent_or_empty payload f →
  dispatch et w payload s = Throw (rejection et payload) s.
Proof.
  intros Hf Hp. destruct payload as [|fields].
  - apply dispatch_null. by apply (required_fields_recognized et f).
  - apply (dispatch_invalid et w fields s f Hf).
    by apply (absent_or_empty_falsy (Obj fields)).
Qed.

Lemma rejection_message et (payload : document) :
  error_message (rejection et payload) ≠ "".
Proof.
  unfold rejection, validation_message, first_field, destructuring_null, error_message.
  destruct payload; simpl; by repeat case_match.
Qed.

Lemma dispatch_unknown et w (payload : document) s :
  recognized et = false → dispatch et w payload s = Ok s.
Proof.
  unfold recognized, dispatch. intros H.
  apply orb_false_iff in H as [H H3]. apply orb_false_iff in H as [H1 H2].
  by rewrite H1, H2, H3.
Qed.

Lemma process_event_ok w ev st s' :
  dispatch (event_type ev) w (payload ev) (graph_session st) = Ok s' →
  (∀ r, r ∈ outbox st → id r = id ev → attempts r + 1 ≤ int_max) →
  process_event w ev st
  = Settled (mkStores (updated done_row (id ev) (outbox st)) s').
Proof. unfold process_event. intros -> Hfit. by rewrite write_back_ok. Qed.

Lemma process_event_throw w ev st e s' :
  dispatch (event_type ev) w (payload ev) (graph_session st) = Throw e s' →
  countable_attempts ev →
  process_event w ev st
  = Settled (mkStores (updated (failed_row (attempts ev) e) (id ev) (outbox st)) s').
Proof. unfold process_event. intros -> Hc. by rewrite write_back_throw. Qed.

(** A record claimed with its [attempts] at the top of [INT]: neither
    outcome can be written, the row stays as it is and the error leaves the
    loop over the batch. *)
Lemma process_event_overflow w ev st :
  ev ∈ outbox st → int_max < attempts ev + 1 →
  process_event w ev st
  = Escaped (out_of_range "integer")
            (mkStores (outbox st)
               (session_of (dispatch (event_type ev) w (payload ev) (graph_session st)))).
Proof. intros Hev Ho. unfold process_event. by rewrite write_back_overflow. Qed.

End Outcomes.

(** C6, as the code has it. A claimed record whose [event_type] is none of
    the three the worker knows makes no call to the graph store (the
    session, its call log included, is as before); when one more attempt
    fits the [attempts] column its row is marked done, with one more
    attempt and no error written. *)
Theorem unknown_kind_marked_done (w : world) (ev r : row) (st : stores) :
  recognized (event_type ev) = false →
  unique_ids (outbox st) → find (id ev) (outbox st) = Some r →
  attempts r + 1 ≤ int_max →
  let st' := stores_of (process_event w ev st) in
  process_event w ev st = Settled st'
  ∧ graph_session st' = graph_session st
  ∧ calls (graph_session st') = calls (graph_session st)
  ∧ find (id ev) (outbox st') = Some (done_row r)
  ∧ status (done_row r) = Done
  ∧ attempts (done_row r) = attempts r + 1
  ∧ error (done_row r) = error r.
Proof.
  intros Hk Hnd Hr Hfit.
  rewrite (process_event_ok w ev st (graph_session st))
    by (by first [apply dispatch_unknown | apply (found_row_fits _ _ r)]).
  simpl. split; [done|]. split; [done|]. split; [done|]. split; [|done].
  by apply find_updated_own.
Qed.

Lemma unknown_kind_marked_done_witness :
  let ev := mkRow 7 "unknown.future_kind" ∅ 100 0 Processing None in
  let st := mkStores [ev] fresh_session in
  graph_session (stores_of (process_event sample_world ev st)) = fresh_session
  ∧ find 7 (outbox (stores_of (process_event sample_world ev st))) = Some (done_row ev).
Proof.
  intros ev st.
  destruct (unknown_kind_marked_done sample_world ev ev st) as (_ & H1 & _ & H2 & _).
  - reflexivity.
  - apply NoDup_singleton.
  - reflexivity.
  - by vm_compute.
  - split; [exact H1 | exact H2].
Defined.

(** C6, as stated, fails at the top of the [attempts] column: the
    [UPDATE] that marks the row done overflows, the one in the [catch]
    clause overflows as well, and the row of the record of an unknown kind
    stays in processing, not done. *)
Lemma unknown_kind_at_int_max_not_done :
  let ev := mkRow 7 "unknown.future_kind" ∅ 100 2147483647 Processing None in
  let st := mkStores [ev] fresh_session in
  recognized (event_type ev) = false
  ∧ find (id ev) (outbox st) = Some ev
  ∧ process_event sample_world ev st = Escaped (out_of_range "integer") st
  ∧ (status <$> find (id ev) (outbox (stores_of (process_event sample_world ev st))))
    = Some Processing
  ∧ (status <$> find (id ev) (outbox (stores_of (process_event sample_world ev st))))
    ≠ Some Done.
Proof. intros ev st. repeat split. discriminate. Qed.

Section Cycles.

Implicit Types (tbl : table) (r ev : row) (st : stores) (w : world).

Lemma cycle_unique_ids env ws st :
  unique_ids (outbox st) → unique_ids (outbox (cycle env ws st)).
Proof.
  intros Hnd. unfold cycle. destruct (BATCH_SIZE env) as [limit|]; [|done].
  destruct (claimBatch limit (outbox st)) as [e|[batch tbl']] eqn:Hc; [done|].
  destruct (claimBatch_spec _ _ _ _ Hnd Hc) as (Hnd' & _).
  unfold unique_ids. by rewrite process_batch_ids.
Qed.

(** A turn of the loop leaves every row that is not pending where it is. *)
Lemma cycle_skips env ws st r :
  unique_ids (outbox st) → r ∈ outbox st → status r ≠ Pending →
  r ∈ outbox (cycle env ws st).
Proof.
  intros Hnd Hr Hs. unfold cycle. destruct (BATCH_SIZE env) as [limit|]; [|done].
  destruct (claimBatch limit (outbox st)) as [e|[batch tbl']] eqn:Hc; [done|].
  destruct (claimBatch_skips _ _ _ _ r Hnd Hc Hr Hs) as [Hr' Hids].
  by apply process_batch_other.
Qed.


(** The claim over a table holding one pending record. *)
Lemma claimBatch_single limit r :
  0 < limit ≤ bigint_max → status r = Pending →
  claimBatch limit [r] = inr ([set_status Processing r], [set_status Processing r]).
Proof.
  intros Hl Hp. rewrite claimBatch_fits by lia.
  assert (Hids : claim_subquery limit [r] = [id r]).
  { unfold claim_subquery. simpl. rewrite filter_cons, filter_nil.
    unfold is_pending. rewrite bool_decide_eq_true_2 by done. simpl.
    destruct (Z.to_nat limit) eqn:Hn; [lia|]. simpl. by rewrite take_nil. }
  rewrite Hids. unfold update_returning. simpl.
  rewrite bool_decide_eq_true_2 by apply list_elem_of_here.
  rewrite filter_cons, filter_nil. simpl.
  destruct (decide (id r ∈ [id r])) as [_|Hn]; [done|].
  destruct Hn. apply list_elem_of_here.
Qed.

(** A turn of the loop over a table holding one pending record whose
    processing throws. *)
Lemma cycle_single_failure env limit ws r s e s' :
  BATCH_SIZE env = Some limit → 0 < limit ≤ bigint_max → status r = Pending →
  countable_attempts r →
  dispatch (event_type r) (ws (set_status Processing r)) (payload r) s = Throw e s' →
  cycle env ws (mkStores [r] s)
  = mkStores [failed_row (attempts r) e r] s'.
Proof.
  intros Hb Hl Hp Hc Hd. unfold cycle. rewrite Hb.
  cbn [outbox graph_session]. rewrite claimBatch_single by done.
  cbn [process_batch].
  rewrite (process_event_throw _ _ _ e s') by done.
  simpl. by rewrite bool_decide_eq_true_2.
Qed.

End Cycles.

(** The outcome write-back of a failure, on the row of the claimed record. *)
Lemma process_event_failure (w : world) (ev : row) (st : stores) (e : exn) (s' : session) :
  unique_ids (outbox st) → ev ∈ outbox st → countable_attempts ev →
  dispatch (event_type ev) w (payload ev) (graph_session st) = Throw e s' →
  let r' := failed_row (attempts ev) e ev in
  process_event w ev st = Settled (stores_of (process_event w ev st))
  ∧ find (id ev) (outbox (stores_of (process_event w ev st))) = Some r'
  ∧ attempts r' = attempts ev + 1
  ∧ error r' = Some (error_message e)
  ∧ (attempts ev + 1 < 5 → status r' = Pending)
  ∧ (attempts ev + 1 >= 5 → status r' = Failed).
Proof.
  intros Hnd Hev Hc Hd r'.
  rewrite (process_event_throw w ev st e s' Hd Hc). simpl.
  split; [done|]. split; [|split; [done|split; [done|split]]].
  - apply find_updated_own; [done|]. by apply find_unique.
  - intros Hlt. unfold retry_status.
    destruct (Z.geb_spec (attempts ev + 1) 5); [lia | done].
  - intros Hge. unfold retry_status.
    destruct (Z.geb_spec (attempts ev + 1) 5); [done | lia].
Qed.





(** C3, as the code has it. When a required field of a recognized kind is
    absent or empty, or the payload is [null], the transformer throws
    before it calls the graph store: the session, its call log included, is
    as before. When one more attempt fits the [attempts] column, the
    outcome write-back gives the row one more attempt and the message of
    what was thrown, which is not empty, as its error, and puts it back to
    pending when that makes fewer than 5 attempts; at 5 the row is
    failed. *)
Theorem missing_field_fails_before_write
    (w : world) (ev : row) (st : stores) (f : string) :
  f ∈ required_fields (event_type ev) →
  absent_or_empty (payload ev) f →
  unique_ids (outbox st) → ev ∈ outbox st → countable_attempts ev →
  let st' := stores_of (process_event w ev st) in
  let thrown := rejection (event_type ev) (payload ev) in
  let r' := failed_row (attempts ev) thrown ev in
  recognized (event_type ev) = true
  ∧ dispatch (event_type ev) w (payload ev) (graph_session st)
    = Throw thrown (graph_session st)
  ∧ process_event w ev st = Settled st'
  ∧ graph_session st' = graph_session st
  ∧ find (id ev) (outbox st') = Some r'
  ∧ attempts r' = attempts ev + 1
  ∧ error r' = Some (error_message thrown)
  ∧ error_message thrown ≠ ""
  ∧ (attempts ev + 1 < 5 → status r' = Pending)
  ∧ (attempts ev + 1 >= 5 → status r' = Failed).
Proof.
  intros Hf Hp Hnd Hev Hc st' thrown r'.
  pose proof (dispatch_rejects (event_type ev) w (payload ev) (graph_session st) f Hf Hp)
    as Hd.
  destruct (process_event_failure w ev st _ _ Hnd Hev Hc Hd)
    as (Hs & Hfind & Ha & He & Hlt & Hge).
  split; [by apply (required_fields_recognized _ f)|].
  split; [done|]. split; [done|]. split.
  { unfold st'. by rewrite (process_event_throw _ _ _ _ _ Hd Hc). }
  split; [done|]. split; [done|]. split; [done|].
  split; [apply rejection_message | done].
Qed.

Lemma missing_field_fails_before_write_witness :
  graph_session (stores_of (process_event sample_world malformed_row
                               (mkStores [malformed_row] fresh_session)))
  = fresh_session
  ∧ find 3 (outbox (stores_of (process_event sample_world malformed_row
                                  (mkStores [malformed_row] fresh_session))))
    = Some (mkRow 3 "triple.insert" (triple_payload "" "knows" "B") 100 1 Pending
                  (Some "Missing required triple fields")).
Proof.
  destruct (missing_field_fails_before_write sample_world malformed_row
              (mkStores [malformed_row] fresh_session) "subject")
    as (_ & _ & _ & Hs & Hf & _).
  - apply list_elem_of_here.
  - right. reflexivity.
  - apply NoDup_singleton.
  - apply list_elem_of_here.
  - vm_compute. split; discriminate.
  - split; [exact Hs | exact Hf].
Defined.

(** C3, as stated, fails: a record claimed with 4 attempts whose subject is
    empty does not go back to pending, its row is failed; and for a record
    claimed with the largest [INT] as its attempts the outcome [UPDATE]
    overflows, so that its row stays in processing, with the attempts and
    the error it had. *)
Lemma missing_field_at_cap_not_pending :
  let st := mkStores [exhausted_row] fresh_session in
  let st_max := mkStores [malformed_row_at_int_max] fresh_session in
  "subject" ∈ required_fields (event_type exhausted_row)
  ∧ absent_or_empty (payload exhausted_row) "subject"
  ∧ unique_ids (outbox st) ∧ exhausted_row ∈ outbox st
  ∧ (status <$> find (id exhausted_row)
                     (outbox (stores_of (process_event sample_world exhausted_row st))))
    = Some Failed
  ∧ (status <$> find (id exhausted_row)
                     (outbox (stores_of (process_event sample_world exhausted_row st))))
    ≠ Some Pending
  ∧ absent_or_empty (payload malformed_row_at_int_max) "subject"
  ∧ unique_ids (outbox st_max) ∧ malformed_row_at_int_max ∈ outbox st_max
  ∧ process_event sample_world malformed_row_at_int_max st_max
    = Escaped (out_of_range "integer") st_max
  ∧ find (id malformed_row_at_int_max)
         (outbox (stores_of (process_event sample_world malformed_row_at_int_max st_max)))
    = Some malformed_row_at_int_max.
Proof.
  intros st st_max.
  split; [apply list_elem_of_here|]. split; [right; reflexivity|].
  split; [apply NoDup_singleton|]. split; [apply list_elem_of_here|].
  split; [reflexivity|]. split; [discriminate|].
  split; [right; reflexivity|].
  split; [apply NoDup_singleton|]. split; [apply list_elem_of_here|].
  split; reflexivity.
Qed.

(* ===================================================================== *)
(** * Properties: MERGE queries *)
(* ===================================================================== *)

Section Merge.

Implicit Types (ps : props) (q : list clause) (c : clause) (bs : bindings) (g : graph).

Lemma grows_refl g : grows g g.
Proof. by split. Qed.

Lemma grows_trans g1 g2 g3 : grows g1 g2 → grows g2 g3 → grows g1 g3.
Proof. intros [H1 H2] [H3 H4]. split; eauto. Qed.

Lemma lookup_strip names (p : props) i :
  strip names p !! i = if decide (i ∈ names) then None else p !! i.
Proof.
  induction names as [|n names IH].
  - done.
  - change (strip (n :: names) p) with (delete n (strip names p)).
    destruct (decide (i ∈ n :: names)) as [Hin|Hnin].
    + apply elem_of_cons in Hin as [->|Hin]; [by rewrite lookup_delete_eq|].
      destruct (decide (n = i)) as [->|Hne]; [by rewrite lookup_delete_eq|].
      rewrite lookup_delete_ne, IH by done. by rewrite decide_True.
    + rewrite lookup_delete_ne, IH.
      * rewrite decide_False; [done|]. intros ?. apply Hnin. by right.
      * intros ->. apply Hnin. left.
Qed.

Lemma strip_insert names (p : props) n v :
  n ∈ names → strip names (<[n := v]> p) = strip names p.
Proof.
  intros Hn. apply map_eq. intros i. rewrite !lookup_strip.
  destruct (decide (i ∈ names)); [done|]. rewrite lookup_insert_ne; [done|].
  by intros ->.
Qed.

Lemma strip_delete names (p : props) n :
  n ∈ names → strip names (delete n p) = strip names p.
Proof.
  intros Hn. apply map_eq. intros i. rewrite !lookup_strip.
  destruct (decide (i ∈ names)); [done|]. rewrite lookup_delete_ne; [done|].
  by intros ->.
Qed.

Lemma strip_nil (p : props) : strip [] p = p.
Proof. done. Qed.

Lemma set_all_strip ps (l : assignments) names (t t' : props) :
  Forall (λ a, a.1 ∈ names) l → set_all ps l t = inr t' → strip names t' = strip names t.
Proof.
  revert t. induction l as [|[p q0] l IH]; intros t Hl Hs; simpl in Hs.
  - by injection Hs as <-.
  - apply Forall_cons_1 in Hl as [Hp Hl]. simpl in Hp.
    destruct (param ps q0) as [e|v]; simpl in Hs; [done|].
    rewrite (IH _ Hl Hs). destruct (null v); [by apply strip_delete | by apply strip_insert].
Qed.

Lemma set_all_total ps (l : assignments) (t : props) :
  passed ps l → ∃ t', set_all ps l t = inr t'.
Proof.
  revert t. induction l as [|[p q0] l IH]; intros t Hl; simpl.
  - by eexists.
  - apply Forall_cons_1 in Hl as [[v Hv] Hl]. simpl in Hv.
    unfold param. rewrite Hv. simpl. apply IH, Hl.
Qed.

Lemma pattern_values_total ps (l : assignments) :
  passed_not_null ps l → ∃ vs, pattern_values ps l = inr vs.
Proof.
  induction l as [|[p q0] l IH]; intros Hl; simpl.
  - by eexists.
  - apply Forall_cons_1 in Hl as [(v & Hv & Hn) Hl]. simpl in Hv.
    unfold param. rewrite Hv. simpl. rewrite Hn.
    destruct (IH Hl) as [vs ->]. simpl. by eexists.
Qed.

Lemma pattern_values_ext ps ps' (l : assignments) :
  (∀ n, n ∈ l.*2 → ps !! n = ps' !! n) → pattern_values ps l = pattern_values ps' l.
Proof.
  induction l as [|[p q0] l IH]; intros Hl; simpl; [done|].
  unfold param. rewrite <- (Hl q0) by (simpl; left).
  rewrite IH; [done|]. intros n Hn. apply Hl. simpl. by right.
Qed.

Lemma merge_node_key_eq ps label kp v :
  ps !! kp = Some v → null v = false → merge_node_key ps label kp = inr (label, v).
Proof.
  intros Hv Hn. unfold merge_node_key, param. rewrite Hv. simpl. by rewrite Hn.
Qed.

Lemma merge_node_key_label ps label kp (k : node_key) :
  merge_node_key ps label kp = inr k → k.1 = label.
Proof.
  unfold merge_node_key. destruct (param ps kp) as [e|v]; simpl; [done|].
  destruct (null v); [done|]. by intros [= <-].
Qed.

Lemma merge_node_key_ext ps ps' label kp :
  ps !! kp = ps' !! kp → merge_node_key ps label kp = merge_node_key ps' label kp.
Proof. intros H. unfold merge_node_key, param. by rewrite H. Qed.

End Merge.

Section MergeRuns.

Implicit Types (ps : props) (q : list clause) (c : clause) (bs : bindings) (g : graph).


Lemma exec_cons ps c q (st : bindings * graph) :
  exec ps (c :: q) st = exec_clause ps c st ≫= exec ps q.
Proof. done. Qed.

Lemma exec_cons_inv ps c q (st st'' : bindings * graph) :
  exec ps (c :: q) st = inr st'' →
  ∃ st', exec_clause ps c st = inr st' ∧ exec ps q st' = inr st''.
Proof.
  rewrite exec_cons. destruct (exec_clause ps c st) as [e|st']; simpl; [done|].
  intros H. by exists st'.
Qed.

Lemma exec_clause_node ps var label kp oc om bs g bs' g' :
  exec_clause ps (MergeNode var label kp oc om) (bs, g) = inr (bs', g') →
  ∃ k p, merge_node_key ps label kp = inr k
         ∧ match nodes g !! k with
           | Some p0 => set_all ps om p0
           | None => set_all ps oc {[ "id" := k.2 ]}
           end = inr p
         ∧ bs' = <[var := k]> bs
         ∧ g' = mkGraph (<[k := p]> (nodes g)) (rels g).
Proof.
  simpl. destruct (merge_node_key ps label kp) as [e|k]; simpl; [done|].
  destruct (match nodes g !! k with Some _ => _ | None => _ end) as [e|p] eqn:Hw;
    simpl; [done|].
  intros [= <- <-]. by exists k, p.
Qed.

Lemma exec_clause_rel ps src type ident dst oc om bs g bs' g' :
  exec_clause ps (MergeRel src type ident dst oc om) (bs, g) = inr (bs', g') →
  ∃ k p, merge_rel_key ps bs src type ident dst = inr k
         ∧ match rels g !! k with
           | Some p0 => set_all ps om p0
           | None => set_all ps oc (list_to_map k.2)
           end = inr p
         ∧ bs' = bs
         ∧ g' = mkGraph (nodes g) (<[k := p]> (rels g)).
Proof.
  simpl. destruct (merge_rel_key ps bs src type ident dst) as [e|k]; simpl; [done|].
  destruct (match rels g !! k with Some _ => _ | None => _ end) as [e|p] eqn:Hw;
    simpl; [done|].
  intros [= <- <-]. by exists k, p.
Qed.

Lemma exec_clause_grows ps c bs g bs' g' :
  exec_clause ps c (bs, g) = inr (bs', g') → grows g g'.
Proof.
  destruct c as [var label kp oc om | src type ident dst oc om]; intros H.
  - apply exec_clause_node in H as (k & p & _ & _ & _ & ->).
    split; simpl; [|done]. intros k' Hk'. apply lookup_insert_is_Some.
    destruct (decide (k = k')); auto.
  - apply exec_clause_rel in H as (k & p & _ & _ & _ & ->).
    split; simpl; [done|]. intros k' Hk'. apply lookup_insert_is_Some.
    destruct (decide (k = k')); auto.
Qed.

Lemma exec_grows ps q bs g bs' g' :
  exec ps q (bs, g) = inr (bs', g') → grows g g'.
Proof.
  revert bs g. induction q as [|c q IH]; intros bs g H.
  - injection H as <- <-. apply grows_refl.
  - rewrite exec_cons in H.
    destruct (exec_clause ps c (bs, g)) as [e|[bs1 g1]] eqn:Hc; simpl in H; [done|].
    eapply grows_trans; [by eapply exec_clause_grows | by eapply IH].
Qed.

Lemma matched_grows ps q bs g g' : grows g g' → matched ps q bs g → matched ps q bs g'.
Proof.
  intros [Hn Hr]. revert bs.
  induction q as [|[var label kp oc om | src type ident dst oc om] q IH];
    intros bs; simpl; [done| |]; intros (k & Hk & Hin & Hm); exists k; auto.
Qed.

(** After a query has run, each of its patterns is in the graph. *)
Lemma exec_matched ps q bs g bs' g' :
  exec ps q (bs, g) = inr (bs', g') → matched ps q bs g'.
Proof.
  revert bs g. induction q as [|c q IH]; intros bs g H; [done|].
  rewrite exec_cons in H.
  destruct (exec_clause ps c (bs, g)) as [e|[bs1 g1]] eqn:Hc; simpl in H; [done|].
  pose proof (exec_grows _ _ _ _ _ _ H) as [Hgn Hgr].
  destruct c as [var label kp oc om | src type ident dst oc om].
  - apply exec_clause_node in Hc as (k & p & Hk & _ & -> & ->).
    simpl. exists k. split; [done|]. split; [|by eapply IH].
    apply Hgn. simpl. by rewrite lookup_insert_eq.
  - apply exec_clause_rel in Hc as (k & p & Hk & _ & -> & ->).
    simpl. exists k. split; [done|]. split; [|by eapply IH].
    apply Hgr. simpl. by rewrite lookup_insert_eq.
Qed.

Lemma forget_insert_node nv rv g k (p0 p : props) :
  nodes g !! k = Some p0 → strip (nv k.1) p = strip (nv k.1) p0 →
  forget nv rv (mkGraph (<[k := p]> (nodes g)) (rels g)) = forget nv rv g.
Proof.
  intros Hk Hp. unfold forget. simpl. f_equal.
  rewrite (map_imap_insert_Some _ _ _ _ (strip (nv k.1) p)) by done.
  apply insert_id. rewrite map_lookup_imap. unfold node_key in *.
  rewrite Hk. simpl. by rewrite Hp.
Qed.

Lemma forget_insert_rel nv rv g k (p0 p : props) :
  rels g !! k = Some p0 → strip (rv k.1.1.1) p = strip (rv k.1.1.1) p0 →
  forget nv rv (mkGraph (nodes g) (<[k := p]> (rels g))) = forget nv rv g.
Proof.
  intros Hk Hp. unfold forget. simpl. f_equal.
  rewrite (map_imap_insert_Some _ _ _ _ (strip (rv k.1.1.1) p)) by done.
  apply insert_id. rewrite map_lookup_imap. unfold rel_key, node_key in *.
  rewrite Hk. simpl. by rewrite Hp.
Qed.

(** A query all of whose patterns are found changes only the properties its
    [ON MATCH] assignments write. *)
Lemma exec_rerun nv rv ps q bs g bs' g' :
  Forall (respects nv rv) q → matched ps q bs g →
  exec ps q (bs, g) = inr (bs', g') → forget nv rv g' = forget nv rv g.
Proof.
  revert bs g. induction q as [|c q IH]; intros bs g Hq Hm H.
  - by injection H as <- <-.
  - apply Forall_cons_1 in Hq as [Hc Hq]. rewrite exec_cons in H.
    destruct (exec_clause ps c (bs, g)) as [e|[bs1 g1]] eqn:Hx; simpl in H; [done|].
    pose proof (exec_clause_grows _ _ _ _ _ _ Hx) as Hg.
    destruct c as [var label kp oc om | src type ident dst oc om].
    + apply exec_clause_node in Hx as (k & p & Hk & Hw & -> & ->).
      simpl in Hm. destruct Hm as (k' & Hk' & [p0 Hp0] & Hm).
      rewrite Hk in Hk'. injection Hk' as <-. rewrite Hp0 in Hw.
      rewrite (IH _ _ Hq (matched_grows _ _ _ _ _ Hg Hm) H).
      apply (forget_insert_node nv rv g k p0 p Hp0).
      eapply set_all_strip; [|exact Hw]. simpl in Hc.
      by rewrite (merge_node_key_label _ _ _ _ Hk).
    + apply exec_clause_rel in Hx as (k & p & Hk & Hw & -> & ->).
      simpl in Hm. destruct Hm as (k' & Hk' & [p0 Hp0] & Hm).
      rewrite Hk in Hk'. injection Hk' as <-. rewrite Hp0 in Hw.
      rewrite (IH _ _ Hq (matched_grows _ _ _ _ _ Hg Hm) H).
      apply (forget_insert_rel nv rv g k p0 p Hp0).
      eapply set_all_strip; [|exact Hw]. simpl in Hc.
      unfold merge_rel_key in Hk.
      destruct (bound bs src); simpl in Hk; [done|].
      destruct (bound bs dst); simpl in Hk; [done|].
      destruct (pattern_values ps ident); simpl in Hk; [done|].
      by injection Hk as <-.
Qed.

(** A runnable query does not fail. *)
Lemma exec_total ps q (vars : list string) bs g :
  runnable ps q vars → (∀ v, v ∈ vars → is_Some (bs !! v)) →
  ∃ bs' g', exec ps q (bs, g) = inr (bs', g').
Proof.
  revert vars bs g.
  induction q as [|[var label kp oc om | src type ident dst oc om] q IH];
    intros vars bs g Hr Hb.
  - by exists bs, g.
  - destruct Hr as (Hk & Hoc & Hom & Hr).
    apply Forall_cons_1 in Hk as [(v & Hv & Hn) _]. simpl in Hv.
    assert (∃ p, match nodes g !! (label, v) with
                 | Some p0 => set_all ps om p0
                 | None => set_all ps oc {[ "id" := v ]}
                 end = inr p) as [p Hp].
    { destruct (nodes g !! _); by apply set_all_total. }
    destruct (IH (var :: vars) (<[var := (label, v)]> bs)
                (mkGraph (<[(label, v) := p]> (nodes g)) (rels g)) Hr)
      as (bs' & g' & He).
    { intros v' [->|Hv']%elem_of_cons.
      - by rewrite lookup_insert_eq.
      - apply lookup_insert_is_Some. destruct (decide (var = v')); auto. }
    exists bs', g'. rewrite exec_cons. cbn [exec_clause].
    rewrite (merge_node_key_eq _ _ _ v Hv Hn). simpl. simpl in Hp. rewrite Hp.
    simpl. exact He.
  - destruct Hr as (Hs & Hd & Hk & Hoc & Hom & Hr).
    destruct (pattern_values_total _ _ Hk) as [vs Hvs].
    destruct (Hb _ Hs) as [a Ha]. destruct (Hb _ Hd) as [b Hb'].
    assert (∃ p, match rels g !! (type, a, b, vs) with
                 | Some p0 => set_all ps om p0
                 | None => set_all ps oc (list_to_map vs)
                 end = inr p) as [p Hp].
    { destruct (rels g !! _); by apply set_all_total. }
    destruct (IH vars bs (mkGraph (nodes g) (<[(type, a, b, vs) := p]> (rels g))) Hr Hb)
      as (bs' & g' & He).
    exists bs', g'. rewrite exec_cons. cbn [exec_clause]. unfold merge_rel_key, bound.
    rewrite Ha, Hb', Hvs. simpl. simpl in Hp. rewrite Hp. simpl. exact He.
Qed.

(** Whether the patterns are found depends on the parameters they read. *)
Lemma matched_ext ps ps' q bs g :
  (∀ c n, c ∈ q → n ∈ key_params c → ps !! n = ps' !! n) →
  matched ps q bs g → matched ps' q bs g.
Proof.
  revert bs.
  induction q as [|[var label kp oc om | src type ident dst oc om] q IH];
    intros bs Hext; cbn [matched]; [done| |].
  - intros (k & Hk & Hin & Hm). exists k. split; [|split; [done|]].
    + rewrite <- (merge_node_key_ext ps ps'); [done|].
      apply (Hext (MergeNode var label kp oc om)); left.
    + apply IH; [|done]. intros c n Hc Hn. apply (Hext c); [by right|done].
  - intros (k & Hk & Hin & Hm). exists k. split; [|split; [done|]].
    + unfold merge_rel_key in *. rewrite <- (pattern_values_ext ps ps'); [done|].
      intros n Hn. apply (Hext (MergeRel src type ident dst oc om)); [left|done].
    + apply IH; [|done]. intros c n Hc Hn. apply (Hext c); [by right|done].
Qed.

Lemma dom_forget_nodes nv rv g : dom (nodes (forget nv rv g)) = dom (nodes g).
Proof.
  apply set_eq. intros k. rewrite !elem_of_dom. simpl.
  rewrite map_lookup_imap. by destruct (nodes g !! k).
Qed.

Lemma dom_forget_rels nv rv g : dom (rels (forget nv rv g)) = dom (rels g).
Proof.
  apply set_eq. intros k. rewrite !elem_of_dom. simpl.
  rewrite map_lookup_imap. by destruct (rels g !! k).
Qed.

End MergeRuns.

Section Frame.

Implicit Types (ps : props) (q : list clause) (c : clause) (bs : bindings) (g : graph).

Lemma set_all_nil ps (t : props) : set_all ps [] t = inr t.
Proof. done. Qed.

(** A query all of whose patterns are found leaves every node and
    relationship as it was, those with [ON MATCH] assignments apart. *)
Lemma exec_rerun_frame ps q bs g bs' g' :
  matched ps q bs g → exec ps q (bs, g) = inr (bs', g') →
  (∀ k, k ∉ (rewritten ps q bs).1 → nodes g' !! k = nodes g !! k)
  ∧ (∀ k, k ∉ (rewritten ps q bs).2 → rels g' !! k = rels g !! k).
Proof.
  revert bs g. induction q as [|c q IH]; intros bs g Hm H.
  - by injection H as <- <-.
  - apply exec_cons_inv in H as ([bs1 g1] & Hx & H).
    pose proof (exec_clause_grows _ _ _ _ _ _ Hx) as Hg.
    destruct c as [var label kp oc om | src type ident dst oc om].
    + apply exec_clause_node in Hx as (k0 & p & Hk & Hw & -> & ->).
      cbn [matched] in Hm. destruct Hm as (k' & Hk' & [p0 Hp0] & Hm).
      rewrite Hk in Hk'. injection Hk' as <-. rewrite Hp0 in Hw.
      destruct (IH _ _ (matched_grows _ _ _ _ _ Hg Hm) H) as [IHn IHr].
      cbn [rewritten]. rewrite Hk.
      destruct (rewritten ps q (<[var:=k0]> bs)) as [ns rs]. simpl in *.
      split; [|done]. intros k Hk0. destruct om as [|a om].
      * injection Hw as <-. rewrite IHn by done. by rewrite insert_id.
      * apply not_elem_of_cons in Hk0 as [Hne Hk0].
        rewrite IHn by done. by rewrite lookup_insert_ne.
    + apply exec_clause_rel in Hx as (k0 & p & Hk & Hw & -> & ->).
      cbn [matched] in Hm. destruct Hm as (k' & Hk' & [p0 Hp0] & Hm).
      rewrite Hk in Hk'. injection Hk' as <-. rewrite Hp0 in Hw.
      destruct (IH _ _ (matched_grows _ _ _ _ _ Hg Hm) H) as [IHn IHr].
      cbn [rewritten]. rewrite Hk.
      destruct (rewritten ps q bs) as [ns rs]. simpl in *.
      split; [done|]. intros k Hk0. destruct om as [|a om].
      * injection Hw as <-. rewrite IHr by done. by rewrite insert_id.
      * apply not_elem_of_cons in Hk0 as [Hne Hk0].
        rewrite IHr by done. by rewrite lookup_insert_ne.
Qed.

Lemma rewritten_ext ps ps' q bs :
  (∀ c n, c ∈ q → n ∈ key_params c → ps !! n = ps' !! n) →
  rewritten ps q bs = rewritten ps' q bs.
Proof.
  revert bs.
  induction q as [|[var label kp oc om | src type ident dst oc om] q IH];
    intros bs Hext; cbn [rewritten]; [done| |].
  - assert (merge_node_key ps label kp = merge_node_key ps' label kp) as <-.
    { apply merge_node_key_ext. apply (Hext (MergeNode var label kp oc om)); left. }
    destruct (merge_node_key ps label kp) as [e|k]; [done|].
    rewrite IH; [done|]. intros c n Hc Hn. apply (Hext c); [by right|done].
  - assert (merge_rel_key ps bs src type ident dst
            = merge_rel_key ps' bs src type ident dst) as <-.
    { unfold merge_rel_key. rewrite (pattern_values_ext ps ps'); [done|].
      intros n Hn. apply (Hext (MergeRel src type ident dst oc om)); [left|done]. }
    destruct (merge_rel_key ps bs src type ident dst) as [e|k]; [done|].
    rewrite IH; [done|]. intros c n Hc Hn. apply (Hext c); [by right|done].
Qed.

End Frame.

(* ===================================================================== *)
(** * Properties: the transformers *)
(* ===================================================================== *)

Section Transformers.

Implicit Types (w : world) (payload : props) (s : session) (et : string).

Lemma truthy_not_null v : truthy v = true → null v = false.
Proof. by destruct v. Qed.

Lemma or_else_truthy a b : truthy b = true → truthy (or_else a b) = true.
Proof. unfold or_else. by destruct (truthy a) eqn:Ha. Qed.

#[local] Ltac kinds et :=
  unfold valid, recognized, required_fields, query_of, params_of, dispatch,
         volatile_nodes, volatile_rels in *;
  destruct (String.eqb et "triple.insert");
    [|destruct (String.eqb et "factlet.insert");
      [|destruct (String.eqb et "source_participation.insert")]].

Lemma dispatch_valid et w payload s :
  recognized et = true → valid et payload = true →
  dispatch et w payload s = run (store_fault w) (query_of et) (params_of et w payload) s.
Proof.
  intros Hk Hv. kinds et; simpl in Hv; try done.
  - unfold processTriple. repeat (apply andb_prop in Hv as [-> Hv]). done.
  - unfold processFactlet. repeat (apply andb_prop in Hv as [-> Hv]). done.
  - unfold processSourceParticipation.
    repeat (apply andb_prop in Hv as [-> Hv]). done.
Qed.

Lemma dispatch_not_valid et w payload s :
  valid et payload = false →
  dispatch et w payload s = Throw (Error (validation_message et)) s.
Proof.
  intros Hv. unfold valid in Hv.
  assert (∃ f, f ∈ required_fields et ∧ truthy (field payload f) = false)
    as (f & Hf & Hfalsy).
  { induction (required_fields et) as [|f l IH]; [done|]. simpl in Hv.
    destruct (truthy (field payload f)) eqn:Hf.
    - destruct (IH Hv) as (f' & ? & ?). exists f'. split; [by right|done].
    - exists f. split; [left|done]. }
  by apply (dispatch_invalid et w payload s f).
Qed.

(** A lookup of a literal key in a parameter object. *)
#[local] Ltac passed_param :=
  lazymatch goal with
  | |- is_Some (_ !! _) => eexists; reflexivity
  | |- ∃ v, _ !! _ = Some v ∧ null v = false =>
      eexists; split; [reflexivity | by (try apply truthy_not_null)]
  end.

Lemma query_runnable et w payload :
  recognized et = true → valid et payload = true →
  runnable (params_of et w payload) (query_of et) [].
Proof.
  intros Hk Hv. kinds et; simpl in Hv; try done;
    repeat (apply andb_prop in Hv as [? Hv]);
    cbn [runnable cypher_triple cypher_factlet cypher_participation];
    unfold passed, passed_not_null;
    repeat first
      [ split
      | apply Forall_nil_2
      | apply Forall_cons_2
      | passed_param
      | set_solver ].
Qed.

(** The parameters the patterns read do not depend on the world. *)
Lemma query_keys_stable et w w' payload c n :
  c ∈ query_of et → n ∈ key_params c →
  params_of et w payload !! n = params_of et w' payload !! n.
Proof.
  intros Hc Hn. kinds et;
    repeat (apply elem_of_cons in Hc as [->|Hc]);
    try (by apply elem_of_nil in Hc);
    simpl in Hn;
    repeat (apply elem_of_cons in Hn as [->|Hn]);
    try (by apply elem_of_nil in Hn);
    reflexivity.
Qed.

(** A repeat observation writes "last observed" properties only. *)
Lemma query_respects et :
  Forall (respects (volatile_nodes et) (volatile_rels et)) (query_of et).
Proof.
  kinds et; repeat first [apply Forall_nil_2 | apply Forall_cons_2]; simpl;
    repeat first [apply Forall_nil_2 | apply Forall_cons_2]; simpl; set_solver.
Qed.

End Transformers.

Section Observed.

Implicit Types (w : world) (payload : props) (s : session) (et : string) (ps : props).

Lemma pattern_values_single ps p q0 v :
  ps !! q0 = Some v → null v = false → pattern_values ps [(p, q0)] = inr [(p, v)].
Proof. intros Hv Hn. simpl. unfold param. rewrite Hv. simpl. by rewrite Hn. Qed.

Lemma merge_rel_key_eq ps (bs : bindings) src type ident dst a b vs :
  bs !! src = Some a → bs !! dst = Some b → pattern_values ps ident = inr vs →
  merge_rel_key ps bs src type ident dst = inr (type, a, b, vs).
Proof.
  intros Ha Hb Hvs. unfold merge_rel_key, bound. rewrite Ha, Hb. simpl.
  by rewrite Hvs.
Qed.

(** The patterns a repeat observation of a payload writes to. *)
Lemma query_rewritten et w payload :
  recognized et = true → valid et payload = true →
  rewritten (params_of et w payload) (query_of et) ∅ = observed et payload.
Proof.
  intros Hk Hv. unfold observed.
  unfold valid, recognized, required_fields, query_of, params_of in *.
  destruct (String.eqb et "triple.insert");
    [|destruct (String.eqb et "factlet.insert");
      [|destruct (String.eqb et "source_participation.insert")]];
    simpl in Hv; try done; repeat (apply andb_prop in Hv as [? Hv]).
  - unfold cypher_triple. cbn [rewritten].
    rewrite (merge_node_key_eq _ "Entity" "sid" (JStr (sha256 (field payload "subject"))))
      by done.
    rewrite (merge_node_key_eq _ "Entity" "oid" (JStr (sha256 (field payload "object"))))
      by done.
    rewrite (merge_rel_key_eq _ _ "s" "ASSERTS" _ "o"
               ("Entity", JStr (sha256 (field payload "subject")))
               ("Entity", JStr (sha256 (field payload "object")))
               [("predicate", field payload "predicate")]); [done|done|done|].
    apply pattern_values_single; [done | by apply truthy_not_null].
  - unfold cypher_participation. cbn [rewritten].
    rewrite (merge_node_key_eq _ "SourceDomain" "domainId"
               (JStr (sha256 (field payload "source_domain")))) by done.
    rewrite (merge_node_key_eq _ "Crouton" "croutonId" (field payload "crouton_id"))
      by (done || by apply truthy_not_null).
    rewrite (merge_node_key_eq _ "SourceParticipation" "participationId"
               (participation_key payload).2) by done.
    rewrite (merge_rel_key_eq _ _ "sd" "HAS_PARTICIPATION" [] "sp"
               ("SourceDomain", JStr (sha256 (field payload "source_domain")))
               (participation_key payload) []) by done.
    by rewrite (merge_rel_key_eq _ _ "sp" "TRACKS_CROUTON" [] "c"
                  (participation_key payload)
                  ("Crouton", field payload "crouton_id") []).
Qed.

End Observed.

Section Idempotence.

Implicit Types (w : world) (payload : props) (s : session) (et : string).

Lemma run_fault e q ps s :
  run (Some e) q ps s = Throw e (mkSession (store s) ((q, ps) :: calls s)).
Proof. done. Qed.

Lemma run_exec q ps s bs g' :
  exec ps q (∅, store s) = inr (bs, g') →
  run None q ps s = Ok (mkSession g' ((q, ps) :: calls s)).
Proof. unfold run. by intros ->. Qed.

(** A valid payload of a recognized kind, on a healthy store: the query
    runs, and the session holds what it wrote. *)
Lemma dispatch_writes et w payload s :
  recognized et = true → valid et payload = true → store_fault w = None →
  ∃ bs g', exec (params_of et w payload) (query_of et) (∅, store s) = inr (bs, g')
           ∧ dispatch et w payload s
             = Ok (mkSession g' ((query_of et, params_of et w payload) :: calls s)).
Proof.
  intros Hk Hv Hf.
  destruct (exec_total (params_of et w payload) (query_of et) [] ∅ (store s))
    as (bs & g' & He).
  - by apply query_runnable.
  - intros v Hv'. by apply elem_of_nil in Hv'.
  - exists bs, g'. split; [done|].
    rewrite dispatch_valid, Hf by done. by apply (run_exec _ _ _ bs).
Qed.

(** Otherwise the graph is as before. *)
Lemma dispatch_inert et w payload s :
  recognized et = false ∨ valid et payload = false ∨ is_Some (store_fault w) →
  store (session_of (dispatch et w payload s)) = store s.
Proof.
  destruct (valid et payload) eqn:Hv; [|by rewrite dispatch_not_valid].
  destruct (recognized et) eqn:Hk; [|by rewrite dispatch_unknown].
  intros [?|[?|[e He]]]; [done|done|].
  by rewrite dispatch_valid, He, run_fault.
Qed.

Lemma dispatch_settles et w payload s :
  recognized et = true → valid et payload = true → store_fault w = None →
  matched (params_of et w payload) (query_of et) ∅
          (store (session_of (dispatch et w payload s))).
Proof.
  intros Hk Hv Hf.
  destruct (dispatch_writes et w payload s Hk Hv Hf) as (bs & g' & He & ->).
  simpl. by eapply exec_matched.
Qed.

(** Once the patterns of the payload are in the graph, one more application
    changes "last observed" properties only. *)
Lemma dispatch_again et w0 w payload s :
  recognized et = true → valid et payload = true →
  matched (params_of et w0 payload) (query_of et) ∅ (store s) →
  forget (volatile_nodes et) (volatile_rels et)
         (store (session_of (dispatch et w payload s)))
  = forget (volatile_nodes et) (volatile_rels et) (store s)
  ∧ matched (params_of et w0 payload) (query_of et) ∅
            (store (session_of (dispatch et w payload s))).
Proof.
  intros Hk Hv Hm.
  destruct (store_fault w) as [e|] eqn:Hf.
  { rewrite dispatch_inert; [done|]. right; right. by rewrite Hf. }
  destruct (dispatch_writes et w payload s Hk Hv Hf) as (bs & g' & He & ->).
  simpl. split.
  - apply (exec_rerun _ _ _ _ _ _ _ _ (query_respects et)) in He; [done|].
    apply (matched_ext (params_of et w0 payload)); [|done].
    intros c n Hc Hn. by apply query_keys_stable with c.
  - apply (matched_grows _ _ _ (store s)); [|done]. by eapply exec_grows.
Qed.

Lemma apply_all_again et w0 ws payload s :
  recognized et = true → valid et payload = true →
  matched (params_of et w0 payload) (query_of et) ∅ (store s) →
  forget (volatile_nodes et) (volatile_rels et) (store (apply_all et payload ws s))
  = forget (volatile_nodes et) (volatile_rels et) (store s).
Proof.
  intros Hk Hv. unfold apply_all. revert s.
  induction ws as [|w ws IH]; intros s Hm; simpl; [done|].
  destruct (dispatch_again et w0 w payload s Hk Hv Hm) as [Hf Hm'].
  by rewrite (IH _ Hm').
Qed.

Lemma apply_all_inert et ws payload s :
  recognized et = false ∨ valid et payload = false →
  store (apply_all et payload ws s) = store s.
Proof.
  intros H. unfold apply_all. revert s.
  induction ws as [|w ws IH]; intros s; simpl; [done|].
  rewrite IH. apply dispatch_inert. tauto.
Qed.

Lemma forget_none nv rv g :
  (∀ l, nv l = []) → (∀ t, rv t = []) → forget nv rv g = g.
Proof.
  intros Hn Hr. destruct g as [ns rs]. unfold forget. simpl. f_equal.
  - apply map_eq. intros k. rewrite map_lookup_imap, Hn.
    by destruct (ns !! k).
  - apply map_eq. intros k. rewrite map_lookup_imap, Hr.
    by destruct (rs !! k).
Qed.

Lemma forget_nodes_none nv rv g g' :
  (∀ l, nv l = []) → forget nv rv g = forget nv rv g' → nodes g = nodes g'.
Proof.
  intros Hn [= H _]. apply map_eq. intros k.
  apply (f_equal (λ m, m !! k)) in H. rewrite !map_lookup_imap, Hn in H.
  by destruct (nodes g !! k), (nodes g' !! k).
Qed.

Lemma forget_rels_none nv rv g g' :
  (∀ t, rv t = []) → forget nv rv g = forget nv rv g' → rels g = rels g'.
Proof.
  intros Hr [= _ H]. apply map_eq. intros k.
  apply (f_equal (λ m, m !! k)) in H. rewrite !map_lookup_imap, Hr in H.
  by destruct (rels g !! k), (rels g' !! k).
Qed.

(** Applying a payload again and again, whatever the clock reads and
    whether or not the store is healthy then, changes only the "last
    observed" properties of its kind. *)
Lemma apply_all_forget et payload w ws s :
  store_fault w = None →
  forget (volatile_nodes et) (volatile_rels et) (store (apply_all et payload (w :: ws) s))
  = forget (volatile_nodes et) (volatile_rels et) (store (apply_all et payload [w] s)).
Proof.
  intros Hf.
  destruct (recognized et) eqn:Hk; [|by rewrite !apply_all_inert by by left].
  destruct (valid et payload) eqn:Hv; [|by rewrite !apply_all_inert by by right].
  change (apply_all et payload (w :: ws) s)
    with (apply_all et payload ws (session_of (dispatch et w payload s))).
  change (apply_all et payload [w] s) with (session_of (dispatch et w payload s)).
  apply (apply_all_again et w); [done|done|]. by apply dispatch_settles.
Qed.

(** ... and writes to nothing but what the payload is about. *)
Lemma dispatch_again_frame et w0 w payload s :
  recognized et = true → valid et payload = true →
  matched (params_of et w0 payload) (query_of et) ∅ (store s) →
  (∀ k, k ∉ (observed et payload).1 →
        nodes (store (session_of (dispatch et w payload s))) !! k = nodes (store s) !! k)
  ∧ (∀ k, k ∉ (observed et payload).2 →
          rels (store (session_of (dispatch et w payload s))) !! k = rels (store s) !! k).
Proof.
  intros Hk Hv Hm.
  destruct (store_fault w) as [e|] eqn:Hf.
  { rewrite dispatch_inert; [done|]. right; right. by rewrite Hf. }
  destruct (dispatch_writes et w payload s Hk Hv Hf) as (bs & g' & He & ->).
  simpl. rewrite <- (query_rewritten et w payload Hk Hv).
  apply (exec_rerun_frame _ _ _ _ bs); [|done].
  apply (matched_ext (params_of et w0 payload)); [|done].
  intros c n Hc Hn. by apply query_keys_stable with c.
Qed.

Lemma apply_all_frame et w0 ws payload s :
  recognized et = true → valid et payload = true →
  matched (params_of et w0 payload) (query_of et) ∅ (store s) →
  (∀ k, k ∉ (observed et payload).1 →
        nodes (store (apply_all et payload ws s)) !! k = nodes (store s) !! k)
  ∧ (∀ k, k ∉ (observed et payload).2 →
          rels (store (apply_all et payload ws s)) !! k = rels (store s) !! k).
Proof.
  intros Hk Hv. unfold apply_all. revert s.
  induction ws as [|w ws IH]; intros s Hm; simpl; [done|].
  destruct (dispatch_again et w0 w payload s Hk Hv Hm) as [_ Hm'].
  destruct (dispatch_again_frame et w0 w payload s Hk Hv Hm) as [Hn Hr].
  destruct (IH _ Hm') as [IHn IHr].
  split; intros k Hk0; [by rewrite IHn, Hn | by rewrite IHr, Hr].
Qed.

Lemma apply_all_untouched et payload w ws s :
  store_fault w = None →
  (∀ k, k ∉ (observed et payload).1 →
        nodes (store (apply_all et payload (w :: ws) s)) !! k
        = nodes (store (apply_all et payload [w] s)) !! k)
  ∧ (∀ k, k ∉ (observed et payload).2 →
          rels (store (apply_all et payload (w :: ws) s)) !! k
          = rels (store (apply_all et payload [w] s)) !! k).
Proof.
  intros Hf.
  destruct (recognized et) eqn:Hk; [|by rewrite !apply_all_inert by by left].
  destruct (valid et payload) eqn:Hv; [|by rewrite !apply_all_inert by by right].
  change (apply_all et payload (w :: ws) s)
    with (apply_all et payload ws (session_of (dispatch et w payload s))).
  change (apply_all et payload [w] s) with (session_of (dispatch et w payload s)).
  apply (apply_all_frame et w); [done|done|]. by apply dispatch_settles.
Qed.

End Idempotence.

(** C1. For every event kind and every payload, valid or not, applying the
    transformer to that payload N >= 1 times, the first time on a healthy
    store, leaves the graph that one application leaves, up to the "last
    observed" properties of the kind: [updated_at] on ASSERTS relationships
    for triple.insert, [last_verified] and [updated_at] on
    SourceParticipation nodes for source_participation.insert, none for
    factlet.insert. The same nodes and relationships exist, and all of them
    but the one the payload is about (the triple's relationship, the
    participation's node) are exactly as one application leaves them: for
    triple.insert every node, for source_participation.insert every
    relationship, for factlet.insert the whole graph. The clock may read
    differently at each application. *)
Theorem repeated_application_idempotent
    (et : string) (payload : props) (w : world) (ws : list world) (s : session) :
  store_fault w = None →
  let once := store (apply_all et payload [w] s) in
  let many := store (apply_all et payload (w :: ws) s) in
  forget (volatile_nodes et) (volatile_rels et) many
  = forget (volatile_nodes et) (volatile_rels et) once
  ∧ dom (nodes many) = dom (nodes once)
  ∧ dom (rels many) = dom (rels once)
  ∧ (∀ k, k ∉ (observed et payload).1 → nodes many !! k = nodes once !! k)
  ∧ (∀ k, k ∉ (observed et payload).2 → rels many !! k = rels once !! k)
  ∧ (et = "triple.insert" → nodes many = nodes once)
  ∧ (et = "factlet.insert" → many = once)
  ∧ (et = "source_participation.insert" → rels many = rels once).
Proof.
  intros Hf once many.
  pose proof (apply_all_forget et payload w ws s Hf) as H. fold once many in H.
  destruct (apply_all_untouched et payload w ws s Hf) as [Hn Hr].
  split; [done|]. split; [|split; [|split; [done|split; [done|split; [|split]]]]].
  - by rewrite <- (dom_forget_nodes (volatile_nodes et) (volatile_rels et) many), H,
      dom_forget_nodes.
  - by rewrite <- (dom_forget_rels (volatile_nodes et) (volatile_rels et) many), H,
      dom_forget_rels.
  - intros ->. by apply (forget_nodes_none _ _ _ _ (λ _, eq_refl)) in H.
  - intros ->. by rewrite !forget_none in H.
  - intros ->. by apply (forget_rels_none _ _ _ _ (λ _, eq_refl)) in H.
Qed.

Lemma repeated_application_idempotent_witness :
  let payload := triple_payload "A" "knows" "B" in
  let later := mkWorld "2025-11-03T08:30:00.000Z" None in
  nodes (store (apply_all "triple.insert" payload [sample_world; later; later] fresh_session))
  = nodes (store (apply_all "triple.insert" payload [sample_world] fresh_session)).
Proof.
  intros payload later.
  destruct (repeated_application_idempotent "triple.insert" payload sample_world
              [later; later] fresh_session) as (_ & _ & _ & _ & _ & H & _).
  - reflexivity.
  - by apply H.
Defined.

(** Scenario 1: the first application writes two entities and one
    relationship; the second writes the relationship's [updated_at] and
    nothing else. *)
Example scenario_one_application :
  let g := store (apply_all "triple.insert" (triple_payload "A" "knows" "B")
                            [sample_world] fresh_session) in
  (size (nodes g), size (rels g)) = (2%nat, 1%nat)
  ∧ (λ p : props, (p !! "name", p !! "created_at")) <$> (map_to_list (nodes g)).*2
    = [(Some (JStr "A"), Some (JStr "2025-11-02T10:00:00.000Z"));
       (Some (JStr "B"), Some (JStr "2025-11-02T10:00:00.000Z"))]
  ∧ (λ p : props, (p !! "predicate", p !! "created_at", p !! "updated_at"))
      <$> (map_to_list (rels g)).*2
    = [(Some (JStr "knows"), Some (JStr "2025-11-02T10:00:00.000Z"), None)].
Proof. vm_compute. done. Qed.

Example scenario_one_repeat :
  let g := store (apply_all "triple.insert" (triple_payload "A" "knows" "B")
                            [sample_world; mkWorld "2025-11-03T08:30:00.000Z" None]
                            fresh_session) in
  (size (nodes g), size (rels g)) = (2%nat, 1%nat)
  ∧ (λ p : props, (p !! "predicate", p !! "created_at", p !! "updated_at"))
      <$> (map_to_list (rels g)).*2
    = [(Some (JStr "knows"), Some (JStr "2025-11-02T10:00:00.000Z"),
        Some (JStr "2025-11-03T08:30:00.000Z"))].
Proof. vm_compute. done. Qed.

(* ===================================================================== *)
(** * Properties: defaults of a participation *)
(* ===================================================================== *)

Section Defaults.

Implicit Types (w : world) (payload : props) (s : session) (ps : props).



Lemma null_or_else a b : null b = false → null (or_else a b) = false.
Proof.
  intros Hb. unfold or_else. destruct (truthy a) eqn:Ha; [|done].
  by apply truthy_not_null.
Qed.


End Defaults.

Lemma run_calls (fault : option exn) (q : list clause) (ps : props) (s : session) :
  calls (session_of (run fault q ps s)) = (q, ps) :: calls s.
Proof.
  unfold run. destruct fault; [done|].
  by destruct (exec ps q (∅, store s)) as [?|[? ?]].
Qed.


Lemma or_else_truthy_l (a b : jsval) : truthy a = true → or_else a b = a.
Proof. unfold or_else. by intros ->. Qed.



(* ===================================================================== *)
(** * Properties: the outcome of a success *)
(* ===================================================================== *)

(** C5, as the code has it. When the processing of a claimed record
    succeeds and one more attempt fits the [attempts] column, the outcome
    write-back sets its row to done and adds one to its attempts; the
    [error] column is not written, so it keeps what it held. No other row
    changes. *)
Theorem success_marks_done (w : world) (ev r : row) (st : stores) (s' : session) :
  dispatch (event_type ev) w (payload ev) (graph_session st) = Ok s' →
  unique_ids (outbox st) → find (id ev) (outbox st) = Some r →
  attempts r + 1 ≤ int_max →
  let st' := stores_of (process_event w ev st) in
  process_event w ev st = Settled st'
  ∧ graph_session st' = s'
  ∧ find (id ev) (outbox st') = Some (done_row r)
  ∧ status (done_row r) = Done
  ∧ attempts (done_row r) = attempts r + 1
  ∧ error (done_row r) = error r
  ∧ ∀ j, j ≠ id ev → find j (outbox st') = find j (outbox st).
Proof.
  intros Hd Hnd Hr Hfit.
  rewrite (process_event_ok w ev st s' Hd) by by apply (found_row_fits _ _ r).
  simpl. split; [done|]. split; [done|].
  split; [|split; [done|split; [done|split; [done|]]]].
  - by apply find_updated_own.
  - intros j Hj. rewrite find_updated by done.
    destruct (find j (outbox st)) as [x|] eqn:Hx; [|done]. simpl.
    apply find_elem_of in Hx as [_ Hid]. rewrite bool_decide_eq_false_2; congruence.
Qed.

Lemma success_marks_done_witness :
  find 1 (outbox (stores_of (process_event sample_world retried_row
                                (mkStores [retried_row] fresh_session))))
  = Some (done_row retried_row).
Proof.
  destruct (dispatch_writes "triple.insert" sample_world (triple_payload "A" "knows" "B")
              fresh_session eq_refl eq_refl eq_refl) as (bs & g' & _ & Hd).
  refine (proj1 (proj2 (proj2 (success_marks_done sample_world retried_row retried_row
                  (mkStores [retried_row] fresh_session) _ Hd _ eq_refl _)))).
  - apply NoDup_singleton.
  - by vm_compute.
Defined.

(** C5, as stated, fails: a record that failed once and then succeeds keeps
    the error of the failed attempt on its done row; and for a record
    claimed with the largest [INT] as its attempts the graph write is made
    but neither outcome [UPDATE] goes through, so that its row stays in
    processing. *)
Lemma success_leaves_stale_error :
  let st := mkStores [retried_row] fresh_session in
  let st_max := mkStores [row_at_int_max] fresh_session in
  (∃ s', dispatch (event_type retried_row) sample_world (payload retried_row)
                  (graph_session st) = Ok s')
  ∧ unique_ids (outbox st) ∧ find 1 (outbox st) = Some retried_row
  ∧ attempts retried_row + 1 ≤ int_max
  ∧ (status <$> find 1 (outbox (stores_of (process_event sample_world retried_row st))))
    = Some Done
  ∧ (error <$> find 1 (outbox (stores_of (process_event sample_world retried_row st))))
    = Some (Some "connect ECONNREFUSED")
  ∧ (error <$> find 1 (outbox (stores_of (process_event sample_world retried_row st))))
    ≠ Some None
  ∧ (∃ s', dispatch (event_type row_at_int_max) sample_world (payload row_at_int_max)
                    (graph_session st_max) = Ok s'
           ∧ process_event sample_world row_at_int_max st_max
             = Escaped (out_of_range "integer") (mkStores [row_at_int_max] s'))
  ∧ find 6 (outbox (stores_of (process_event sample_world row_at_int_max st_max)))
    = Some row_at_int_max.
Proof.
  intros st st_max.
  destruct (dispatch_writes "triple.insert" sample_world (triple_payload "A" "knows" "B")
              fresh_session eq_refl eq_refl eq_refl) as (bs & g' & _ & Hd).
  assert (Hmax : process_event sample_world row_at_int_max st_max
                 = Escaped (out_of_range "integer")
                     (mkStores [row_at_int_max]
                        (mkSession g' ((query_of "triple.insert",
                                        params_of "triple.insert" sample_world
                                                  (triple_payload "A" "knows" "B"))
                                       :: calls fresh_session)))).
  { rewrite process_event_overflow by (apply list_elem_of_here || by vm_compute).
    change (dispatch (event_type row_at_int_max) sample_world (payload row_at_int_max)
                     (graph_session st_max))
      with (dispatch "triple.insert" sample_world (triple_payload "A" "knows" "B")
                     fresh_session).
    by rewrite Hd. }
  split; [by eexists|]. split; [apply NoDup_singleton|]. split; [done|].
  split; [by vm_compute|].
  rewrite (process_event_ok sample_world retried_row st _ Hd).
  2:{ intros x Hx _. apply list_elem_of_singleton in Hx as ->. by vm_compute. }
  split; [reflexivity|]. split; [reflexivity|]. split; [discriminate|].
  split; [eexists; split; [exact Hd | exact Hmax]|].
  by rewrite Hmax.
Qed.

(* ===================================================================== *)
(** * Properties: configuration *)
(* ===================================================================== *)

Section Configuration.

Lemma poison_throws n w s :
  dispatch (event_type (poison n)) w (payload (poison n)) s
  = Throw (Error "Missing required triple fields") s.
Proof. apply (dispatch_invalid "triple.insert" w ∅ s "subject"); [left|done]. Qed.

Lemma cycle_poison env ws n s :
  0 ≤ n < int_max →
  outbox (cycle env ws (mkStores [poison n] s))
  = if claims_rows env
    then [mkRow 1 "triple.insert" ∅ 0 (n + 1) (retry_status (n + 1))
                (Some "Missing required triple fields")]
    else [poison n].
Proof.
  intros Hn. unfold claims_rows.
  destruct (BATCH_SIZE env) as [limit|] eqn:Hb; [|by unfold cycle; rewrite Hb].
  destruct (Z.ltb_spec 0 limit) as [Hl|Hl];
    [destruct (Z.leb_spec limit bigint_max) as [Hu|Hu]|]; simpl.
  - assert (Hc : countable_attempts (poison n))
      by (unfold countable_attempts, int_min, int_max in *; simpl; lia).
    by rewrite (cycle_single_failure env limit ws (poison n) s _ s Hb
                  (conj Hl Hu) eq_refl Hc (poison_throws n _ s)).
  - unfold cycle, claimBatch. rewrite Hb. cbn [outbox graph_session].
    destruct (Z.ltb_spec limit 0) as [|Hge]; [done|].
    destruct (Z.ltb_spec bigint_max limit) as [|Hge']; [done | lia].
  - unfold cycle, claimBatch. rewrite Hb. cbn [outbox graph_session].
    destruct (Z.ltb_spec limit 0) as [|Hge]; [done|].
    assert (limit = 0) as -> by lia. done.
Qed.

Lemma dead_letters_at_five env limit :
  BATCH_SIZE env = Some limit → 0 < limit ≤ bigint_max → dead_letters_at env 5.
Proof.
  intros Hb Hl ws n s Hn. rewrite cycle_poison by done. unfold claims_rows. rewrite Hb.
  destruct (Z.ltb_spec 0 limit); [|lia].
  destruct (Z.leb_spec limit bigint_max); [|lia]. simpl. unfold retry_status.
  destruct (Z.geb_spec (n + 1) 5); split; (done || lia).
Qed.

Lemma dead_letters_only_at_five env cap :
  cap ≠ 5 → cap ≤ int_max → ¬ dead_letters_at env cap.
Proof.
  intros Hcap Hint Hd. unfold int_max in *.
  destruct (decide (5 < cap)) as [Hgt|Hle].
  - (* a record at its fifth failure is failed, below the cap *)
    pose proof (Hd (λ _, sample_world) (cap - 1) fresh_session
                   ltac:(unfold int_max; lia)) as [_ H1].
    pose proof (Hd (λ _, sample_world) 4 fresh_session
                   ltac:(unfold int_max; lia)) as [H2 _].
    rewrite cycle_poison in H1, H2 by (unfold int_max; lia).
    destruct (claims_rows env); simpl in *.
    + specialize (H2 eq_refl). lia.
    + specialize (H1 ltac:(lia)). done.
  - (* a record reaching the cap is put back to pending *)
    pose proof (Hd (λ _, sample_world) (Z.max 0 (cap - 1)) fresh_session
                   ltac:(unfold int_max; lia)) as [_ H1].
    rewrite cycle_poison in H1 by (unfold int_max; lia). specialize (H1 ltac:(lia)).
    destruct (claims_rows env); simpl in *; try done.
    unfold retry_status in H1.
    destruct (Z.geb_spec (Z.max 0 (cap - 1) + 1) 5); [lia | done].
Qed.

End Configuration.

(** C8, as the code has it. The batch size and the poll interval are read
    from the environment, with defaults 500 and 2000; a value that is set
    and not empty is parsed and used. The attempt cap is not read from
    anywhere: under every environment that gives a positive batch size, a
    failing record whose attempts can take one more is dead-lettered
    exactly when that makes 5 attempts; a batch size above the largest
    [bigint] is refused by the claim. *)
Theorem attempt_cap_fixed_at_five :
  BATCH_SIZE ∅ = Some 500
  ∧ POLL_INTERVAL_MS ∅ = Some 2000
  ∧ (∀ (env : environ) (v : string),
       env !! "BATCH_SIZE" = Some v → v ≠ "" → BATCH_SIZE env = parseInt v)
  ∧ (∀ (env : environ) (v : string),
       env !! "POLL_INTERVAL_MS" = Some v → v ≠ "" → POLL_INTERVAL_MS env = parseInt v)
  ∧ (∀ (env : environ) (limit : Z),
       BATCH_SIZE env = Some limit → 0 < limit ≤ bigint_max → dead_letters_at env 5).
Proof.
  split; [done|]. split; [done|]. split; [|split].
  - intros env v Hv Hne. unfold BATCH_SIZE, getenv. rewrite Hv.
    rewrite or_else_truthy_l; [done|]. simpl. by destruct v.
  - intros env v Hv Hne. unfold POLL_INTERVAL_MS, getenv. rewrite Hv.
    rewrite or_else_truthy_l; [done|]. simpl. by destruct v.
  - apply dead_letters_at_five.
Qed.

Lemma attempt_cap_fixed_at_five_witness :
  BATCH_SIZE {[ "BATCH_SIZE" := "10"; "MAX_ATTEMPTS" := "3" ]} = Some 10
  ∧ dead_letters_at {[ "BATCH_SIZE" := "10"; "MAX_ATTEMPTS" := "3" ]} 5.
Proof.
  destruct attempt_cap_fixed_at_five as (_ & _ & Hb & _ & Hcap).
  split.
  - rewrite (Hb _ "10"); [reflexivity | reflexivity | discriminate].
  - apply (Hcap _ 10); [|by vm_compute].
    rewrite (Hb _ "10"); [reflexivity | reflexivity | discriminate].
Defined.

(** C8, as stated, fails: no environment moves the cap away from 5 to
    another number of attempts. *)
Lemma no_configured_attempt_cap :
  ¬ ∃ (env : environ) (cap : Z),
      cap ≠ 5 ∧ 0 < cap ≤ int_max ∧ dead_letters_at env cap.
Proof.
  intros (env & cap & Hcap & [_ Hint] & Hd).
  by apply (dead_letters_only_at_five env cap).
Qed.

(* ===================================================================== *)
(** * Properties: the order of a claimed batch *)
(* ===================================================================== *)

(** C2 at [backlog]: the inner query selects the older record first, but the
    rows come back in the order of the table, the later record first, and
    the worker writes them to the graph in that order. *)
Theorem claimed_batch_in_table_order :
  claim_subquery 500 backlog = [2; 1]
  ∧ claimed_order 500 backlog = [20; 10]
  ∧ ¬ StronglySorted Z.le (claimed_order 500 backlog)
  ∧ written_subjects
      (graph_session (cycle ∅ (λ _, sample_world) (mkStores backlog fresh_session)))
    = [Some (JStr "A"); Some (JStr "C")].
Proof.
  assert (Ho : claimed_order 500 backlog = [20; 10]) by (by vm_compute).
  split; [by vm_compute|]. split; [done|]. split; [|by vm_compute].
  rewrite Ho. intros Hs. apply StronglySorted_inv in Hs as [_ Hs].
  apply Forall_cons_1 in Hs as [Hle _]. lia.
Qed.

(** What does hold of a claim, for every limit and every table with unique
    ids: the rows returned were pending, there are at most [limit] of them,
    they are in the table with [status='processing'], no later claim returns
    any of them while they stay so, and a pending row that was left out is
    not earlier than any row taken. *)
Lemma claimBatch_selection (limit : Z) (tbl : table) (batch : list row) (tbl' : table) :
  0 < limit → unique_ids tbl → claimBatch limit tbl = inr (batch, tbl') →
  (length batch ≤ Z.to_nat limit)%nat
  ∧ (∀ r, r ∈ batch →
       r ∈ tbl' ∧ status r = Processing
       ∧ ∃ r0, r0 ∈ tbl ∧ status r0 = Pending ∧ r = set_status Processing r0)
  ∧ (∀ limit' batch' tbl'',
       claimBatch limit' tbl' = inr (batch', tbl'') →
       ∀ r r', r ∈ batch → r' ∈ batch' → id r ≠ id r')
  ∧ (∀ r r', r ∈ batch → r' ∈ tbl → status r' = Pending →
       (∀ x, x ∈ batch → id x ≠ id r') → occurred_at r ≤ occurred_at r').
Proof.
  intros Hl Hnd Hc.
  destruct (claimBatch_spec _ _ _ _ Hnd Hc) as (Hnd' & Hlen & Hb & Hrest).
  split; [done|]. split; [done|]. split.
  - intros limit' batch' tbl'' Hc' r r' Hr Hr' Hid.
    destruct (Hb r Hr) as (Hin & Hs & _).
    destruct (claimBatch_skips _ _ _ _ r Hnd' Hc' Hin) as [_ Hids]; [by rewrite Hs|].
    by apply (Hids r').
  - intros r r' Hr Hr' Hp Hout.
    destruct (Hb r Hr) as (_ & _ & r0 & Hr0 & Hp0 & ->). simpl.
    apply claimBatch_inr in Hc as [_ Hu].
    assert (Hb' : batch = (update_returning (claim_subquery limit tbl) tbl).1)
      by (by rewrite Hu).
    apply (claim_subquery_oldest limit tbl r' r0); auto.
    + intros Hin. apply (Hout (set_status Processing r')); [|done].
      rewrite Hb'. apply update_returning_spec. by exists r'.
    + rewrite Hb' in Hr. apply update_returning_spec in Hr as (r1 & Hr1 & Hid1 & Heq).
      assert (id r0 = id r1) as -> by (by apply (f_equal id) in Heq). done.
Qed.

(** The worker goes through a batch in the order [claimBatch] returned it. *)
Lemma process_batch_in_order (ws : row → world) (ev : row) (batch : list row)
    (st : stores) :
  process_batch ws (ev :: batch) st
  = match process_event (ws ev) ev st with
    | Settled st' => process_batch ws batch st'
    | Escaped e st' => Escaped e st'
    end.
Proof. done. Qed.

(* ===================================================================== *)
(** * Properties: termination signals *)
(* ===================================================================== *)

(** The worker's loop and the sequential model agree: resuming twice from
    the start of a record is processing the record. *)
Lemma worker_steps_process_event (env : environ) (ws : row → world)
    (ev : row) (rest : list row) (st : stores) (h : handler_pc) (d pl : bool) :
  data (worker_step env ws
          (worker_step env ws (mkProcess st (Transforming ev rest) h d pl)))
  = stores_of (process_event (ws ev) ev st).
Proof.
  unfold process_event, worker_step.
  cbn [pc data outbox graph_session handler driver_open pool_open].
  by destruct (write_back ev _ (outbox st)).
Qed.

(** The handler never gets past [await pool.end()]: the process does not
    exit on a signal. *)
Lemma handler_never_exits (env : environ) (ws : row → world) (p0 p : process) :
  handler p0 ≠ Exited → reachable env ws p0 p → handler p ≠ Exited.
Proof.
  intros H0 Hr. induction Hr as [|p q Hr IH Hs]; [done|].
  destruct Hs as [p _|p _].
  - unfold worker_step. destruct (pc p) as [|ev rest|ev r rest]; [|exact IH|].
    + destruct (BATCH_SIZE env) as [limit|]; [|exact IH].
      destruct (claimBatch limit (outbox (data p))) as [|[]]; exact IH.
    + destruct (write_back ev r (outbox (data p))); exact IH.
  - unfold handler_step, client_released.
    destruct (handler p) eqn:Hh; simpl; congruence.
Qed.

(** C7 at one pending record. A signal that arrives while the worker awaits
    the graph write of the record it claimed, or while it awaits the
    record's outcome [UPDATE] after the graph write, makes the handler close
    the driver at once and then ask the pool to end: both happen with the
    record in flight, its row in processing and its outcome not written.
    The handler then waits for the pool, which waits for the client the
    worker holds: the handler stays where it is, and no run of the process
    reaches [process.exit]. *)
Theorem signal_closes_connections_with_record_in_flight :
  let ev := mkRow 1 "triple.insert" (triple_payload "A" "knows" "B") 10 0 Pending None in
  let ws := λ _ : row, sample_world in
  let p0 := start (mkStores [ev] fresh_session) in
  let writing := worker_step ∅ ws p0 in
  let updating := worker_step ∅ ws writing in
  let ending p := handler_step (handler_step p) in
  (∀ p, p = writing ∨ p = updating →
     reachable ∅ ws p0 (handler_step p) ∧ reachable ∅ ws p0 (ending p)
     ∧ in_flight (handler_step p) = Some (set_status Processing ev)
     ∧ driver_open (handler_step p) = false
     ∧ ¬ graceful (handler_step p)
     ∧ in_flight (ending p) = Some (set_status Processing ev)
     ∧ driver_open (ending p) = false ∧ pool_open (ending p) = false
     ∧ handler (ending p) = PoolEnding
     ∧ ¬ graceful (ending p)
     ∧ outbox (data (ending p)) = [set_status Processing ev]
     ∧ handler_step (ending p) = ending p)
  ∧ size (nodes (store (graph_session (data (ending writing))))) = 0%nat
  ∧ size (nodes (store (graph_session (data (ending updating))))) = 2%nat
  ∧ (∀ (env : environ) (ws' : row → world) (st : stores) (p : process),
       reachable env ws' (start st) p → handler p ≠ Exited).
Proof.
  intros ev ws p0 writing updating ending.
  assert (Hw : reachable ∅ ws p0 writing).
  { eapply reach_step; [apply reach_start|]. by apply step_worker. }
  assert (Hu : reachable ∅ ws p0 updating).
  { eapply reach_step; [exact Hw|]. by apply step_worker. }
  split; [|split; [done | split; [by vm_compute|]]].
  2: { intros env ws' st p. by apply handler_never_exits. }
  intros p Hp.
  assert (Hr : reachable ∅ ws p0 p) by (by destruct Hp as [-> | ->]).
  assert (Hh : handler p = NotSignalled) by (by destruct Hp as [-> | ->]).
  assert (Hf : in_flight p = Some (set_status Processing ev))
    by (by destruct Hp as [-> | ->]).
  assert (Ho : outbox (data p) = [set_status Processing ev])
    by (by destruct Hp as [-> | ->]).
  clear Hp. destruct p as [d pc h dopen popen]. simpl in Hh, Hf, Ho. subst h.
  unfold ending, handler_step. simpl.
  assert (H1 : reachable ∅ ws p0 (mkProcess d pc DriverClosed false popen)).
  { eapply reach_step; [exact Hr|].
    apply (step_handler ∅ ws (mkProcess d pc NotSignalled dopen popen)). done. }
  split; [done|]. split.
  { eapply reach_step; [exact H1|].
    apply (step_handler ∅ ws (mkProcess d pc DriverClosed false popen)). done. }
  split; [done|]. split; [done|]. split.
  { intros Hg. specialize (Hg (or_introl eq_refl)). unfold in_flight in *.
    simpl in *. congruence. }
  split; [done|]. split; [done|]. split; [done|]. split; [done|]. split.
  { intros Hg. specialize (Hg (or_introl eq_refl)). unfold in_flight in *.
    simpl in *. congruence. }
  done.
Qed.

(* ===================================================================== *)
(** * Scenarios *)
(* ===================================================================== *)

(** Scenario 4: with three pending records and a limit of 10, the claim
    returns the three and leaves none pending. *)
Example scenario_claim_all_pending :
  let tbl := [ mkRow 1 "triple.insert" ∅ 30 0 Pending None;
               mkRow 2 "factlet.insert" ∅ 10 0 Pending None;
               mkRow 3 "triple.insert" ∅ 20 2 Done None;
               mkRow 4 "triple.insert" ∅ 40 0 Pending None ] in
  match claimBatch 10 tbl with
  | inr (batch, tbl') =>
      (id <$> batch, length (filter (λ r, is_pending r = true) tbl'), status <$> tbl')
  | inl _ => ([], 0%nat, [])
  end
  = ([1; 2; 4], 0%nat, [Processing; Processing; Done; Processing]).
Proof. vm_compute. done. Qed.

(** Scenarios 3 and 5, and a record retried after the store was down: five
    turns over a malformed record, an unknown kind, and a success that
    keeps the old error. *)
Example scenario_five_turns :
  let tbl := [ mkRow 1 "triple.insert" (triple_payload "" "knows" "B") 10 0 Pending None;
               mkRow 2 "unknown.future_kind" ∅ 20 0 Pending None;
               mkRow 3 "triple.insert" (triple_payload "A" "knows" "B") 30 1 Pending
                     (Some "connect ECONNREFUSED") ] in
  let ws := λ _ : row, sample_world in
  let final := cycles ∅ [ws; ws; ws; ws; ws; ws] (mkStores tbl fresh_session) in
  ((λ r, (id r, status r, attempts r, error r)) <$> outbox final,
   length (calls (graph_session final)))
  = ([ (1, Failed, 5, Some "Missing required triple fields");
       (2, Done, 1, None);
       (3, Done, 2, Some "connect ECONNREFUSED") ],
     1%nat).
Proof. vm_compute. done. Qed.

(** A participation with no optional field, written to an empty graph. *)
Example scenario_bare_participation :
  let g := store (session_of (processSourceParticipation sample_world bare_participation
                                                         fresh_session)) in
  (size (nodes g), size (rels g)) = (3%nat, 2%nat)
  ∧ (λ p : props, (p !! "ai_readable_source", p !! "markdown_discovered",
                   p !! "discovery_method", p !! "first_observed", p !! "last_verified"))
      <$> nodes g !! participation_key bare_participation
    = Some (Some (JBool false), Some (JBool false), Some (JStr "unknown"),
            Some (JStr "2025-11-02T10:00:00.000Z"), Some (JStr "2025-11-02T10:00:00.000Z")).
Proof. vm_compute. done. Qed.

(* ===================================================================== *)
(** * Further properties: reading numbers back *)
(* ===================================================================== *)

Section Decimal.

(** The character of a decimal digit. *)
Lemma digit_char (n : Z) :
  0 ≤ n →
  let a := ascii_of_nat (48 + Z.to_nat (n mod 10)) in
  digit_of a = Some (n mod 10) ∧ is_space a = false
  ∧ a ≠ "-"%char ∧ a ≠ "+"%char.
Proof.
  intros Hn a. subst a.
  assert (H : (Z.to_nat (n mod 10) < 10)%nat) by (pose proof (Z.mod_pos_bound n 10); lia).
  assert (Hz : n mod 10 = Z.of_nat (Z.to_nat (n mod 10)))
    by (pose proof (Z.mod_pos_bound n 10); lia).
  rewrite Hz at 2. clear Hz.
  generalize dependent (Z.to_nat (n mod 10)). intros d Hd.
  do 10 (destruct d as [|d]; [vm_compute; repeat split; congruence|]). lia.
Qed.

Lemma string_app_assoc (s1 s2 s3 : string) : (s1 ++ s2) ++ s3 = s1 ++ (s2 ++ s3).
Proof.
  induction s1 as [|a s1 IH]; [done|].
  change (String a ((s1 ++ s2) ++ s3) = String a (s1 ++ s2 ++ s3)). by rewrite IH.
Qed.

Lemma digits_fuel_app fuel n acc :
  digits_fuel fuel n acc = digits_fuel fuel n "" ++ acc.
Proof.
  revert n acc. induction fuel as [|fuel IH]; intros n acc; simpl; [done|].
  destruct (n <? 10); [done|].
  rewrite IH, (IH _ (String _ "")). by rewrite string_app_assoc.
Qed.

(** Reading back the digits that were written. *)
Lemma leading_digits_fuel fuel n acc a :
  0 ≤ n < 2 ^ Z.of_nat (S fuel) → default 0 a = 0 →
  leading_digits (digits_fuel (S fuel) n acc) a = leading_digits acc (Some n).
Proof.
  revert n acc. induction fuel as [|fuel IH]; intros n acc Hn Ha.
  - assert (n < 10) by (change (2 ^ Z.of_nat 1) with 2 in Hn; lia).
    cbn [digits_fuel]. destruct (Z.ltb_spec n 10) as [_|?]; [|lia].
    cbn [leading_digits]. destruct (digit_char n) as (-> & _); [lia|].
    rewrite Ha. rewrite Z.mod_small by lia. do 2 f_equal.
  - change (digits_fuel (S (S fuel)) n acc)
      with (let d := ascii_of_nat (48 + Z.to_nat (n mod 10)) in
            if n <? 10 then String d acc
            else digits_fuel (S fuel) (n / 10) (String d acc)).
    cbv zeta. destruct (Z.ltb_spec n 10) as [Hlt|Hge].
    + cbn [leading_digits]. destruct (digit_char n) as (-> & _); [lia|].
      rewrite Ha. rewrite Z.mod_small by lia. do 2 f_equal.
    + rewrite IH; [|split|done].
      * cbn [leading_digits]. destruct (digit_char n) as (-> & _); [lia|].
        cbn [default]. unfold Datatypes.id.
        assert (10 * (n / 10) + n mod 10 = n) as ->
          by (pose proof (Z.div_mod n 10 ltac:(lia)); lia).
        done.
      * apply Z.div_pos; lia.
      * apply Z.div_lt_upper_bound; [lia|].
        replace (Z.of_nat (S (S fuel))) with (Z.of_nat (S fuel) + 1) in Hn by lia.
        rewrite Z.pow_add_r in Hn by lia. lia.
Qed.

Lemma digits_fuel_head fuel n acc :
  0 ≤ n → ∃ m s, 0 ≤ m ∧ digits_fuel (S fuel) n acc
                 = String (ascii_of_nat (48 + Z.to_nat (m mod 10))) s.
Proof.
  revert n acc. induction fuel as [|fuel IH]; intros n acc Hn.
  - cbn [digits_fuel]. destruct (n <? 10); by exists n, acc.
  - change (digits_fuel (S (S fuel)) n acc)
      with (let d := ascii_of_nat (48 + Z.to_nat (n mod 10)) in
            if n <? 10 then String d acc
            else digits_fuel (S fuel) (n / 10) (String d acc)).
    cbv zeta. destruct (Z.ltb_spec n 10) as [Hlt|Hge]; [by exists n, acc|].
    apply IH. apply Z.div_pos; lia.
Qed.

Lemma digits_bound n : 0 ≤ n → 0 ≤ n < 2 ^ Z.of_nat (S (Z.to_nat (Z.log2 n))).
Proof.
  intros Hn. split; [done|].
  destruct (decide (n = 0)) as [->|Hne]; [done|].
  pose proof (Z.log2_nonneg n).
  replace (Z.of_nat (S (Z.to_nat (Z.log2 n)))) with (Z.succ (Z.log2 n)) by lia.
  apply Z.log2_spec. lia.
Qed.

Lemma leading_digits_digits n rest :
  0 ≤ n → leading_digits rest (Some n) = Some n →
  leading_digits (digits n ++ rest) None = Some n.
Proof.
  intros Hn Hrest. unfold digits. rewrite <- digits_fuel_app.
  rewrite leading_digits_fuel; [done | by apply digits_bound | done].
Qed.

(** No white space is skipped before a digit or a sign. *)
Lemma skip_spaces_digit a s d :
  digit_of a = Some d → skip_spaces (String a s) = String a s.
Proof.
  intros Hd. unfold skip_spaces. cbn [String.length skip_spaces_fuel].
  assert (white_space (String a s) = None) as ->; [|done].
  revert Hd. destruct a as [[] [] [] [] [] [] [] []]; vm_compute; intros Hd;
    first [done | discriminate].
Qed.

Lemma parseInt_unsigned a s d :
  digit_of a = Some d →
  parseInt (String a s) = leading_digits (String a s) None ≫= nearest_double.
Proof.
  intros Hd. unfold parseInt. rewrite (skip_spaces_digit a s d Hd).
  destruct a as [[] [] [] [] [] [] [] []];
    first [reflexivity | by vm_compute in Hd].
Qed.

Lemma parseInt_negative s :
  parseInt (String "-" s) = Z.opp <$> (leading_digits s None ≫= nearest_double).
Proof. reflexivity. Qed.

(** An integer JavaScript represents exactly is its own nearest double. *)
Lemma nearest_double_exact n : 0 ≤ n ≤ max_safe_integer → nearest_double n = Some n.
Proof.
  intros Hn. unfold nearest_double, max_safe_integer in *.
  assert (Z.log2 n < 53).
  { destruct (decide (n = 0)) as [->|]; [done|].
    apply Z.log2_lt_pow2; [lia|]. change (2 ^ 53) with 9007199254740992. lia. }
  cbv zeta. destruct (Z.leb_spec (Z.log2 n - 52) 0); [done | lia].
Qed.

(** [parseInt] of digits followed by anything that is not a digit. *)
Lemma parseInt_digits n rest :
  0 ≤ n ≤ max_safe_integer → leading_digits rest (Some n) = Some n →
  parseInt (digits n ++ rest) = Some n.
Proof.
  intros Hn Hrest.
  pose proof (leading_digits_digits n rest ltac:(lia) Hrest) as Hl.
  unfold digits in *. rewrite <- digits_fuel_app in *.
  destruct (digits_fuel_head (Z.to_nat (Z.log2 n)) n rest ltac:(lia))
    as (m & s & Hm & Hs).
  rewrite Hs in Hl |- *. destruct (digit_char m Hm) as (Hd & _).
  rewrite (parseInt_unsigned _ s _ Hd), Hl.
  change (nearest_double n = Some n). by apply nearest_double_exact.
Qed.

Lemma parseInt_to_string n rest :
  Z.abs n ≤ max_safe_integer →
  leading_digits rest (Some (Z.abs n)) = Some (Z.abs n) →
  parseInt (to_string (JNum n) ++ rest) = Some n.
Proof.
  intros Hn Hrest. cbn [to_string]. destruct (Z.ltb_spec n 0) as [Hlt|Hge].
  - rewrite Z.abs_neq in Hrest, Hn by lia.
    change (("-" ++ digits (- n)) ++ rest) with (String "-" (digits (- n) ++ rest)).
    rewrite parseInt_negative, leading_digits_digits by (done || lia).
    change (Z.opp <$> nearest_double (- n) = Some n).
    rewrite nearest_double_exact by lia. simpl. f_equal. lia.
  - rewrite Z.abs_eq in Hrest, Hn by lia. apply parseInt_digits; [lia | done].
Qed.

End Decimal.


(* ===================================================================== *)
(** * Further properties: counting claims; a turn of the loop, row by row *)
(* ===================================================================== *)

Section Claims.

Implicit Types (tbl : table) (r : row) (l : list row).

Lemma update_returning_nil tbl : update_returning [] tbl = ([], tbl).
Proof.
  unfold update_returning.
  assert (H : (λ r, if bool_decide (id r ∈ []) then set_status Processing r else r) <$> tbl
              = tbl).
  { rewrite <- (list_fmap_id tbl) at 2. apply list_fmap_ext. intros _ r _.
    rewrite bool_decide_eq_false_2; [done|]. apply not_elem_of_nil. }
  rewrite H. f_equal. clear H. induction tbl as [|x tbl IH]; [apply filter_nil|].
  rewrite filter_cons. destruct (decide (id x ∈ [])) as [Hx|_]; [|done].
  by apply elem_of_nil in Hx.
Qed.





Lemma claimBatch_keeps_ids limit tbl batch tbl' :
  claimBatch limit tbl = inr (batch, tbl') → id <$> tbl' = id <$> tbl.
Proof.
  intros Hc. apply claimBatch_inr in Hc as [_ Hu].
  assert (tbl' = (update_returning (claim_subquery limit tbl) tbl).2) as ->
    by (by rewrite Hu).
  apply update_returning_ids.
Qed.

Lemma claimBatch_ids limit tbl batch tbl' :
  unique_ids tbl → claimBatch limit tbl = inr (batch, tbl') →
  NoDup (id <$> batch)
  ∧ (∀ r, r ∈ tbl → id r ∈ claim_subquery limit tbl → set_status Processing r ∈ batch)
  ∧ (∀ ev, ev ∈ batch → id ev ∈ claim_subquery limit tbl).
Proof.
  intros Hnd Hc. apply claimBatch_inr in Hc as [_ Hu].
  assert (batch = (update_returning (claim_subquery limit tbl) tbl).1) as ->
    by (by rewrite Hu).
  clear Hu. split; [|split].
  - unfold unique_ids in Hnd. rewrite <- (update_returning_ids (claim_subquery limit tbl)) in Hnd.
    apply (sublist_NoDup _ (id <$> (update_returning (claim_subquery limit tbl) tbl).2));
      [exact Hnd|].
    unfold update_returning. simpl. apply fmap_sublist, sublist_filter.
  - intros r Hr Hid. apply update_returning_spec. by exists r.
  - intros ev Hev. by apply update_returning_spec in Hev as (r0 & _ & Hid & ->).
Qed.





End Claims.


Section Settling.

Implicit Types (tbl : table) (r ev : row) (st : stores) (w : world).

Lemma retry_status_cases n : retry_status n = Pending ∨ retry_status n = Failed.
Proof. unfold retry_status. destruct (n >=? 5); auto. Qed.

(** The row of a record after its processing: settled when the outcome was
    written, as it was when the write-back threw. *)
Lemma process_event_row w ev st :
  unique_ids (outbox st) → ev ∈ outbox st →
  ∃ r', r' ∈ outbox (stores_of (process_event w ev st))
        ∧ match process_event w ev st with
          | Settled _ => settled ev r'
          | Escaped _ _ => r' = ev
          end.
Proof.
  intros Hnd Hev. pose proof (find_unique _ _ Hnd Hev) as Hf.
  unfold process_event.
  destruct (write_back ev _ (outbox st)) as [e|tbl'] eqn:Hw; cbn [stores_of outbox].
  - by exists ev.
  - apply write_back_cases in Hw as [->|[e ->]].
    + exists (done_row ev). split; [|by repeat split; auto].
      apply (find_elem_of (id ev)). by apply find_updated_own.
    + exists (failed_row (attempts ev) e ev). split; [|by repeat split; eauto].
      apply (find_elem_of (id ev)). by apply find_updated_own.
Qed.

Lemma settled_or_unchanged w ev st r' :
  match process_event w ev st with
  | Settled _ => settled ev r'
  | Escaped _ _ => r' = ev
  end →
  (settled ev r' ∨ r' = ev) ∧ (countable_attempts ev → settled ev r').
Proof.
  destruct (process_event w ev st) as [st'|e st'] eqn:Hp; intros H.
  - split; [by left | done].
  - split; [by right|]. intros Hc.
    by apply process_event_escapes in Hp as [Hn _].
Qed.

Lemma process_batch_rows ws batch st :
  NoDup (id <$> batch) → unique_ids (outbox st) → (∀ ev, ev ∈ batch → ev ∈ outbox st) →
  ∀ ev, ev ∈ batch →
    ∃ r', r' ∈ outbox (stores_of (process_batch ws batch st))
          ∧ (settled ev r' ∨ r' = ev)
          ∧ ((∀ x, x ∈ batch → countable_attempts x) → settled ev r').
Proof.
  revert st. induction batch as [|e batch IH]; intros st Hb Hnd Hin ev Hev.
  - by apply elem_of_nil in Hev.
  - rewrite fmap_cons in Hb.
    pose proof (NoDup_cons_1_1 _ _ Hb) as He. apply NoDup_cons_1_2 in Hb.
    rewrite process_batch_in_order.
    pose proof (process_event_ids (ws e) e st) as Hids.
    apply elem_of_cons in Hev as [->|Hev].
    + destruct (process_event_row (ws e) e st Hnd) as (r' & Hr' & Hs);
        [apply Hin; left|].
      apply settled_or_unchanged in Hs as [Hs Hc].
      exists r'. split; [|split; [done|]].
      * destruct (process_event (ws e) e st) as [st'|x st']; [|done].
        apply process_batch_other; [done|].
        intros ev' Hev' Hid. apply He.
        assert (id r' = id e) as Hre by (by destruct Hs as [(-> & _)| ->]).
        rewrite <- Hre, Hid. by apply list_elem_of_fmap_2.
      * intros Hall. apply Hc, Hall. left.
    + assert (Hev' : ev ∈ outbox (stores_of (process_event (ws e) e st))).
      { apply process_event_other; [apply Hin; by right|].
        intros Hid. apply He. rewrite <- Hid. by apply list_elem_of_fmap_2. }
      destruct (process_event (ws e) e st) as [st'|x st'] eqn:Hp;
        cbn [stores_of] in *.
      * destruct (IH st') with (ev := ev) as (r' & Hr' & Hs & Hc); [done| | |done|].
        { unfold unique_ids. by rewrite Hids. }
        { intros ev' Hin'. pose proof (process_event_other (ws e) e st ev') as Ho.
          rewrite Hp in Ho. apply Ho; [apply Hin; by right|].
          intros Hid. apply He. rewrite <- Hid. by apply list_elem_of_fmap_2. }
        exists r'. split; [done|]. split; [done|].
        intros Hall. apply Hc. intros y Hy. apply Hall. by right.
      * exists ev. split; [done|]. split; [by right|].
        intros Hall. apply process_event_escapes in Hp as [Hn _].
        destruct Hn. apply Hall. left.
Qed.

Lemma settled_same_event ev r r' :
  ev = set_status Processing r → status r = Pending → settled ev r' → same_event 1 r r'.
Proof.
  intros -> Hp (? & ? & ? & ? & ? & _). simpl in *.
  repeat split; try done; lia.
Qed.

Lemma same_event_refl r : same_event 0 r r.
Proof. repeat split; try done; lia. Qed.

Lemma same_event_trans n m r1 r2 r3 :
  0 ≤ n → 0 ≤ m → same_event n r1 r2 → same_event m r2 r3 → same_event (n + m) r1 r3.
Proof.
  intros Hn Hm (H1 & H2 & H3 & H4 & H5 & H6) (G1 & G2 & G3 & G4 & G5 & G6).
  repeat split; try congruence; try lia.
  intros Hs. specialize (H6 Hs). subst r2. by apply G6.
Qed.

Lemma same_event_weaken n m r r' : n ≤ m → same_event n r r' → same_event m r r'.
Proof. intros Hnm (?&?&?&?&?&?). repeat split; try done; lia. Qed.

(** One turn of the loop, row by row. *)
Lemma cycle_rows env ws st r :
  unique_ids (outbox st) → r ∈ outbox st →
  ∃ r', r' ∈ outbox (cycle env ws st) ∧ same_event 1 r r'
        ∧ (∀ limit, BATCH_SIZE env = Some limit → 0 ≤ limit ≤ bigint_max →
             (∀ x, x ∈ outbox st → id x ∈ claim_subquery limit (outbox st) →
                   countable_attempts x) →
             id r ∈ claim_subquery limit (outbox st) →
             settled (set_status Processing r) r').
Proof.
  intros Hnd Hr. unfold cycle.
  destruct (BATCH_SIZE env) as [limit|];
    [|exists r; split; [done|]; split;
      [apply (same_event_weaken 0); [lia | apply same_event_refl] | done]].
  destruct (claimBatch limit (outbox st)) as [e|[batch tbl']] eqn:Hc.
  { exists r. split; [done|]. split;
      [apply (same_event_weaken 0); [lia | apply same_event_refl]|].
    intros l [= <-] Hl. by rewrite claimBatch_fits in Hc. }
  destruct (claimBatch_spec _ _ _ _ Hnd Hc) as (Hnd' & _ & Hb & Hrest).
  destruct (claimBatch_ids _ _ _ _ Hnd Hc) as (Hbn & Hbin & Hbids).
  destruct (decide (id r ∈ claim_subquery limit (outbox st))) as [Hin|Hout].
  - assert (Hp : status r = Pending).
    { destruct (claim_subquery_pending _ _ _ Hin) as (r1 & Hr1 & Hid & Hp).
      by rewrite <- (unique_ids_eq _ r1 r Hnd Hr1 Hr Hid). }
    destruct (process_batch_rows ws batch (mkStores tbl' (graph_session st)))
      with (ev := set_status Processing r) as (r' & Hr' & Hs & Hall); auto.
    { intros ev Hev. by destruct (Hb ev Hev). }
    exists r'. split; [done|]. split.
    + destruct Hs as [Hs| ->].
      * by apply (settled_same_event (set_status Processing r)).
      * repeat split; try done; simpl; lia.
    + intros l [= <-] _ Hcount _. apply Hall. intros x Hx.
      destruct (Hb x Hx) as (_ & _ & r0 & Hr0 & _ & ->).
      apply (Hcount r0 Hr0). by apply (Hbids (set_status Processing r0)).
  - exists r. split; [|split].
    + apply process_batch_other.
      * apply Hrest; [done|]. intros ev Hev Hid. apply Hout. rewrite Hid. by apply Hbids.
      * intros ev Hev Hid. apply Hout. rewrite Hid. by apply Hbids.
    + apply (same_event_weaken 0); [lia | apply same_event_refl].
    + by intros l [= <-] _ _ ?.
Qed.

Lemma dispatch_calls et w (payload : props) s :
  calls (session_of (dispatch et w payload s))
  = if recognized et && valid et payload
    then (query_of et, params_of et w payload) :: calls s else calls s.
Proof.
  destruct (recognized et) eqn:Hk; [|by rewrite dispatch_unknown].
  destruct (valid et payload) eqn:Hv; [|by rewrite dispatch_not_valid].
  rewrite dispatch_valid by done. apply run_calls.
Qed.

Lemma dispatch_reaches w ev s :
  calls (session_of (dispatch (event_type ev) w (payload ev) s))
  = if reaches_store ev
    then (query_of (event_type ev),
          params_of (event_type ev) w (fields_of (payload ev))) :: calls s
    else calls s.
Proof.
  unfold reaches_store. destruct (payload ev) as [|fields].
  - rewrite andb_false_r. destruct (recognized (event_type ev)) eqn:Hk.
    + by rewrite dispatch_null.
    + by rewrite dispatch_unknown.
  - apply dispatch_calls.
Qed.

Lemma process_event_calls w ev st :
  calls (graph_session (stores_of (process_event w ev st)))
  = calls (session_of (dispatch (event_type ev) w (payload ev) (graph_session st))).
Proof. unfold process_event. by destruct (write_back _ _ _). Qed.

Lemma process_batch_calls ws batch st :
  calls (graph_session (stores_of (process_batch ws batch st)))
  = (reverse (graph_calls ws (reached ws batch st)) ++ calls (graph_session st))%list.
Proof.
  revert st. induction batch as [|ev batch IH]; intros st; [done|].
  rewrite process_batch_in_order. cbn [reached].
  pose proof (process_event_calls (ws ev) ev st) as Hc.
  rewrite dispatch_reaches in Hc.
  assert (Hg : ∀ l, (reverse (graph_calls ws (ev :: l)) ++ calls (graph_session st))%list
                    = (reverse (graph_calls ws l)
                       ++ (if reaches_store ev
                           then (query_of (event_type ev),
                                 params_of (event_type ev) (ws ev) (fields_of (payload ev)))
                                :: calls (graph_session st)
                           else calls (graph_session st)))%list).
  { intros l. unfold graph_calls. rewrite filter_cons.
    destruct (reaches_store ev).
    - rewrite decide_True by done. rewrite fmap_cons, reverse_cons.
      by rewrite <- app_assoc.
    - by rewrite decide_False by done. }
  rewrite Hg, <- Hc.
  destruct (process_event (ws ev) ev st) as [st'|e st']; [apply IH | done].
Qed.

Lemma reached_prefix ws batch st : reached ws batch st `prefix_of` batch.
Proof.
  revert st. induction batch as [|ev batch IH]; intros st; [done|].
  cbn [reached]. apply prefix_cons.
  destruct (process_event (ws ev) ev st); [apply IH | apply prefix_nil].
Qed.

Lemma reached_all ws batch st :
  (∀ ev, ev ∈ batch → countable_attempts ev) → reached ws batch st = batch.
Proof.
  revert st. induction batch as [|ev batch IH]; intros st Hc; [done|].
  cbn [reached].
  destruct (process_event_completes (ws ev) ev st) as [st' ->]; [apply Hc; left|].
  f_equal. apply IH. intros ev' Hev'. apply Hc. by right.
Qed.

End Settling.


(* ===================================================================== *)
(** * Further properties: what a query keeps and names *)
(* ===================================================================== *)

Section Keeps.

Implicit Types (ps : props) (q : list clause) (c : clause) (bs : bindings) (g : graph).

Lemma merge_rel_key_type ps bs src type ident dst (k : rel_key) :
  merge_rel_key ps bs src type ident dst = inr k → k.1.1.1 = type.
Proof.
  unfold merge_rel_key.
  destruct (bound bs src); simpl; [done|].
  destruct (bound bs dst); simpl; [done|].
  destruct (pattern_values ps ident); simpl; [done|].
  by intros [= <-].
Qed.

(** A query keeps every node and relationship it finds; it changes only
    the properties its [ON MATCH] assignments write, and nothing of a node
    or relationship without such assignments. *)
Lemma exec_keeps nv rv ps q bs g bs' g' :
  Forall (respects nv rv) q → exec ps q (bs, g) = inr (bs', g') →
  (∀ k p, nodes g !! k = Some p →
     ∃ p', nodes g' !! k = Some p' ∧ strip (nv k.1) p' = strip (nv k.1) p
           ∧ (k ∉ (rewritten ps q bs).1 → p' = p))
  ∧ (∀ k p, rels g !! k = Some p →
       ∃ p', rels g' !! k = Some p' ∧ strip (rv k.1.1.1) p' = strip (rv k.1.1.1) p
             ∧ (k ∉ (rewritten ps q bs).2 → p' = p)).
Proof.
  revert bs g. induction q as [|c q IH]; intros bs g Hq H.
  - injection H as <- <-. split; intros k p Hk; by exists p.
  - apply Forall_cons_1 in Hq as [Hc Hq].
    apply exec_cons_inv in H as ([bs1 g1] & Hx & H).
    destruct (IH _ _ Hq H) as [IHn IHr].
    destruct c as [var label kp oc om | src type ident dst oc om].
    + apply exec_clause_node in Hx as (k0 & p0 & Hk0 & Hw & -> & ->).
      cbn [rewritten]. rewrite Hk0.
      destruct (rewritten ps q (<[var:=k0]> bs)) as [ns rs]. cbn [fst snd nodes rels] in *.
      split; [|exact IHr].
      intros k p Hk. destruct (decide (k = k0)) as [->|Hne].
      * unfold node_key in *. rewrite Hk in Hw.
        destruct (IHn k0 p0) as (p' & Hp' & Hs & Hsame); [by rewrite lookup_insert_eq|].
        exists p'. split; [done|]. split.
        -- rewrite Hs. eapply set_all_strip; [|exact Hw]. simpl in Hc.
           by rewrite (merge_node_key_label _ _ _ _ Hk0).
        -- intros Hout. destruct om as [|a om].
           ++ injection Hw as <-. by apply Hsame.
           ++ exfalso. apply Hout. left.
      * destruct (IHn k p) as (p' & Hp' & Hs & Hsame); [by rewrite lookup_insert_ne|].
        exists p'. split; [done|]. split; [done|].
        intros Hout. apply Hsame. destruct om; [done|].
        by apply not_elem_of_cons in Hout as [_ ?].
    + apply exec_clause_rel in Hx as (k0 & p0 & Hk0 & Hw & -> & ->).
      cbn [rewritten]. rewrite Hk0.
      destruct (rewritten ps q bs) as [ns rs]. cbn [fst snd nodes rels] in *.
      split; [exact IHn|].
      intros k p Hk. destruct (decide (k = k0)) as [->|Hne].
      * unfold rel_key, node_key in *. rewrite Hk in Hw.
        destruct (IHr k0 p0) as (p' & Hp' & Hs & Hsame); [by rewrite lookup_insert_eq|].
        exists p'. split; [done|]. split.
        -- rewrite Hs. eapply set_all_strip; [|exact Hw]. simpl in Hc.
           pose proof (merge_rel_key_type _ _ _ _ _ _ _ Hk0) as Ht.
           unfold rel_key, node_key in *. by rewrite Ht.
        -- intros Hout. destruct om as [|a om].
           ++ injection Hw as <-. by apply Hsame.
           ++ exfalso. apply Hout. left.
      * destruct (IHr k p) as (p' & Hp' & Hs & Hsame); [by rewrite lookup_insert_ne|].
        exists p'. split; [done|]. split; [done|].
        intros Hout. apply Hsame. destruct om; [done|].
        by apply not_elem_of_cons in Hout as [_ ?].
Qed.

(** The nodes and relationships after a query: those before, and those its
    patterns name. *)
Lemma exec_dom ps q bs g bs' g' :
  exec ps q (bs, g) = inr (bs', g') →
  dom (nodes g') = dom (nodes g) ∪ list_to_set (patterns ps q bs).1
  ∧ dom (rels g') = dom (rels g) ∪ list_to_set (patterns ps q bs).2.
Proof.
  revert bs g. induction q as [|c q IH]; intros bs g H.
  - injection H as <- <-. cbn [patterns fst snd].
    split; by rewrite list_to_set_nil, (right_id_L ∅ (∪)).
  - apply exec_cons_inv in H as ([bs1 g1] & Hx & H).
    destruct (IH _ _ H) as [IHn IHr].
    destruct c as [var label kp oc om | src type ident dst oc om].
    + apply exec_clause_node in Hx as (k0 & p0 & Hk0 & Hw & -> & ->).
      cbn [patterns]. rewrite Hk0.
      destruct (patterns ps q (<[var:=k0]> bs)) as [ns rs]. cbn [fst snd nodes rels] in *.
      rewrite IHn, IHr, dom_insert_L. split; [|done].
      by rewrite list_to_set_cons, (comm_L (∪) {[k0]}), <- (assoc_L (∪)).
    + apply exec_clause_rel in Hx as (k0 & p0 & Hk0 & Hw & -> & ->).
      cbn [patterns]. rewrite Hk0.
      destruct (patterns ps q bs) as [ns rs]. cbn [fst snd nodes rels] in *.
      rewrite IHn, IHr, dom_insert_L. split; [done|].
      by rewrite list_to_set_cons, (comm_L (∪) {[k0]}), <- (assoc_L (∪)).
Qed.

End Keeps.

Section Writes.

Implicit Types (w : world) (payload : props) (s : session) (et : string).

Lemma dispatch_dom et w payload s :
  store_fault w = None →
  let g' := store (session_of (dispatch et w payload s)) in
  dom (nodes g') = dom (nodes (store s)) ∪ list_to_set (touched et w payload).1
  ∧ dom (rels g') = dom (rels (store s)) ∪ list_to_set (touched et w payload).2.
Proof.
  intros Hf g'. subst g'. unfold touched.
  destruct (recognized et) eqn:Hk;
    [|rewrite dispatch_inert by auto; cbn [andb fst snd];
      split; by rewrite list_to_set_nil, (right_id_L ∅ (∪))].
  destruct (valid et payload) eqn:Hv;
    [|rewrite dispatch_inert by auto; cbn [andb fst snd];
      split; by rewrite list_to_set_nil, (right_id_L ∅ (∪))].
  destruct (dispatch_writes et w payload s Hk Hv Hf) as (bs & g' & He & ->).
  simpl. by apply exec_dom in He.
Qed.

Lemma dispatch_keeps et w payload s :
  let g' := store (session_of (dispatch et w payload s)) in
  (∀ k p, nodes (store s) !! k = Some p →
     ∃ p', nodes g' !! k = Some p'
           ∧ strip (volatile_nodes et k.1) p' = strip (volatile_nodes et k.1) p
           ∧ (k ∉ (observed et payload).1 → p' = p))
  ∧ (∀ k p, rels (store s) !! k = Some p →
       ∃ p', rels g' !! k = Some p'
             ∧ strip (volatile_rels et k.1.1.1) p' = strip (volatile_rels et k.1.1.1) p
             ∧ (k ∉ (observed et payload).2 → p' = p)).
Proof.
  intros g'. subst g'.
  destruct (recognized et) eqn:Hk;
    [|rewrite dispatch_inert by auto; split; intros k p Hp; by exists p].
  destruct (valid et payload) eqn:Hv;
    [|rewrite dispatch_inert by auto; split; intros k p Hp; by exists p].
  destruct (store_fault w) as [e|] eqn:Hf.
  { rewrite dispatch_inert by (right; right; by rewrite Hf).
    split; intros k p Hp; by exists p. }
  destruct (dispatch_writes et w payload s Hk Hv Hf) as (bs & g' & He & ->).
  simpl. rewrite <- (query_rewritten et w payload Hk Hv).
  by apply (exec_keeps _ _ _ _ _ _ _ _ (query_respects et)) in He.
Qed.

End Writes.


Section Written.

Implicit Types (w : world) (payload : props) (s : session) (ps : props) (g : graph)
  (bs : bindings).

Lemma set_all_cons_set ps p q (l : assignments) (t : props) v :
  ps !! q = Some v → null v = false →
  set_all ps ((p, q) :: l) t = set_all ps l (<[p := v]> t).
Proof. intros Hq Hv. simpl. unfold param. rewrite Hq. simpl. by rewrite Hv. Qed.

Lemma exec_cons_eq ps c q (st st' : bindings * graph) :
  exec_clause ps c st = inr st' → exec ps (c :: q) st = exec ps q st'.
Proof. intros H. by rewrite exec_cons, H. Qed.

Lemma exec_clause_node_eq ps var label kp oc om bs ns rs k (p : props) :
  merge_node_key ps label kp = inr k →
  match ns !! k with
  | Some p0 => set_all ps om p0
  | None => set_all ps oc {[ "id" := k.2 ]}
  end = inr p →
  exec_clause ps (MergeNode var label kp oc om) (bs, mkGraph ns rs)
  = inr (<[var := k]> bs, mkGraph (<[k := p]> ns) rs).
Proof.
  intros Hk Hp. cbn [exec_clause nodes rels]. rewrite Hk. cbn [mbind exn_bind].
  unfold node_key in *. by rewrite Hp.
Qed.

Lemma exec_clause_rel_eq ps src type ident dst oc om bs ns rs k (p : props) :
  merge_rel_key ps bs src type ident dst = inr k →
  match rs !! k with
  | Some p0 => set_all ps om p0
  | None => set_all ps oc (list_to_map k.2)
  end = inr p →
  exec_clause ps (MergeRel src type ident dst oc om) (bs, mkGraph ns rs)
  = inr (bs, mkGraph ns (<[k := p]> rs)).
Proof.
  intros Hk Hp. cbn [exec_clause nodes rels]. rewrite Hk. cbn [mbind exn_bind].
  unfold rel_key, node_key in *. by rewrite Hp.
Qed.

Lemma event_timestamp_not_null w payload : null (event_timestamp w payload) = false.
Proof. by apply null_or_else. Qed.

(** The graph the query of [processTriple] leaves. *)
Lemma triple_exec w payload (ns : gmap node_key props) (rs : gmap rel_key props) :
  valid "triple.insert" payload = true →
  let subject := field payload "subject" in
  let object := field payload "object" in
  let now := event_timestamp w payload in
  let n1 := <[entity subject := default (new_entity subject now) (ns !! entity subject)]>
              ns in
  let n2 := <[entity object := default (new_entity object now) (n1 !! entity object)]> n1 in
  let r := match rs !! triple_relationship payload with
           | Some p => <["updated_at" := now]> p
           | None => <["created_at" := now]> {[ "predicate" := field payload "predicate" ]}
           end in
  ∃ bs, exec (triple_params w payload) cypher_triple (∅, mkGraph ns rs)
        = inr (bs, mkGraph n2 (<[triple_relationship payload := r]> rs)).
Proof.
  intros Hv subject object now n1 n2 r.
  unfold valid in Hv. simpl in Hv. repeat (apply andb_prop in Hv as [? Hv]).
  pose proof (event_timestamp_not_null w payload) as Hnow.
  fold now in Hnow.
  eexists. unfold cypher_triple.
  rewrite (exec_cons_eq _ _ _ _ (<["s" := entity subject]> ∅, mkGraph n1 rs)).
  2:{ apply (exec_clause_node_eq _ _ _ _ _ _ _ _ _ (entity subject));
        [by apply merge_node_key_eq|].
      destruct (ns !! entity subject) as [p|]; [done|].
      rewrite (set_all_cons_set _ _ _ _ _ subject) by (done || by apply truthy_not_null).
      by rewrite (set_all_cons_set _ _ _ _ _ now). }
  rewrite (exec_cons_eq _ _ _ _ (<["o" := entity object]> (<["s" := entity subject]> ∅),
                                 mkGraph n2 rs)).
  2:{ apply (exec_clause_node_eq _ _ _ _ _ _ _ _ _ (entity object));
        [by apply merge_node_key_eq|]. cbn [nodes].
      destruct (n1 !! entity object) as [p|]; [done|].
      rewrite (set_all_cons_set _ _ _ _ _ object) by (done || by apply truthy_not_null).
      by rewrite (set_all_cons_set _ _ _ _ _ now). }
  rewrite (exec_cons_eq _ _ _ _ (<["o" := entity object]> (<["s" := entity subject]> ∅),
             mkGraph n2 (<[triple_relationship payload := r]> rs))); [done|].
  apply (exec_clause_rel_eq _ _ _ _ _ _ _ _ _ _ (triple_relationship payload)).
  - apply merge_rel_key_eq; [done|done|].
    apply pattern_values_single; [done | by apply truthy_not_null].
  - cbn [rels]. subst r.
    destruct (rs !! triple_relationship payload) as [p|].
    + by rewrite (set_all_cons_set _ _ _ _ _ now).
    + rewrite (set_all_cons_set _ _ _ _ _ now) by done. simpl.
      by rewrite insert_empty.
Qed.

(** The graph the query of [processFactlet] leaves. *)
Lemma factlet_exec w payload (ns : gmap node_key props) (rs : gmap rel_key props) :
  valid "factlet.insert" payload = true →
  let crouton_id := field payload "crouton_id" in
  let source_url := field payload "source_url" in
  let text := or_else (field payload "text") (JStr "") in
  let now := event_timestamp w payload in
  let new_f := <["created_at" := now]> (<["claim" := text]> (<["fact_id" := crouton_id]>
                 {[ "id" := JStr (sha256 crouton_id) ]})) in
  let new_w := <["created_at" := now]> (<["url" := source_url]>
                 {[ "id" := JStr (sha256 source_url) ]}) in
  let n1 := <[factlet crouton_id := default new_f (ns !! factlet crouton_id)]> ns in
  let n2 := <[webpage source_url := default new_w (n1 !! webpage source_url)]> n1 in
  ∃ bs, exec (factlet_params w payload) cypher_factlet (∅, mkGraph ns rs)
        = inr (bs, mkGraph n2 (<[from_page payload
                                 := default ∅ (rs !! from_page payload)]> rs)).
Proof.
  intros Hv crouton_id source_url text now new_f new_w n1 n2.
  unfold valid in Hv. simpl in Hv. repeat (apply andb_prop in Hv as [? Hv]).
  pose proof (event_timestamp_not_null w payload) as Hnow.
  fold now in Hnow.
  assert (Htext : null text = false) by (by apply null_or_else).
  eexists. unfold cypher_factlet.
  rewrite (exec_cons_eq _ _ _ _ (<["f" := factlet crouton_id]> ∅, mkGraph n1 rs)).
  2:{ apply (exec_clause_node_eq _ _ _ _ _ _ _ _ _ (factlet crouton_id));
        [by apply merge_node_key_eq|].
      destruct (ns !! factlet crouton_id) as [p|]; [done|].
      rewrite (set_all_cons_set _ _ _ _ _ crouton_id) by (done || by apply truthy_not_null).
      rewrite (set_all_cons_set _ _ _ _ _ text) by done.
      by rewrite (set_all_cons_set _ _ _ _ _ now). }
  rewrite (exec_cons_eq _ _ _ _ (<["w" := webpage source_url]> (<["f" := factlet crouton_id]> ∅),
                                 mkGraph n2 rs)).
  2:{ apply (exec_clause_node_eq _ _ _ _ _ _ _ _ _ (webpage source_url));
        [by apply merge_node_key_eq|]. cbn [nodes].
      destruct (n1 !! webpage source_url) as [p|]; [done|].
      rewrite (set_all_cons_set _ _ _ _ _ source_url) by (done || by apply truthy_not_null).
      by rewrite (set_all_cons_set _ _ _ _ _ now). }
  rewrite (exec_cons_eq _ _ _ _ (<["w" := webpage source_url]> (<["f" := factlet crouton_id]> ∅),
             mkGraph n2 (<[from_page payload := default ∅ (rs !! from_page payload)]> rs))); [done|].
  apply (exec_clause_rel_eq _ _ _ _ _ _ _ _ _ _ (from_page payload)).
  - by apply merge_rel_key_eq.
  - cbn [rels].
    by destruct (rs !! from_page payload) as [p|].
Qed.

End Written.


(* ===================================================================== *)
(** * Further properties: configuration and claims *)
(* ===================================================================== *)

Lemma leading_digits_stop rest m :
  starts_with_digit rest = false → leading_digits rest (Some m) = Some m.
Proof.
  destruct rest as [|a rest]; [done|]. simpl. by destruct (digit_of a).
Qed.

Lemma parseInt_not_empty s n : parseInt s = Some n → String.eqb s "" = false.
Proof. by destruct s. Qed.

(** X1. A setting that is the decimal text of an integer (one that
    JavaScript represents exactly), followed by anything that does not
    begin with a digit, configures that integer: [parseInt] reads back what
    [String] writes, and ignores what follows the digits. *)
Theorem decimal_setting_is_read_back (env : environ) (n : Z) (rest : string) :
  Z.abs n ≤ max_safe_integer →
  starts_with_digit rest = false →
  let text := to_string (JNum n) ++ rest in
  parseInt text = Some n
  ∧ (env !! "BATCH_SIZE" = Some text → BATCH_SIZE env = Some n)
  ∧ (env !! "POLL_INTERVAL_MS" = Some text → POLL_INTERVAL_MS env = Some n).
Proof.
  intros Hn Hrest text.
  assert (Hp : parseInt text = Some n)
    by (by apply parseInt_to_string; [|apply leading_digits_stop]).
  pose proof (parseInt_not_empty _ _ Hp) as Hne.
  split; [done|]. unfold BATCH_SIZE, POLL_INTERVAL_MS, getenv, or_else.
  split; intros ->; simpl; by rewrite Hne.
Qed.

Lemma decimal_setting_is_read_back_witness :
  BATCH_SIZE {[ "BATCH_SIZE" := "250 rows" ]} = Some 250.
Proof.
  refine (proj1 (proj2 (decimal_setting_is_read_back {[ "BATCH_SIZE" := "250 rows" ]}
                          250 " rows" _ _)) _).
  - unfold max_safe_integer. lia.
  - reflexivity.
  - reflexivity.
Defined.

Lemma cycle_idle env ws st :
  (∀ limit, BATCH_SIZE env = Some limit → limit ≤ 0) → cycle env ws st = st.
Proof.
  intros Hl. unfold cycle. destruct (BATCH_SIZE env) as [limit|]; [|done].
  specialize (Hl limit eq_refl). unfold claimBatch.
  destruct (Z.ltb_spec limit 0); [done|].
  assert (limit = 0) as -> by lia.
  change (claim_subquery 0 (outbox st)) with (@nil Z).
  rewrite update_returning_nil. by destruct st.
Qed.

(** X2. A batch size that is not a number, is zero or is negative makes
    every turn of the loop a no-op: nothing is claimed, nothing is written
    to either store, however many turns are taken. *)
Theorem unusable_batch_size_idles (env : environ) (wss : list (row → world)) (st : stores) :
  (∀ limit, BATCH_SIZE env = Some limit → limit ≤ 0) → cycles env wss st = st.
Proof.
  intros Hl. unfold cycles. induction wss as [|ws wss IH]; [done|].
  simpl. by rewrite cycle_idle.
Qed.

Lemma unusable_batch_size_idles_witness :
  cycles {[ "BATCH_SIZE" := "0" ]} [λ _, sample_world; λ _, sample_world]
         (mkStores backlog fresh_session)
  = mkStores backlog fresh_session.
Proof.
  apply unusable_batch_size_idles.
  intros limit H. vm_compute in H. injection H as <-. lia.
Defined.




(* ===================================================================== *)
(** * Further properties: the loop and the graph *)
(* ===================================================================== *)

Lemma settled_set_status st (r r' : row) : settled (set_status st r) r' → settled r r'.
Proof. done. Qed.

Lemma settled_not_processing (ev r' : row) : settled ev r' → status r' ≠ Processing.
Proof.
  intros (_ & _ & _ & _ & _ & [->|[-> _]]); [done|].
  by destruct (retry_status_cases (attempts ev + 1)) as [->| ->].
Qed.

(** X4. One turn of the loop settles every record it claims, when the
    batch size is one the claim accepts and every row the claim selects can
    take one more attempt: the row of a pending record selected by the
    claim query ends the turn with one more attempt and as done, or, with
    an error message, as pending or failed; never as processing. Its id,
    kind, payload and time are as they were. *)
Theorem cycle_settles_claimed_records
    (env : environ) (limit : Z) (ws : row → world) (st : stores) (r : row) :
  BATCH_SIZE env = Some limit → 0 ≤ limit ≤ bigint_max → unique_ids (outbox st) →
  (∀ x, x ∈ outbox st → id x ∈ claim_subquery limit (outbox st) →
        countable_attempts x) →
  r ∈ outbox st → id r ∈ claim_subquery limit (outbox st) →
  ∃ r', find (id r) (outbox (cycle env ws st)) = Some r'
        ∧ settled r r' ∧ status r' ≠ Processing.
Proof.
  intros Hb Hl Hnd Hcount Hr Hin.
  destruct (cycle_rows env ws st r Hnd Hr) as (r' & Hr' & _ & Hs).
  specialize (Hs limit Hb Hl Hcount Hin). apply settled_set_status in Hs.
  exists r'. split; [|split; [done | by eapply settled_not_processing]].
  destruct Hs as (<- & _). apply find_unique; [|done]. by apply cycle_unique_ids.
Qed.

Lemma cycle_settles_claimed_records_witness :
  ∃ r', find 1 (outbox (cycle ∅ (λ _, sample_world) (mkStores backlog fresh_session)))
        = Some r'
        ∧ attempts r' = 1 ∧ status r' ≠ Processing.
Proof.
  destruct (cycle_settles_claimed_records ∅ 500 (λ _, sample_world)
              (mkStores backlog fresh_session)
              (mkRow 1 "triple.insert" (triple_payload "A" "knows" "B") 20 0 Pending None))
    as (r' & Hf & (_ & _ & _ & _ & Ha & _) & Hs).
  - reflexivity.
  - by vm_compute.
  - apply (bool_decide_unpack _). by vm_compute.
  - intros x Hx _.
    apply elem_of_cons in Hx as [->|Hx];
      [|apply list_elem_of_singleton in Hx as ->]; by vm_compute.
  - apply list_elem_of_here.
  - apply (bool_decide_unpack _). by vm_compute.
  - exists r'. split; [exact Hf|]. split; [exact Ha | exact Hs].
Defined.

Lemma cycle_ids env ws st : id <$> outbox (cycle env ws st) = id <$> outbox st.
Proof.
  unfold cycle. destruct (BATCH_SIZE env) as [limit|]; [|done].
  destruct (claimBatch limit (outbox st)) as [e|[batch tbl']] eqn:Hc; [done|].
  rewrite process_batch_ids. cbn [outbox]. by eapply claimBatch_keeps_ids.
Qed.

Lemma cycles_rows env wss st r :
  unique_ids (outbox st) → r ∈ outbox st →
  unique_ids (outbox (cycles env wss st))
  ∧ ∃ r', r' ∈ outbox (cycles env wss st) ∧ same_event (Z.of_nat (length wss)) r r'.
Proof.
  unfold cycles. revert st r.
  induction wss as [|ws wss IH]; intros st r Hnd Hr.
  - split; [done|]. exists r. split; [done | apply same_event_refl].
  - destruct (cycle_rows env ws st r Hnd Hr) as (r1 & Hr1 & Hs1 & _).
    destruct (IH (cycle env ws st) r1) as (Hnd' & r' & Hr' & Hs');
      [by apply cycle_unique_ids | done |].
    split; [done|]. exists r'. split; [done|].
    replace (Z.of_nat (length (ws :: wss))) with (1 + Z.of_nat (length wss))
      by (simpl; lia).
    apply (same_event_trans 1 _ r r1 r'); [lia | lia | done | done].
Qed.

(** X5. The worker never inserts or deletes an outbox row and never
    changes what an event says: after any number of turns the table has the
    same ids in the same places, and each row has its kind, payload and time
    as before, no fewer attempts, at most one more attempt per turn, and is
    unchanged altogether if it was not pending (done, failed, or left in
    processing). *)
Theorem cycles_keep_every_row (env : environ) (wss : list (row → world)) (st : stores) :
  unique_ids (outbox st) →
  id <$> outbox (cycles env wss st) = id <$> outbox st
  ∧ ∀ r, r ∈ outbox st →
      ∃ r', r' ∈ outbox (cycles env wss st) ∧ same_event (Z.of_nat (length wss)) r r'.
Proof.
  intros Hnd. split.
  - clear Hnd. unfold cycles. revert st.
    induction wss as [|ws wss IH]; intros st; [done|].
    simpl. by rewrite IH, cycle_ids.
  - intros r Hr. by destruct (cycles_rows env wss st r Hnd Hr).
Qed.

Lemma cycles_keep_every_row_witness :
  id <$> outbox (cycles ∅ [λ _, sample_world; λ _, sample_world]
                        (mkStores backlog fresh_session))
  = [1; 2].
Proof.
  refine (proj1 (cycles_keep_every_row ∅ [λ _, sample_world; λ _, sample_world]
                   (mkStores backlog fresh_session) _)).
  apply (bool_decide_unpack _). by vm_compute.
Defined.

(** X6. Processing an event never removes anything from the graph and
    never overwrites what an earlier event wrote: whatever the kind, the
    payload, the clock and the health of the store, every node and
    relationship that was in the graph is still there, with every property
    it had, except the "last observed" properties of the kind; and a node or
    relationship other than the one the payload is about is exactly as it
    was. So [created_at], [name], [url], [claim], [fact_id] and
    [first_observed] are written once, by the event that creates their
    node or relationship. *)
Theorem events_never_overwrite (et : string) (w : world) (payload : props) (s : session) :
  let g := store s in
  let g' := store (session_of (dispatch et w payload s)) in
  (∀ k p, nodes g !! k = Some p →
     ∃ p', nodes g' !! k = Some p'
           ∧ (∀ name, name ∉ volatile_nodes et k.1 → p' !! name = p !! name)
           ∧ (k ∉ (observed et payload).1 → p' = p))
  ∧ (∀ k p, rels g !! k = Some p →
       ∃ p', rels g' !! k = Some p'
             ∧ (∀ name, name ∉ volatile_rels et k.1.1.1 → p' !! name = p !! name)
             ∧ (k ∉ (observed et payload).2 → p' = p)).
Proof.
  intros g g'. destruct (dispatch_keeps et w payload s) as [Hn Hr].
  split; intros k p Hk.
  - destruct (Hn k p Hk) as (p' & Hp' & Hs & Hsame).
    exists p'. split; [done|]. split; [|done].
    intros name Hname. apply (f_equal (λ m : props, m !! name)) in Hs.
    rewrite !lookup_strip in Hs. by rewrite !decide_False in Hs.
  - destruct (Hr k p Hk) as (p' & Hp' & Hs & Hsame).
    exists p'. split; [done|]. split; [|done].
    intros name Hname. apply (f_equal (λ m : props, m !! name)) in Hs.
    rewrite !lookup_strip in Hs. by rewrite !decide_False in Hs.
Qed.

(** X7. The worker makes exactly one call to the graph store for each
    record of a batch it gets to that is of a recognized kind and has a
    payload that is an object and passes validation, in the order of the
    batch, and none for the others; whether a call fails changes neither
    the calls that follow nor their parameters, which depend on the record
    and the clock only, not on the graph. The records it gets to are a
    prefix of the batch: all of it when every record can take one more
    attempt, since only an outcome [UPDATE] that overflows [attempts]
    leaves the loop. *)
Theorem one_graph_call_per_valid_event (ws : row → world) (batch : list row) (st : stores) :
  calls (graph_session (stores_of (process_batch ws batch st)))
  = (reverse (graph_calls ws (reached ws batch st)) ++ calls (graph_session st))%list
  ∧ reached ws batch st `prefix_of` batch
  ∧ ((∀ ev, ev ∈ batch → countable_attempts ev) →
     reached ws batch st = batch
     ∧ ∃ st', process_batch ws batch st = Settled st')
  ∧ (length (graph_calls ws batch) ≤ length batch)%nat.
Proof.
  split; [apply process_batch_calls|]. split; [apply reached_prefix|]. split.
  - intros Hc. split; [by apply reached_all | by apply process_batch_completes].
  - unfold graph_calls. rewrite length_fmap. apply length_filter.
Qed.

Lemma one_graph_call_per_valid_event_witness :
  let batch :=
    [ mkRow 1 "triple.insert" (triple_payload "A" "knows" "B") 20 0 Processing None;
      mkRow 2 "triple.insert" (triple_payload "C" "knows" "D") 10 0 Processing None ] in
  let st := mkStores batch fresh_session in
  reached (λ _, sample_world) batch st = batch
  ∧ length (calls (graph_session (stores_of (process_batch (λ _, sample_world) batch st))))
    = 2%nat.
Proof.
  intros batch st.
  assert (Hc : ∀ ev, ev ∈ batch → countable_attempts ev).
  { intros ev Hev.
    apply elem_of_cons in Hev as [->|Hev];
      [|apply list_elem_of_singleton in Hev as ->]; by vm_compute. }
  destruct (one_graph_call_per_valid_event (λ _, sample_world) batch st)
    as (Hcalls & _ & Hall & _).
  destruct (Hall Hc) as [Hr _].
  split; [exact Hr|]. rewrite Hcalls, Hr. reflexivity.
Defined.

(** X8. Which nodes and relationships exist after two events does not
    depend on the order the events are processed in (the order a batch is
    returned in, or the interleaving of kinds): on a healthy store both
    orders leave the nodes and relationships there were, and those the two
    events are about. *)
Theorem event_order_keeps_what_exists
    (et1 et2 : string) (w1 w2 : world) (payload1 payload2 : props) (s : session) :
  store_fault w1 = None → store_fault w2 = None →
  let one_two := store (session_of (dispatch et2 w2 payload2
                                      (session_of (dispatch et1 w1 payload1 s)))) in
  let two_one := store (session_of (dispatch et1 w1 payload1
                                      (session_of (dispatch et2 w2 payload2 s)))) in
  dom (nodes one_two) = dom (nodes two_one)
  ∧ dom (rels one_two) = dom (rels two_one)
  ∧ dom (nodes one_two)
    = dom (nodes (store s)) ∪ list_to_set (touched et1 w1 payload1).1
      ∪ list_to_set (touched et2 w2 payload2).1
  ∧ dom (rels one_two)
    = dom (rels (store s)) ∪ list_to_set (touched et1 w1 payload1).2
      ∪ list_to_set (touched et2 w2 payload2).2.
Proof.
  intros H1 H2 one_two two_one. subst one_two two_one.
  destruct (dispatch_dom et1 w1 payload1 s H1) as [N1 R1].
  destruct (dispatch_dom et2 w2 payload2 s H2) as [N2 R2].
  destruct (dispatch_dom et2 w2 payload2 (session_of (dispatch et1 w1 payload1 s)) H2)
    as [N12 R12].
  destruct (dispatch_dom et1 w1 payload1 (session_of (dispatch et2 w2 payload2 s)) H1)
    as [N21 R21].
  cbv zeta in *. rewrite N12, N21, R12, R21, N1, N2, R1, R2.
  repeat split.
  - rewrite <- !(assoc_L (∪)). f_equal. apply (comm_L (∪)).
  - rewrite <- !(assoc_L (∪)). f_equal. apply (comm_L (∪)).
Qed.

Lemma event_order_keeps_what_exists_witness :
  let a := triple_payload "A" "knows" "B" in
  let b := triple_payload "A" "likes" "C" in
  let run x y := store (session_of (dispatch "triple.insert" sample_world y
                   (session_of (dispatch "triple.insert" sample_world x fresh_session)))) in
  dom (nodes (run a b)) = dom (nodes (run b a)).
Proof.
  intros a b run.
  refine (proj1 (event_order_keeps_what_exists "triple.insert" "triple.insert"
                   sample_world sample_world a b fresh_session _ _)).
  - reflexivity.
  - reflexivity.
Defined.


(* ===================================================================== *)
(** * Further properties: what each transformer writes *)
(* ===================================================================== *)

Section MergeOrCreate.

Context `{Countable K} {A : Type}.

(** [MERGE] with nothing to set on a match: what is there stays. *)
Lemma lookup_insert_default (m : gmap K A) (k k' : K) (d a : A) :
  m !! k = Some a → <[k' := default d (m !! k')]> m !! k = Some a.
Proof.
  intros Hk. destruct (decide (k' = k)) as [->|Hne].
  - by rewrite lookup_insert_eq, Hk.
  - by rewrite lookup_insert_ne.
Qed.

End MergeOrCreate.

Lemma processTriple_run w payload s :
  valid "triple.insert" payload = true →
  processTriple w payload s = run (store_fault w) cypher_triple (triple_params w payload) s.
Proof. apply (dispatch_valid "triple.insert" w payload s eq_refl). Qed.

Lemma processFactlet_run w payload s :
  valid "factlet.insert" payload = true →
  processFactlet w payload s = run (store_fault w) cypher_factlet (factlet_params w payload) s.
Proof. apply (dispatch_valid "factlet.insert" w payload s eq_refl). Qed.

(** X9. What a triple.insert event writes on a healthy store. The subject
    and the object each get an Entity node keyed by the SHA-256 of the
    name; a node that is new gets [id], [name] and [created_at] (the event's
    [created_at], or the clock's reading when it has none) and a node that
    is there already, from whatever earlier event, is left exactly as it is.
    The ASSERTS relationship between them, keyed by the predicate, is
    created with [predicate] and [created_at], or, when it is there already,
    gets [updated_at] and nothing else. No other node or relationship is
    touched. *)
Theorem triple_written (w : world) (payload : props) (s : session) :
  valid "triple.insert" payload = true → store_fault w = None →
  let g := store s in
  let g' := store (session_of (processTriple w payload s)) in
  let subject := field payload "subject" in
  let object := field payload "object" in
  let now := event_timestamp w payload in
  let rk := triple_relationship payload in
  (∀ k p, nodes g !! k = Some p → nodes g' !! k = Some p)
  ∧ (nodes g !! entity subject = None →
       nodes g' !! entity subject = Some (new_entity subject now))
  ∧ (nodes g !! entity object = None → entity object ≠ entity subject →
       nodes g' !! entity object = Some (new_entity object now))
  ∧ (∀ k, k ≠ entity subject → k ≠ entity object → nodes g' !! k = nodes g !! k)
  ∧ rels g' !! rk
    = Some (match rels g !! rk with
            | Some p => <["updated_at" := now]> p
            | None => <["created_at" := now]> {[ "predicate" := field payload "predicate" ]}
            end)
  ∧ (∀ k, k ≠ rk → rels g' !! k = rels g !! k).
Proof.
  intros Hv Hf g g' subject object now rk. subst g g'.
  rewrite processTriple_run, Hf by done. destruct s as [[ns rs] cl].
  destruct (triple_exec w payload ns rs Hv) as [bs He].
  rewrite (run_exec _ _ (mkSession (mkGraph ns rs) cl) bs _ He). cbn [session_of store nodes rels].
  fold subject object now rk. clear He.
  split; [|split; [|split; [|split; [|split]]]].
  - intros k p Hk. by do 2 apply lookup_insert_default.
  - intros Hnew. apply lookup_insert_default. by rewrite lookup_insert_eq, Hnew.
  - intros Hnew Hne. rewrite lookup_insert_eq. by rewrite lookup_insert_ne, Hnew.
  - intros k Hs Ho. by rewrite !lookup_insert_ne.
  - by rewrite lookup_insert_eq.
  - intros k Hk. by rewrite lookup_insert_ne.
Qed.

Lemma triple_written_witness :
  let payload := triple_payload "A" "knows" "B" in
  nodes (store (session_of (processTriple sample_world payload fresh_session)))
    !! entity (JStr "A")
  = Some (new_entity (JStr "A") (JStr "2025-11-02T10:00:00.000Z")).
Proof.
  intros payload.
  destruct (triple_written sample_world payload fresh_session) as (_ & H & _).
  - reflexivity.
  - reflexivity.
  - apply H. apply lookup_empty.
Defined.

(** X10. What a factlet.insert event writes on a healthy store. The crouton
    gets a Factlet node keyed by the SHA-256 of [crouton_id], the page a
    WebPage node keyed by the SHA-256 of [source_url]; a new Factlet node
    gets [id], [fact_id] (the crouton id), [claim] (the text, or the empty
    string when the payload has none) and [created_at], a new WebPage node
    gets [id], [url] and [created_at], and a node that is there already is
    left exactly as it is. The FROM_PAGE relationship is created without
    properties, or left as it is. No other node or relationship is
    touched. *)
Theorem factlet_written (w : world) (payload : props) (s : session) :
  valid "factlet.insert" payload = true → store_fault w = None →
  let g := store s in
  let g' := store (session_of (processFactlet w payload s)) in
  let crouton_id := field payload "crouton_id" in
  let source_url := field payload "source_url" in
  let now := event_timestamp w payload in
  (∀ k p, nodes g !! k = Some p → nodes g' !! k = Some p)
  ∧ (nodes g !! factlet crouton_id = None →
       nodes g' !! factlet crouton_id
       = Some (<["created_at" := now]>
                 (<["claim" := or_else (field payload "text") (JStr "")]>
                    (<["fact_id" := crouton_id]> {[ "id" := JStr (sha256 crouton_id) ]}))))
  ∧ (nodes g !! webpage source_url = None →
       nodes g' !! webpage source_url
       = Some (<["created_at" := now]>
                 (<["url" := source_url]> {[ "id" := JStr (sha256 source_url) ]})))
  ∧ (∀ k, k ≠ factlet crouton_id → k ≠ webpage source_url →
          nodes g' !! k = nodes g !! k)
  ∧ rels g' !! from_page payload = Some (default ∅ (rels g !! from_page payload))
  ∧ (∀ k, k ≠ from_page payload → rels g' !! k = rels g !! k).
Proof.
  intros Hv Hf g g' crouton_id source_url now. subst g g'.
  rewrite processFactlet_run, Hf by done. destruct s as [[ns rs] cl].
  destruct (factlet_exec w payload ns rs Hv) as [bs He].
  rewrite (run_exec _ _ (mkSession (mkGraph ns rs) cl) bs _ He). cbn [session_of store nodes rels].
  fold crouton_id source_url now. clear He.
  split; [|split; [|split; [|split; [|split]]]].
  - intros k p Hk. by do 2 apply lookup_insert_default.
  - intros Hnew. apply lookup_insert_default. by rewrite lookup_insert_eq, Hnew.
  - intros Hnew. rewrite lookup_insert_eq. by rewrite lookup_insert_ne, Hnew.
  - intros k Hs Ho. by rewrite !lookup_insert_ne.
  - by rewrite lookup_insert_eq.
  - intros k Hk. by rewrite lookup_insert_ne.
Qed.

Lemma factlet_written_witness :
  let payload : props :=
    list_to_map [("crouton_id", JStr "c1"); ("source_url", JStr "https://example.com/a")] in
  ∃ p : props,
    nodes (store (session_of (processFactlet sample_world payload fresh_session)))
      !! factlet (JStr "c1") = Some p
    ∧ p !! "claim" = Some (JStr "").
Proof.
  intros payload.
  destruct (factlet_written sample_world payload fresh_session) as (_ & H & _).
  - reflexivity.
  - reflexivity.
  - eexists. split; [apply H, lookup_empty | reflexivity].
Defined.


Section Participation.

Implicit Types (w : world) (payload : props) (s : session).

Lemma base_timestamp_not_null w payload : null (base_timestamp w payload) = false.
Proof. by apply null_or_else. Qed.

(** The graph the query of [processSourceParticipation] leaves. *)
Lemma participation_exec w payload (ns : gmap node_key props) (rs : gmap rel_key props) :
  valid "source_participation.insert" payload = true →
  let domain := field payload "source_domain" in
  let crouton_id := field payload "crouton_id" in
  let now := base_timestamp w payload in
  let new_d := <["created_at" := now]> (<["name" := domain]> {[ "id" := JStr (sha256 domain) ]}) in
  let new_c := <["created_at" := now]> {[ "id" := crouton_id ]} in
  let n1 := <[source_domain domain := default new_d (ns !! source_domain domain)]> ns in
  let n2 := <[crouton crouton_id := default new_c (n1 !! crouton crouton_id)]> n1 in
  let n3 := <[participation_key payload
              := match n2 !! participation_key payload with
                 | Some p => seen_again w payload p
                 | None => new_participation w payload
                 end]> n2 in
  let r1 := <[has_participation payload := default ∅ (rs !! has_participation payload)]> rs in
  let r2 := <[tracks_crouton payload := default ∅ (r1 !! tracks_crouton payload)]> r1 in
  ∃ bs, exec (participation_params w payload) cypher_participation (∅, mkGraph ns rs)
        = inr (bs, mkGraph n3 r2).
Proof.
  intros Hv domain crouton_id now new_d new_c n1 n2 n3 r1 r2.
  unfold valid in Hv. simpl in Hv. repeat (apply andb_prop in Hv as [? Hv]).
  pose proof (base_timestamp_not_null w payload) as Hnow. fold now in Hnow.
  eexists. unfold cypher_participation.
  rewrite (exec_cons_eq _ _ _ _ (<["sd" := source_domain domain]> ∅, mkGraph n1 rs)).
  2:{ apply (exec_clause_node_eq _ _ _ _ _ _ _ _ _ (source_domain domain));
        [by apply merge_node_key_eq|].
      destruct (ns !! source_domain domain) as [p|]; [done|].
      rewrite (set_all_cons_set _ _ _ _ _ domain) by (done || by apply truthy_not_null).
      by rewrite (set_all_cons_set _ _ _ _ _ now). }
  rewrite (exec_cons_eq _ _ _ _
             (<["c" := crouton crouton_id]> (<["sd" := source_domain domain]> ∅),
              mkGraph n2 rs)).
  2:{ apply (exec_clause_node_eq _ _ _ _ _ _ _ _ _ (crouton crouton_id));
        [apply merge_node_key_eq; [done | by apply truthy_not_null]|].
      destruct (n1 !! crouton crouton_id) as [p|]; [done|].
      by rewrite (set_all_cons_set _ _ _ _ _ now). }
  rewrite (exec_cons_eq _ _ _ _
             (<["sp" := participation_key payload]>
                (<["c" := crouton crouton_id]> (<["sd" := source_domain domain]> ∅)),
              mkGraph n3 rs)).
  2:{ apply (exec_clause_node_eq _ _ _ _ _ _ _ _ _ (participation_key payload));
        [by apply merge_node_key_eq|].
      subst n3. destruct (n2 !! participation_key payload) as [p|].
      - rewrite (set_all_cons_set _ _ _ _ _ (or_else (field payload "last_verified") now))
          by (done || by apply null_or_else).
        by rewrite (set_all_cons_set _ _ _ _ _ now).
      - rewrite (set_all_cons_set _ _ _ _ _
                   (or_else (field payload "ai_readable_source") (JBool false)))
          by (done || by apply null_or_else).
        rewrite (set_all_cons_set _ _ _ _ _
                   (or_else (field payload "markdown_discovered") (JBool false)))
          by (done || by apply null_or_else).
        rewrite (set_all_cons_set _ _ _ _ _
                   (or_else (field payload "discovery_method") (JStr "unknown")))
          by (done || by apply null_or_else).
        rewrite (set_all_cons_set _ _ _ _ _ (or_else (field payload "first_observed") now))
          by (done || by apply null_or_else).
        rewrite (set_all_cons_set _ _ _ _ _ (or_else (field payload "last_verified") now))
          by (done || by apply null_or_else).
        by rewrite (set_all_cons_set _ _ _ _ _ now). }
  rewrite (exec_cons_eq _ _ _ _
             (<["sp" := participation_key payload]>
                (<["c" := crouton crouton_id]> (<["sd" := source_domain domain]> ∅)),
              mkGraph n3 r1)).
  2:{ apply (exec_clause_rel_eq _ _ _ _ _ _ _ _ _ _ (has_participation payload)).
      - by apply merge_rel_key_eq.
      - by destruct (rs !! has_participation payload) as [p|]. }
  rewrite (exec_cons_eq _ _ _ _
             (<["sp" := participation_key payload]>
                (<["c" := crouton crouton_id]> (<["sd" := source_domain domain]> ∅)),
              mkGraph n3 r2)); [done|].
  apply (exec_clause_rel_eq _ _ _ _ _ _ _ _ _ _ (tracks_crouton payload)).
  - by apply merge_rel_key_eq.
  - by destruct (r1 !! tracks_crouton payload) as [p|].
Qed.

Lemma processSourceParticipation_run w payload s :
  valid "source_participation.insert" payload = true →
  processSourceParticipation w payload s
  = run (store_fault w) cypher_participation (participation_params w payload) s.
Proof. apply (dispatch_valid "source_participation.insert" w payload s eq_refl). Qed.

End Participation.

(** X11. What a source_participation.insert event writes on a healthy
    store. The domain gets a SourceDomain node keyed by the SHA-256 of
    [source_domain] (created with [id], [name], [created_at]); the crouton
    gets a Crouton node keyed by [crouton_id] itself (created with [id] and
    [created_at]); a node of either kind that is there already is left as
    it is. The SourceParticipation node, keyed by the SHA-256 of
    [crouton_id:source_url], is created with the six properties read from
    the payload and its defaults, or, when it is there already, gets
    [last_verified] and [updated_at] and nothing else. The relationships
    HAS_PARTICIPATION and TRACKS_CROUTON are created without properties or
    left as they are. Nothing else is touched. *)
Theorem participation_written (w : world) (payload : props) (s : session) :
  valid "source_participation.insert" payload = true → store_fault w = None →
  let g := store s in
  let g' := store (session_of (processSourceParticipation w payload s)) in
  let dk := source_domain (field payload "source_domain") in
  let ck := crouton (field payload "crouton_id") in
  let pk := participation_key payload in
  let now := base_timestamp w payload in
  (∀ k p, nodes g !! k = Some p → k ≠ pk → nodes g' !! k = Some p)
  ∧ (nodes g !! dk = None →
       nodes g' !! dk
       = Some (<["created_at" := now]>
                 (<["name" := field payload "source_domain"]>
                    {[ "id" := JStr (sha256 (field payload "source_domain")) ]})))
  ∧ (nodes g !! ck = None →
       nodes g' !! ck = Some (<["created_at" := now]> {[ "id" := field payload "crouton_id" ]}))
  ∧ nodes g' !! pk
    = Some (match nodes g !! pk with
            | Some p => seen_again w payload p
            | None => new_participation w payload
            end)
  ∧ (∀ k, k ≠ dk → k ≠ ck → k ≠ pk → nodes g' !! k = nodes g !! k)
  ∧ rels g' !! has_participation payload
    = Some (default ∅ (rels g !! has_participation payload))
  ∧ rels g' !! tracks_crouton payload
    = Some (default ∅ (rels g !! tracks_crouton payload))
  ∧ (∀ k, k ≠ has_participation payload → k ≠ tracks_crouton payload →
          rels g' !! k = rels g !! k).
Proof.
  intros Hv Hf g g' dk ck pk now. subst g g'.
  rewrite processSourceParticipation_run, Hf by done. destruct s as [[ns rs] cl].
  destruct (participation_exec w payload ns rs Hv) as [bs He].
  rewrite (run_exec _ _ (mkSession (mkGraph ns rs) cl) bs _ He).
  cbn [session_of store nodes rels]. fold dk ck pk now. clear He.
  assert (Hdp : dk ≠ pk) by done. assert (Hcp : ck ≠ pk) by done.
  assert (Hdc : dk ≠ ck) by done.
  assert (Hrel : has_participation payload ≠ tracks_crouton payload) by done.
  split; [|split; [|split; [|split; [|split; [|split; [|split]]]]]].
  - intros k p Hk Hne. rewrite lookup_insert_ne by done.
    by do 2 apply lookup_insert_default.
  - intros Hnew. rewrite lookup_insert_ne by done. apply lookup_insert_default.
    by rewrite lookup_insert_eq, Hnew.
  - intros Hnew. rewrite lookup_insert_ne by done. rewrite lookup_insert_eq.
    by rewrite lookup_insert_ne, Hnew.
  - rewrite lookup_insert_eq. by rewrite !lookup_insert_ne.
  - intros k H1 H2 H3. by rewrite !lookup_insert_ne.
  - rewrite lookup_insert_ne by done. by rewrite lookup_insert_eq.
  - rewrite lookup_insert_eq. by rewrite lookup_insert_ne.
  - intros k H1 H2. by rewrite !lookup_insert_ne.
Qed.

Lemma participation_written_witness :
  nodes (store (session_of (processSourceParticipation sample_world bare_participation
                              fresh_session)))
    !! crouton (JStr "c1")
  = Some (<["created_at" := JStr "2025-11-02T10:00:00.000Z"]> {[ "id" := JStr "c1" ]}).
Proof.
  destruct (participation_written sample_world bare_participation fresh_session)
    as (_ & _ & H & _).
  - reflexivity.
  - reflexivity.
  - apply H. apply lookup_empty.
Defined.


(* ===================================================================== *)
(** * Further properties: the backfill script *)
(* ===================================================================== *)

Section BackfillScript.

Variable timestamptz_json : Z → string.

Implicit Types (db : database) (tbl : table) (t : triple_row) (c : crouton_row) (r : row).

Lemma has_event_app kind i tbl1 tbl2 :
  has_event kind i (tbl1 ++ tbl2) = has_event kind i tbl1 || has_event kind i tbl2.
Proof. unfold has_event. apply existsb_app. Qed.

Lemma has_event_elem kind i tbl :
  has_event kind i tbl = true ↔
  ∃ r, r ∈ tbl ∧ event_type r = kind ∧ json_text (field (fields_of (payload r)) "id") = Some i.
Proof.
  unfold has_event. rewrite existsb_exists. split.
  - intros (r & Hr & Hk). apply andb_prop in Hk as [Hk Hi].
    exists r. split; [by apply list_elem_of_In|]. split.
    + by apply String.eqb_eq.
    + by apply bool_decide_eq_true in Hi.
  - intros (r & Hr & Hk & Hi). exists r. split; [by apply list_elem_of_In|].
    apply andb_true_intro. split.
    + by apply String.eqb_eq.
    + by apply bool_decide_eq_true.
Qed.

Lemma insert_events_length kind new next :
  length (insert_events kind new next) = length new.
Proof.
  revert next. induction new as [|[p a] new IH]; intros next; simpl; [done|].
  by rewrite IH.
Qed.

(** The rows an [INSERT] adds, one by one. *)
Lemma insert_events_elem kind new next r :
  r ∈ insert_events kind new next ↔
  ∃ (i : nat) ev, new !! i = Some ev ∧ id r = next + Z.of_nat i ∧ fresh_event kind ev r.
Proof.
  revert next. induction new as [|[p a] new IH]; intros next; simpl.
  - split; [by intros ?%elem_of_nil | by intros (i & ev & ? & _)].
  - rewrite elem_of_cons, IH. split.
    + intros [->|(i & ev & Hi & Hid & Hf)].
      * exists 0%nat, (p, a). repeat split; simpl; lia.
      * exists (S i), ev. split; [done|]. split; [lia|done].
    + intros ([|i] & ev & Hi & Hid & Hk & Hp & Ho & Ha & Hs & He).
      * left. injection Hi as <-. destruct r. simpl in *. subst. f_equal. lia.
      * right. exists i, ev. split; [done|]. split; [lia|]. by repeat split.
Qed.

Lemma insert_events_ids kind new next :
  id <$> insert_events kind new next = (λ i : nat, next + Z.of_nat i) <$> seq 0 (length new).
Proof.
  revert next. induction new as [|[p a] new IH]; intros next; simpl; [done|].
  f_equal; [lia|]. rewrite IH, <- fmap_S_seq, <- list_fmap_compose.
  apply list_fmap_ext. intros _ i _. simpl. lia.
Qed.

Lemma insert_events_unique kind new next tbl :
  unique_ids tbl → (∀ r, r ∈ tbl → id r < next) →
  unique_ids (tbl ++ insert_events kind new next).
Proof.
  unfold unique_ids. intros Hnd Hlt. rewrite fmap_app. apply list.NoDup_app.
  split; [done|]. split.
  - intros i Hi Hi'. apply list_elem_of_fmap in Hi as (r & -> & Hr).
    apply list_elem_of_fmap in Hi' as (r' & Hid & Hr').
    apply insert_events_elem in Hr' as (j & ev & _ & Hj & _).
    specialize (Hlt r Hr). lia.
  - rewrite insert_events_ids. apply NoDup_fmap_2; [|apply NoDup_seq].
    intros i j Hij. lia.
Qed.

Lemma insert_events_has_event kind (A : Type) (f : A → props * Z) (key : A → string)
    (l : list A) next x :
  (∀ y, json_text (field (f y).1 "id") = Some (key y)) →
  x ∈ l → has_event kind (key x) (insert_events kind (f <$> l) next) = true.
Proof.
  intros Hkey Hx. apply has_event_elem.
  apply list_elem_of_lookup in Hx as [i Hi].
  exists (mkRow (next + Z.of_nat i) kind (f x).1 (f x).2 0 Pending None).
  split; [|split; [done | apply Hkey]].
  apply insert_events_elem. exists i, (f x).
  split; [by rewrite list_lookup_fmap, Hi|]. by repeat split.
Qed.

Lemma triple_event_id t : json_text (field (triple_event timestamptz_json t).1 "id") = Some (t_id t).
Proof. reflexivity. Qed.

Lemma factlet_event_id c :
  json_text (field (factlet_event timestamptz_json c).1 "id") = Some (c_id c).
Proof. reflexivity. Qed.

(** After the first statement every triple has its event. *)
Lemma backfill_triples_covers db t :
  t ∈ triples db →
  has_event "triple.insert" (t_id t) (events (backfill_triples timestamptz_json db).2) = true.
Proof.
  intros Ht. unfold backfill_triples. cbn [snd events]. rewrite has_event_app.
  destruct (has_event "triple.insert" (t_id t) (events db)) eqn:He; [done|]. simpl.
  apply (insert_events_has_event _ _ (triple_event timestamptz_json) t_id);
    [apply triple_event_id|].
  by apply list_elem_of_filter.
Qed.

Lemma backfill_factlets_covers db c :
  c ∈ croutons db →
  has_event "factlet.insert" (c_id c) (events (backfill_factlets timestamptz_json db).2) = true.
Proof.
  intros Hc. unfold backfill_factlets. cbn [snd events]. rewrite has_event_app.
  destruct (has_event "factlet.insert" (c_id c) (events db)) eqn:He; [done|]. simpl.
  apply (insert_events_has_event _ _ (factlet_event timestamptz_json) c_id);
    [apply factlet_event_id|].
  by apply list_elem_of_filter.
Qed.

Lemma filter_none {A} (P : A → Prop) `{∀ x, Decision (P x)} (l : list A) :
  (∀ x, x ∈ l → ¬ P x) → filter P l = [].
Proof.
  induction l as [|x l IH]; intros Hl; [done|].
  rewrite filter_cons, decide_False by (apply Hl; left).
  apply IH. intros y Hy. apply Hl. by right.
Qed.

(** A statement that finds an event for every source row inserts nothing. *)
Lemma backfill_triples_covered db :
  (∀ t, t ∈ triples db → has_event "triple.insert" (t_id t) (events db) = true) →
  backfill_triples timestamptz_json db = (0%nat, db).
Proof.
  intros Hall. unfold backfill_triples.
  rewrite filter_none by (intros t Ht; by rewrite (Hall t Ht)).
  simpl. rewrite app_nil_r, Z.add_0_r. by destruct db.
Qed.

Lemma backfill_factlets_covered db :
  (∀ c, c ∈ croutons db → has_event "factlet.insert" (c_id c) (events db) = true) →
  backfill_factlets timestamptz_json db = (0%nat, db).
Proof.
  intros Hall. unfold backfill_factlets.
  rewrite filter_none by (intros c Hc; by rewrite (Hall c Hc)).
  simpl. rewrite app_nil_r, Z.add_0_r. by destruct db.
Qed.

Lemma backfill_eq db :
  backfill timestamptz_json db
  = ((backfill_triples timestamptz_json db).1,
     (backfill_factlets timestamptz_json (backfill_triples timestamptz_json db).2).1,
     (backfill_factlets timestamptz_json (backfill_triples timestamptz_json db).2).2).
Proof. reflexivity. Qed.

End BackfillScript.


Section BackfillTheorems.

Variable timestamptz_json : Z → string.

Implicit Types (db : database) (tbl : table) (t : triple_row) (c : crouton_row) (r : row).

Local Abbreviation backfill_triples := (backfill_triples timestamptz_json).
Local Abbreviation backfill_factlets := (backfill_factlets timestamptz_json).
Local Abbreviation backfill := (backfill timestamptz_json).
Local Abbreviation triple_event := (triple_event timestamptz_json).
Local Abbreviation factlet_event := (factlet_event timestamptz_json).

Lemma insert_events_other_kind kind kind' new next i :
  kind ≠ kind' → has_event kind' i (insert_events kind new next) = false.
Proof.
  intros Hk. apply not_true_is_false. intros He.
  apply has_event_elem in He as (r & Hr & Hkind & _).
  apply insert_events_elem in Hr as (_ & _ & _ & _ & Hk' & _). congruence.
Qed.

(** X12. Running the backfill script again inserts nothing: after one run
    every triple and every crouton has its event, so a second run reports
    two counts of zero and leaves the database as the first run left it. *)
Theorem backfill_again_inserts_nothing (db : database) :
  backfill (backfill db).2 = (0%nat, 0%nat, (backfill db).2).
Proof.
  rewrite (backfill_eq _ (backfill db).2), (backfill_eq _ db). cbn [fst snd].
  set (db1 := (backfill_triples db).2).
  set (db2 := (backfill_factlets db1).2).
  assert (H1 : backfill_triples db2 = (0%nat, db2)).
  { apply backfill_triples_covered. intros t Ht.
    unfold db2, Backfill.backfill_factlets. cbn [snd events].
    rewrite has_event_app. apply orb_true_intro. left.
    by apply backfill_triples_covers. }
  rewrite H1. cbn [fst snd].
  assert (H2 : backfill_factlets db2 = (0%nat, db2)).
  { apply backfill_factlets_covered. intros c Hc.
    by apply backfill_factlets_covers. }
  by rewrite H2.
Qed.

(** X13. What one run of the backfill script does to the outbox. It
    appends rows and changes none that was there; it adds exactly one
    event for each triple, and one for each crouton, that had no event of
    its kind whose payload [id] is its id, and none for the others (the
    two kinds do not count for each other; the order the source rows are
    read in is left open); a row it adds is pending, with
    no attempt and no error, and its [occurred_at] is the [created_at] of
    the source row, not the time of the backfill. Afterwards every triple
    and every crouton has its event. The counts the script logs are the
    numbers of rows added. *)
Theorem backfill_adds_the_missing_events (db : database) :
  let missing_triples :=
    filter (λ t, has_event "triple.insert" (t_id t) (events db) = false) (triples db) in
  let missing_croutons :=
    filter (λ c, has_event "factlet.insert" (c_id c) (events db) = false) (croutons db) in
  let db' := (backfill db).2 in
  (backfill db).1 = (length missing_triples, length missing_croutons)
  ∧ triples db' = triples db ∧ croutons db' = croutons db
  ∧ (∀ t, t ∈ triples db → has_event "triple.insert" (t_id t) (events db') = true)
  ∧ (∀ c, c ∈ croutons db → has_event "factlet.insert" (c_id c) (events db') = true)
  ∧ ∃ rows1 rows2 from1 from2,
      events db' = (events db ++ rows1 ++ rows2)%list
      ∧ from1 ≡ₚ missing_triples ∧ from2 ≡ₚ missing_croutons
      ∧ Forall2 (λ t r, fresh_event "triple.insert" (triple_event t) r) from1 rows1
      ∧ Forall2 (λ c r, fresh_event "factlet.insert" (factlet_event c) r) from2 rows2.
Proof.
  intros missing_triples missing_croutons db'. subst db'.
  rewrite (backfill_eq _ db). cbn [fst snd].
  set (db1 := (backfill_triples db).2).
  assert (Hsame : ∀ c, has_event "factlet.insert" (c_id c) (events db1)
                       = has_event "factlet.insert" (c_id c) (events db)).
  { intros c. unfold db1, Backfill.backfill_triples. cbn [snd events].
    rewrite has_event_app, insert_events_other_kind by done. apply orb_false_r. }
  assert (Hmiss : filter (λ c, has_event "factlet.insert" (c_id c) (events db1) = false)
                         (croutons db1) = missing_croutons).
  { unfold missing_croutons. apply list_filter_iff. intros c. by rewrite Hsame. }
  assert (Hrows : ∀ kind (A : Type) (f : A → props * Z) (l : list A) next,
             Forall2 (λ x r, fresh_event kind (f x) r) l (insert_events kind (f <$> l) next)).
  { intros kind A f l. induction l as [|x l IH]; intros next; simpl; [constructor|].
    destruct (f x) as [p a] eqn:Hf. constructor; [rewrite Hf; by unfold fresh_event | apply IH]. }
  split; [|split; [reflexivity|split; [reflexivity|split; [|split]]]].
  - unfold Backfill.backfill_factlets, Backfill.backfill_triples. cbn [fst].
    rewrite !insert_events_length, !length_fmap. f_equal. fold db1. by rewrite Hmiss.
  - intros t Ht. unfold Backfill.backfill_factlets. cbn [snd events].
    rewrite has_event_app. apply orb_true_intro. left.
    by apply backfill_triples_covers.
  - intros c Hc. by apply backfill_factlets_covers.
  - exists (insert_events "triple.insert" (triple_event <$> missing_triples) (next_id db)),
           (insert_events "factlet.insert" (factlet_event <$> missing_croutons) (next_id db1)),
           missing_triples, missing_croutons.
    split; [|split; [done|split; [done|split; apply Hrows]]].
    unfold Backfill.backfill_factlets. cbn [snd events]. rewrite Hmiss.
    unfold db1 at 1, Backfill.backfill_triples. cbn [snd events].
    by rewrite <- app_assoc.
Qed.

Lemma backfill_triples_ids db :
  unique_ids (events db) → sequence_ahead db →
  unique_ids (events (backfill_triples db).2) ∧ sequence_ahead (backfill_triples db).2
  ∧ next_id db ≤ next_id (backfill_triples db).2.
Proof.
  intros Hnd Hseq. unfold Backfill.backfill_triples. cbn [snd events next_id].
  split; [by apply insert_events_unique|]. split; [|lia].
  intros r Hr. cbn [events next_id] in *. apply elem_of_app in Hr as [Hr|Hr].
  - specialize (Hseq r Hr). lia.
  - apply insert_events_elem in Hr as (i & ev & Hi & -> & _).
    apply lookup_lt_Some in Hi. rewrite insert_events_length. lia.
Qed.

Lemma backfill_factlets_ids db :
  unique_ids (events db) → sequence_ahead db →
  unique_ids (events (backfill_factlets db).2) ∧ sequence_ahead (backfill_factlets db).2
  ∧ next_id db ≤ next_id (backfill_factlets db).2.
Proof.
  intros Hnd Hseq. unfold Backfill.backfill_factlets. cbn [snd events next_id].
  split; [by apply insert_events_unique|]. split; [|lia].
  intros r Hr. cbn [events next_id] in *. apply elem_of_app in Hr as [Hr|Hr].
  - specialize (Hseq r Hr). lia.
  - apply insert_events_elem in Hr as (i & ev & Hi & -> & _).
    apply lookup_lt_Some in Hi. rewrite insert_events_length. lia.
Qed.

(** X14. The backfill keeps the primary key of the outbox: when the ids in
    the outbox are distinct and were all drawn from the sequence, they
    still are after a run, the events added included; the sequence never
    goes back. *)
Theorem backfill_keeps_ids_unique (db : database) :
  unique_ids (events db) → sequence_ahead db →
  unique_ids (events (backfill db).2) ∧ sequence_ahead (backfill db).2
  ∧ next_id db ≤ next_id (backfill db).2.
Proof.
  intros Hnd Hseq. rewrite (backfill_eq _ db). cbn [snd].
  destruct (backfill_triples_ids db Hnd Hseq) as (Hnd1 & Hseq1 & Hn1).
  destruct (backfill_factlets_ids _ Hnd1 Hseq1) as (Hnd2 & Hseq2 & Hn2).
  split; [done|]. split; [done|lia].
Qed.

(** X15. A backfilled triple goes through the worker with the time of the
    triple, not the time of the backfill or of the processing: when its
    subject, predicate and object are not empty it passes validation, and
    on a healthy store the Entity node and the ASSERTS relationship it
    creates get the triple's [created_at] as their [created_at], whatever
    the clock reads. When one of the three is [NULL] or empty, the event
    fails validation every time it is processed. *)
Theorem backfilled_triple_keeps_its_time (t : triple_row) (w : world) (s : session) :
  timestamptz_json (t_created_at t) ≠ "" → store_fault w = None →
  let payload := (triple_event t).1 in
  let stamp := JStr (timestamptz_json (t_created_at t)) in
  let g' := store (session_of (dispatch "triple.insert" w payload s)) in
  valid "triple.insert" payload
  = truthy (t_subject t) && truthy (t_predicate t) && truthy (t_object t)
  ∧ (valid "triple.insert" payload = false →
       dispatch "triple.insert" w payload s
       = Throw (Error "Missing required triple fields") s)
  ∧ (valid "triple.insert" payload = true →
       (nodes (store s) !! entity (t_subject t) = None →
          nodes g' !! entity (t_subject t) = Some (new_entity (t_subject t) stamp))
       ∧ (rels (store s) !! triple_relationship payload = None →
            rels g' !! triple_relationship payload
            = Some (<["created_at" := stamp]> {[ "predicate" := t_predicate t ]}))).
Proof.
  intros Hts Hf payload stamp g'.
  assert (Hnow : event_timestamp w payload = stamp).
  { unfold event_timestamp. apply or_else_truthy_l.
    change (field payload "created_at") with stamp. simpl.
    apply negb_true_iff. by apply String.eqb_neq. }
  split; [|split].
  - unfold valid. simpl. change (field payload "subject") with (t_subject t).
    change (field payload "predicate") with (t_predicate t).
    change (field payload "object") with (t_object t). by rewrite andb_true_r, andb_assoc.
  - intros Hv. by apply (dispatch_not_valid "triple.insert").
  - intros Hv. subst g'.
    change (dispatch "triple.insert" w payload s) with (processTriple w payload s).
    rewrite processTriple_run, Hf by done. destruct s as [[ns rs] cl].
    destruct (triple_exec w payload ns rs Hv) as [bs He].
    rewrite (run_exec _ _ (mkSession (mkGraph ns rs) cl) bs _ He).
    cbn [session_of store nodes rels]. clear He. rewrite Hnow.
    change (field payload "subject") with (t_subject t).
    change (field payload "predicate") with (t_predicate t). split.
    + intros Hnew. apply lookup_insert_default. by rewrite lookup_insert_eq, Hnew.
    + intros Hnew. by rewrite lookup_insert_eq, Hnew.
Qed.

End BackfillTheorems.

Lemma backfill_keeps_ids_unique_witness :
  unique_ids (events (backfill sample_rendering sample_database).2).
Proof.
  refine (proj1 (backfill_keeps_ids_unique sample_rendering sample_database _ _)).
  - apply NoDup_singleton.
  - intros r Hr. apply list_elem_of_singleton in Hr. subst r. simpl. lia.
Defined.

Lemma backfilled_triple_keeps_its_time_witness :
  let t := mkTripleRow "t2" (JStr "C") (JStr "knows") (JStr "D") JNull 7 in
  valid "triple.insert" (triple_event sample_rendering t).1 = true.
Proof.
  intros t.
  refine (proj1 (backfilled_triple_keeps_its_time sample_rendering t sample_world
                   fresh_session _ _)).
  - by vm_compute.
  - reflexivity.
Defined.


(* ===================================================================== *)
(** * Further properties: outcomes and the graph *)
(* ===================================================================== *)

Section Integrity.

Implicit Types (tbl : table) (r ev : row) (st : stores) (w : world) (s : session)
  (et : string) (payload : props).

(** A transformer that returns has run its query to the end. *)
Lemma dispatch_ok_inv et w payload s s' :
  dispatch et w payload s = Ok s' → recognized et = true →
  ∃ bs, exec (params_of et w payload) (query_of et) (∅, store s) = inr (bs, store s').
Proof.
  intros Hd Hk. destruct (valid et payload) eqn:Hv;
    [|by rewrite dispatch_not_valid in Hd].
  rewrite dispatch_valid in Hd by done. unfold run in Hd.
  destruct (store_fault w); [done|].
  destruct (exec (params_of et w payload) (query_of et) (∅, store s)) as [e|[bs g]];
    [done|].
  injection Hd as <-. by exists bs.
Qed.

(** A transformer that throws has written nothing. *)
Lemma dispatch_throw_inv et w payload s e s' :
  dispatch et w payload s = Throw e s' → store s' = store s.
Proof.
  intros Hd. destruct (recognized et) eqn:Hk; [|by rewrite dispatch_unknown in Hd].
  destruct (valid et payload) eqn:Hv;
    [|rewrite dispatch_not_valid in Hd by done; by injection Hd as _ <-].
  rewrite dispatch_valid in Hd by done. unfold run in Hd.
  destruct (store_fault w); [by injection Hd as _ <-|].
  destruct (exec (params_of et w payload) (query_of et) (∅, store s)) as [e'|[bs g]];
    [by injection Hd as _ <- | done].
Qed.

(** On a healthy store a transformer throws for an invalid payload only. *)
Lemma dispatch_ok et w payload s :
  store_fault w = None → (recognized et = true → valid et payload = true) →
  ∃ s', dispatch et w payload s = Ok s'.
Proof.
  intros Hf Hv. destruct (recognized et) eqn:Hk.
  - destruct (dispatch_writes et w payload s Hk (Hv eq_refl) Hf) as (bs & g' & _ & ->).
    by eexists.
  - rewrite dispatch_unknown by done. by eexists.
Qed.

(** The same, of the document of a record. *)
Lemma dispatch_document_ok_inv et w (d : document) s s' :
  dispatch et w d s = Ok s' → recognized et = true →
  ∃ bs, exec (params_of et w (fields_of d)) (query_of et) (∅, store s)
        = inr (bs, store s').
Proof.
  destruct d as [|fields]; intros Hd Hk.
  - by rewrite dispatch_null in Hd.
  - by apply (dispatch_ok_inv et w fields).
Qed.

Lemma dispatch_document_throw_inv et w (d : document) s e s' :
  dispatch et w d s = Throw e s' → store s' = store s.
Proof.
  destruct d as [|fields]; [|apply dispatch_throw_inv]. intros Hd.
  destruct (recognized et) eqn:Hk.
  - rewrite dispatch_null in Hd by done. by injection Hd as _ <-.
  - by rewrite dispatch_unknown in Hd.
Qed.

Lemma reaches_store_inv ev :
  reaches_store ev = true →
  recognized (event_type ev) = true
  ∧ ∃ fields, payload ev = Obj fields ∧ valid (event_type ev) fields = true.
Proof.
  unfold reaches_store. intros H. apply andb_true_iff in H as [Hk Hv].
  split; [done|]. destruct (payload ev) as [|fields]; [done|]. by exists fields.
Qed.

Lemma dispatch_reaching_ok w ev s :
  store_fault w = None →
  (recognized (event_type ev) = true → reaches_store ev = true) →
  ∃ s', dispatch (event_type ev) w (payload ev) s = Ok s'.
Proof.
  intros Hf Hv. destruct (recognized (event_type ev)) eqn:Hk;
    [|rewrite dispatch_unknown by done; by eexists].
  destruct (reaches_store_inv ev (Hv eq_refl)) as (_ & fields & -> & Hvalid).
  by apply dispatch_ok.
Qed.

Lemma process_batch_done ws batch st :
  NoDup (id <$> batch) → unique_ids (outbox st) → (∀ ev, ev ∈ batch → ev ∈ outbox st) →
  (∀ ev, ev ∈ batch → attempts ev + 1 ≤ int_max) →
  (∀ ev s, ev ∈ batch → ∃ s', dispatch (event_type ev) (ws ev) (payload ev) s = Ok s') →
  ∀ ev, ev ∈ batch → done_row ev ∈ outbox (stores_of (process_batch ws batch st)).
Proof.
  revert st. induction batch as [|e batch IH]; intros st Hb Hnd Hin Hfit Hok ev Hev.
  - by apply elem_of_nil in Hev.
  - rewrite fmap_cons in Hb.
    pose proof (NoDup_cons_1_1 _ _ Hb) as He. apply NoDup_cons_1_2 in Hb.
    destruct (Hok e (graph_session st)) as [s' Hs']; [left|].
    assert (Hein : e ∈ outbox st) by (apply Hin; left).
    pose proof (process_event_ok (ws e) e st s' Hs'
                  (only_row_fits _ _ Hnd Hein (Hfit e ltac:(left)))) as Hp.
    rewrite process_batch_in_order, Hp.
    apply elem_of_cons in Hev as [->|Hev].
    + apply process_batch_other.
      * cbn [outbox]. apply (find_elem_of (id e)).
        apply find_updated_own; [done|]. by apply find_unique.
      * intros ev' Hev' Hid. apply He. simpl in Hid. rewrite Hid.
        by apply list_elem_of_fmap_2.
    + apply IH; [done| | |by intros ev' ?; apply Hfit; right
                 |by intros ev' s ?; apply Hok; right|done].
      * unfold unique_ids. cbn [outbox]. by rewrite updated_ids.
      * intros ev' Hev'. cbn [outbox]. apply updated_other; [apply Hin; by right|].
        intros Hid. apply He. rewrite <- Hid. by apply list_elem_of_fmap_2.
Qed.

End Integrity.

(** X16. The status of a record tells what its processing did to the
    graph. After the body of the loop has run for a claimed record whose
    outcome could be written, its row is either done, and then (for a
    recognized kind) every pattern of the record's query is in the graph;
    or it is not done, and then it carries an error message and the graph
    is exactly as it was before the record: a failed attempt, whatever made
    it fail, leaves nothing behind for the retry to trip over. The outcome
    cannot be written only when one more attempt does not fit the
    [attempts] column: then the row is as it was, and the error leaves the
    loop over the batch. *)
Theorem outcome_tells_what_was_written (w : world) (ev : row) (st : stores) :
  unique_ids (outbox st) → ev ∈ outbox st →
  let st' := stores_of (process_event w ev st) in
  ∃ r', find (id ev) (outbox st') = Some r'
        ∧ ((process_event w ev st = Settled st'
            ∧ status r' = Done
            ∧ (recognized (event_type ev) = true →
                 matched (params_of (event_type ev) w (fields_of (payload ev)))
                         (query_of (event_type ev)) ∅ (store (graph_session st'))))
           ∨ (process_event w ev st = Settled st'
              ∧ status r' ≠ Done ∧ is_Some (error r')
              ∧ store (graph_session st') = store (graph_session st))
           ∨ (process_event w ev st = Escaped (out_of_range "integer") st'
              ∧ r' = ev ∧ ¬ countable_attempts ev)).
Proof.
  intros Hnd Hev st'. subst st'. pose proof (find_unique _ _ Hnd Hev) as Hf.
  assert (Hover : ¬ countable_attempts ev →
            ∀ res, write_back ev res (outbox st) = inl (out_of_range "integer")
                   ∨ ∃ s', res = Ok s' ∧ attempts ev + 1 ≤ int_max).
  { intros Hn res. destruct (decide (attempts ev + 1 ≤ int_max)) as [Hfit|Hfit].
    - destruct res as [s'|e s']; [right; by exists s'|]. left.
      by apply write_failure_overflow.
    - left. apply write_back_overflow; [done | lia]. }
  destruct (dispatch (event_type ev) w (payload ev) (graph_session st)) as [s'|e s'] eqn:Hd.
  - destruct (decide (attempts ev + 1 ≤ int_max)) as [Hfit|Hfit].
    + rewrite (process_event_ok _ _ _ s' Hd) by by apply only_row_fits.
      cbn [stores_of outbox graph_session].
      exists (done_row ev). split; [by apply find_updated_own|].
      left. split; [done|]. split; [done|]. intros Hk.
      destruct (dispatch_document_ok_inv _ _ _ _ _ Hd Hk) as [bs He].
      by eapply exec_matched.
    + rewrite process_event_overflow by (done || lia). rewrite Hd.
      cbn [stores_of outbox session_of]. exists ev. split; [done|].
      right. right. split; [done|]. split; [done|].
      unfold countable_attempts. lia.
  - destruct (countable_attempts_dec ev) as [Hc|Hc].
    + rewrite (process_event_throw _ _ _ e s') by done.
      cbn [stores_of outbox graph_session].
      exists (failed_row (attempts ev) e ev). split; [by apply find_updated_own|].
      right. left. split; [done|].
      split; [|split; [done | by eapply dispatch_document_throw_inv]].
      simpl. by destruct (retry_status_cases (attempts ev + 1)) as [->| ->].
    + unfold process_event. rewrite Hd.
      destruct (Hover Hc (Throw e s')) as [-> | (s0 & [=] & _)].
      cbn [stores_of outbox session_of]. exists ev. split; [done|].
      right. right. done.
Qed.

Lemma outcome_tells_what_was_written_witness :
  ∃ r', find 3 (outbox (stores_of (process_event sample_world malformed_row
                                      (mkStores [malformed_row] fresh_session))))
        = Some r'.
Proof.
  destruct (outcome_tells_what_was_written sample_world malformed_row
              (mkStores [malformed_row] fresh_session)) as (r' & Hf & _).
  - apply NoDup_singleton.
  - apply list_elem_of_here.
  - by exists r'.
Defined.

(** X17. On a healthy store, one turn of the loop whose limit covers the
    backlog and is one the claim accepts clears it: when every pending
    record can take one more attempt and, if of a recognized kind, has a
    payload that passes validation, each pending row ends the turn done,
    with one more attempt, and no row of the table is left pending. *)
Theorem healthy_turn_clears_the_backlog
    (env : environ) (limit : Z) (ws : row → world) (st : stores) :
  BATCH_SIZE env = Some limit → limit ≤ bigint_max →
  (length (pending_rows (outbox st)) ≤ Z.to_nat limit)%nat →
  unique_ids (outbox st) →
  (∀ ev, store_fault (ws ev) = None) →
  (∀ r, r ∈ outbox st → status r = Pending → attempts r + 1 ≤ int_max) →
  (∀ r, r ∈ outbox st → status r = Pending → recognized (event_type r) = true →
        reaches_store r = true) →
  (∀ r, r ∈ outbox st → status r = Pending →
        find (id r) (outbox (cycle env ws st)) = Some (done_row r))
  ∧ pending_rows (outbox (cycle env ws st)) = [].
Proof.
  intros Hb Hmax Hlen Hnd Hws Hfit Hvalid.
  assert (Hdone : ∀ r, r ∈ outbox st → status r = Pending →
                       done_row r ∈ outbox (cycle env ws st)).
  { intros r Hr Hp. unfold cycle. rewrite Hb.
    destruct (claimBatch limit (outbox st)) as [e|[batch tbl']] eqn:Hc.
    { destruct (Z.ltb_spec limit 0) as [Hneg|Hpos];
        [|by rewrite claimBatch_fits in Hc].
      assert (Hin : r ∈ pending_rows (outbox st)).
      { apply list_elem_of_filter. split; [|done]. unfold is_pending.
        by apply bool_decide_eq_true. }
      destruct (pending_rows (outbox st)); [by apply elem_of_nil in Hin | simpl in Hlen; lia]. }
    destruct (claimBatch_spec _ _ _ _ Hnd Hc) as (Hnd' & _ & Hbatch & _).
    destruct (claimBatch_ids _ _ _ _ Hnd Hc) as (Hbn & Hbin & _).
    change (done_row r) with (done_row (set_status Processing r)).
    apply process_batch_done; auto.
    - intros ev Hev. by destruct (Hbatch ev Hev).
    - intros ev Hev. destruct (Hbatch ev Hev) as (_ & _ & r0 & Hr0 & Hp0 & ->).
      simpl. by apply Hfit.
    - intros ev s Hev. destruct (Hbatch ev Hev) as (_ & _ & r0 & Hr0 & Hp0 & ->).
      apply dispatch_reaching_ok; [apply Hws|]. intros Hk.
      exact (Hvalid r0 Hr0 Hp0 Hk).
    - apply Hbin; [done|]. by apply claim_subquery_all. }
  pose proof (cycle_unique_ids env ws st Hnd) as Hnd'.
  split.
  - intros r Hr Hp. rewrite <- (find_unique _ (done_row r) Hnd' (Hdone r Hr Hp)). done.
  - apply filter_none. intros r' Hr' Hp'.
    unfold is_pending in Hp'. apply bool_decide_eq_true in Hp'.
    assert (Hid : id r' ∈ id <$> outbox st)
      by (rewrite <- (cycle_ids env ws st); by apply list_elem_of_fmap_2).
    apply list_elem_of_fmap in Hid as (r & Hid & Hr).
    destruct (decide (status r = Pending)) as [Hp|Hnp].
    + pose proof (Hdone r Hr Hp) as Hd.
      assert (r' = done_row r) as -> by (by apply (unique_ids_eq _ _ _ Hnd')).
      done.
    + pose proof (cycle_skips env ws st r Hnd Hr Hnp) as Hs.
      assert (r' = r) as -> by (by apply (unique_ids_eq _ _ _ Hnd')).
      done.
Qed.

Lemma healthy_turn_clears_the_backlog_witness :
  pending_rows (outbox (cycle ∅ (λ _, sample_world) (mkStores backlog fresh_session))) = [].
Proof.
  refine (proj2 (healthy_turn_clears_the_backlog ∅ 500 (λ _, sample_world)
                   (mkStores backlog fresh_session) _ _ _ _ _ _ _)).
  - reflexivity.
  - by vm_compute.
  - vm_compute. lia.
  - apply (bool_decide_unpack _). by vm_compute.
  - reflexivity.
  - intros r Hr _.
    apply elem_of_cons in Hr as [->|Hr];
      [|apply list_elem_of_singleton in Hr as ->]; by vm_compute.
  - intros r Hr _ _.
    apply elem_of_cons in Hr as [->|Hr]; [reflexivity|].
    apply list_elem_of_singleton in Hr. subst r. reflexivity.
Defined.


Section Retry.

Implicit Types (env : environ) (r : row) (s : session) (w : world) (et : string)
  (payload : props).

(** A turn of the loop over a table holding one pending record. *)
Lemma cycle_single env limit ws r s :
  BATCH_SIZE env = Some limit → 0 < limit ≤ bigint_max → status r = Pending →
  cycle env ws (mkStores [r] s)
  = stores_of (process_event (ws (set_status Processing r)) (set_status Processing r)
                             (mkStores [set_status Processing r] s)).
Proof.
  intros Hb Hl Hp. unfold cycle. rewrite Hb.
  cbn [outbox graph_session]. rewrite claimBatch_single by done.
  cbn [process_batch]. by destruct (process_event _ _ _).
Qed.

Lemma updated_single (f : row → row) r : updated f (id r) [r] = [f r].
Proof. unfold updated. simpl. by rewrite bool_decide_eq_true_2. Qed.

End Retry.

(** X18. An outage of the graph store is made good by the retry. A pending
    record of a recognized kind with a valid payload and fewer than four
    attempts, alone in the outbox of a worker whose batch size the claim
    accepts: a turn of the loop during which the store is down puts it back
    to pending with one more attempt and the error, and leaves the graph as
    it was; the next turn, the store healthy again, marks it done with two
    more attempts than it had, and the graph is exactly the graph a single
    healthy turn would have written. The error message of the outage stays
    on the done row. *)
Theorem outage_is_made_good_by_retry
    (env : environ) (limit : Z) (r : row) (s : session) (w down : world) (e : exn) :
  BATCH_SIZE env = Some limit → 0 < limit ≤ bigint_max →
  status r = Pending → 0 ≤ attempts r → attempts r + 1 < 5 →
  reaches_store r = true →
  store_fault down = Some e → store_fault w = None →
  let after_outage := cycle env (λ _, down) (mkStores [r] s) in
  let retried := cycle env (λ _, w) after_outage in
  let direct := cycle env (λ _, w) (mkStores [r] s) in
  outbox after_outage
  = [mkRow (id r) (event_type r) (payload r) (occurred_at r) (attempts r + 1) Pending
           (Some (error_message e))]
  ∧ store (graph_session after_outage) = store s
  ∧ outbox retried
    = [mkRow (id r) (event_type r) (payload r) (occurred_at r) (attempts r + 2) Done
             (Some (error_message e))]
  ∧ store (graph_session retried) = store (graph_session direct).
Proof.
  intros Hb Hl Hp Ha0 Ha Hreach Hdown Hw after_outage retried direct.
  destruct (reaches_store_inv r Hreach) as (Hk & fields & Hpay & Hv).
  destruct r as [i et d occ n stt err]. cbn [payload event_type status attempts id
                                             occurred_at] in *. subst d stt.
  set (r := mkRow i et (Obj fields) occ n Pending err) in *.
  assert (H1 : after_outage
               = mkStores [mkRow i et (Obj fields) occ (n + 1) Pending
                                 (Some (error_message e))]
                          (mkSession (store s)
                             ((query_of et, params_of et down fields) :: calls s))).
  { unfold after_outage. rewrite (cycle_single env limit) by done.
    rewrite (process_event_throw _ _ _ e
               (mkSession (store s) ((query_of et, params_of et down fields) :: calls s))).
    2:{ cbn [graph_session event_type payload set_status r].
        by rewrite dispatch_valid, Hdown, run_fault. }
    2:{ unfold countable_attempts, int_min, int_max. simpl. lia. }
    cbn [stores_of]. rewrite (updated_single _ (set_status Processing r)).
    unfold failed_row, retry_status. simpl.
    destruct (Z.geb_spec (n + 1) 5); [lia|done]. }
  split; [by rewrite H1|]. split; [by rewrite H1|].
  set (r1 := mkRow i et (Obj fields) occ (n + 1) Pending (Some (error_message e))) in *.
  set (s1 := mkSession (store s) _) in H1.
  destruct (dispatch_writes et w fields s1 Hk Hv Hw) as (bs1 & g1 & He1 & Hd1).
  destruct (dispatch_writes et w fields s Hk Hv Hw) as (bs2 & g2 & He2 & Hd2).
  assert (g1 = g2) as -> by (change (store s1) with (store s) in He1; congruence).
  unfold retried, direct. rewrite H1.
  rewrite (cycle_single env limit _ r1) by done.
  rewrite (cycle_single env limit _ r) by done.
  rewrite (process_event_ok w (set_status Processing r1)
             (mkStores [set_status Processing r1] s1) _ Hd1).
  2:{ intros x Hx _. apply list_elem_of_singleton in Hx as ->.
      unfold int_max. simpl. lia. }
  rewrite (process_event_ok w (set_status Processing r)
             (mkStores [set_status Processing r] s) _ Hd2).
  2:{ intros x Hx _. apply list_elem_of_singleton in Hx as ->.
      unfold int_max. simpl. lia. }
  cbn [stores_of outbox graph_session store].
  rewrite (updated_single _ (set_status Processing r1)).
  split; [|done]. unfold done_row. simpl. do 2 f_equal. lia.
Qed.

Lemma outage_is_made_good_by_retry_witness :
  let r := mkRow 1 "triple.insert" (triple_payload "A" "knows" "B") 10 0 Pending None in
  let down := mkWorld "2025-11-02T09:00:00.000Z" (Some (Error "connect ECONNREFUSED")) in
  status <$> outbox (cycle ∅ (λ _, sample_world)
                       (cycle ∅ (λ _, down) (mkStores [r] fresh_session)))
  = [Done].
Proof.
  intros r down.
  destruct (outage_is_made_good_by_retry ∅ 500 r fresh_session sample_world down
              (Error "connect ECONNREFUSED")) as (_ & _ & H & _).
  - reflexivity.
  - by vm_compute.
  - reflexivity.
  - simpl. lia.
  - simpl. lia.
  - reflexivity.
  - reflexivity.
  - reflexivity.
  - by rewrite H.
Defined.


(* ===================================================================== *)
(** * Further properties: resumptions and signals *)
(* ===================================================================== *)

Section Steps.

Implicit Types (env : environ) (ws : row → world) (st : stores) (p : process).





End Steps.




Section Interrupted.

Implicit Types (env : environ) (ws : row → world) (st : stores) (p : process).

Lemma dispatch_grows et w (d : document) s :
  grows (store s) (store (session_of (dispatch et w d s))).
Proof.
  destruct d as [|payload].
  { destruct (recognized et) eqn:Hk;
      [rewrite dispatch_null by done | rewrite dispatch_unknown by done];
      apply grows_refl. }
  destruct (dispatch_keeps et w payload s) as [Hn Hr].
  split; intros k [p Hk].
  - destruct (Hn k p Hk) as (p' & Hp' & _). by exists p'.
  - destruct (Hr k p Hk) as (p' & Hp' & _). by exists p'.
Qed.

Lemma worker_step_keeps env ws p :
  id <$> outbox (data (worker_step env ws p)) = id <$> outbox (data p)
  ∧ grows (store (graph_session (data p))) (store (graph_session (data (worker_step env ws p)))).
Proof.
  unfold worker_step. destruct (pc p) as [|ev rest|ev r rest].
  - destruct (BATCH_SIZE env) as [limit|]; [|split; [done | apply grows_refl]].
    destruct (claimBatch limit (outbox (data p))) as [e|[batch tbl']] eqn:Hc;
      [split; [done | apply grows_refl]|].
    cbn [data outbox graph_session]. split; [by eapply claimBatch_keeps_ids | apply grows_refl].
  - cbn [data outbox graph_session]. split; [done | apply dispatch_grows].
  - destruct (write_back ev r (outbox (data p))) as [e|tbl'] eqn:Hw;
      cbn [data outbox graph_session]; (split; [|apply grows_refl]); [done|].
    apply write_back_inr in Hw as (f & Hf & ->). by apply updated_ids.
Qed.

Lemma handler_step_data p : data (handler_step p) = data p.
Proof. unfold handler_step, client_released. by destruct (handler p). Qed.

End Interrupted.

(** X20. Nothing is lost, with or without a signal. In every state the
    process can reach, however the signal handler and the worker's loop
    interleave, the outbox has the rows it started with (the same ids, in
    the same places: no row is deleted or duplicated) and the graph has
    every node and relationship it started with. An interrupted record can
    be left in processing; it cannot disappear. *)
Theorem nothing_is_lost_under_signals
    (env : environ) (ws : row → world) (st : stores) (p : process) :
  reachable env ws (start st) p →
  id <$> outbox (data p) = id <$> outbox st
  ∧ grows (store (graph_session st)) (store (graph_session (data p))).
Proof.
  induction 1 as [|p q Hreach [IHi IHg] Hstep].
  - split; [done | apply grows_refl].
  - destruct Hstep as [p _|p _].
    + destruct (worker_step_keeps env ws p) as [Hi Hg].
      split; [by rewrite Hi | by eapply grows_trans].
    + by rewrite handler_step_data.
Qed.

Lemma nothing_is_lost_under_signals_witness :
  let ws := λ _ : row, sample_world in
  let p := handler_step (worker_step ∅ ws (start (mkStores backlog fresh_session))) in
  id <$> outbox (data p) = [1; 2].
Proof.
  intros ws p.
  refine (proj1 (nothing_is_lost_under_signals ∅ ws (mkStores backlog fresh_session) p _)).
  eapply reach_step; [eapply reach_step; [apply reach_start|]|].
  - by apply step_worker.
  - by apply step_handler.
Defined.

